(** * End-to-end speech recognition decoders: CTC prefix beam search and
      attention beam search

    Shallow embedding of
    - [models/pytorch/ctc/decoders/beam_search_decoder.py]
      ([BeamSearchDecoder.__call__]),
    - [models/pytorch/attention/attention_seq2seq.py]
      ([AttentionSeq2seq.decode], [_decode_infer_beam],
      [_decode_infer_greedy], [decode_ctc], [__init__], [forward],
      [_forward], [compute_xe_loss]),
    - [models/pytorch/encoders/load_encoder.py] ([load]), and
    - the hypothesis strings of
      [examples/librispeech/s5/exp/metrics/wer.py] and
      [examples/wsj/s5/exp/metrics/character.py].

    Python exceptions are values of [result]; Python floats are kept
    abstract (class [LogScore]) in the CTC decoder, are exact rationals
    in the attention decoder and for the loss weights, where only [+],
    [-], [*] by a length and [<] are used on them, and are binary64
    floats ([PrimFloat]) in the update of scheduled sampling, which
    divides and multiplies. *)

From Stdlib Require Import ZArith NArith QArith Lia Lqa Ascii String.
From Stdlib Require Floats.
From stdpp Require Import base option list functions.

(* ===================================================================== *)
(** * Exceptions *)
(* ===================================================================== *)

Inductive error :=
| IndexError
| AssertionError
| NotImplementedError
| RuntimeError.

Inductive result (A : Type) :=
| Ok (a : A)
| Raise (e : error).
Arguments Ok {A} a.
Arguments Raise {A} e.

#[global] Instance result_ret : MRet result := fun A a => Ok a.
#[global] Instance result_bind : MBind result := fun A B f m =>
  match m with
  | Ok a => f a
  | Raise e => Raise e
  end.

(** A [for] loop whose body may raise: the first exception ends the loop. *)
Fixpoint foldlM {A B} (f : A → B → result A) (l : list B) (a : A) : result A :=
  match l with
  | [] => Ok a
  | x :: l' => a' ← f a x; foldlM f l' a'
  end.

(** [for x in l: out.append(f x)] with a body that may raise. *)
Fixpoint forM {A B} (f : A → result B) (l : list A) : result (list B) :=
  match l with
  | [] => Ok []
  | x :: l' => y ← f x; ys ← forM f l'; Ok (y :: ys)
  end.

(** Python's [l[:n]] for a possibly negative [n]. *)
Definition slice_to {A} (n : Z) (l : list A) : list A :=
  if (0 <=? n)%Z then take (Z.to_nat n) l
  else take (length l - Z.to_nat (- n)) l.

(** [l[i]] on a list or on a one-dimensional array, [i >= 0]. *)
Definition getitem {A} (l : list A) (i : nat) : result A :=
  match l !! i with
  | Some x => Ok x
  | None => Raise IndexError
  end.

(** [sorted(l, key=key, reverse=True)]: descending in [key], and stable:
    elements with equal keys keep their order in [l].  [lt] is [<] on the
    keys. *)
Section sorted.
Context {A K : Type} (lt : K → K → bool) (key : A → K).

Fixpoint insert_desc (x : A) (l : list A) : list A :=
  match l with
  | [] => [x]
  | y :: l' =>
      if lt (key x) (key y) then y :: insert_desc x l' else x :: l
  end.

Fixpoint sorted_desc (l : list A) : list A :=
  match l with
  | [] => []
  | x :: l' => insert_desc x (sorted_desc l')
  end.
End sorted.

(* ===================================================================== *)
(** * CTC prefix beam search decoder (beam_search_decoder.py) *)
(* ===================================================================== *)

(** The float operations the decoder uses on log-probabilities. *)
Class LogScore (R : Type) := {
  LOG_0 : R;                      (* -float("inf") *)
  LOG_1 : R;                      (* 0 *)
  ladd : R → R → R;               (* p + q *)
  logaddexp : R → R → R;          (* np.logaddexp(p, q) *)
  flt : R → R → bool              (* p < q *)
}.

(** [a <= b] on scores: [not (b < a)]. *)
Definition fle `{LogScore R} (a b : R) : Prop := flt b a = false.

(** [<] is a strict weak order on the scores, as on floats other than NaN. *)
Class LogScoreOrder (R : Type) `{LogScore R} := {
  flt_asym : ∀ a b : R, flt a b = true → flt b a = false;
  flt_negtrans : ∀ a b c : R, fle b a → fle c b → fle c a
}.

(** A dense array of shape [B, T, num_classes]. *)
Record ndarray3 (R : Type) := {
  shape : nat * nat * nat;
  item : nat → nat → nat → R
}.
Arguments shape {R} _.
Arguments item {R} _ _ _ _.

Definition getitem3 {R} (a : ndarray3 R) (b t c : nat) : result R :=
  let '(B, T, C) := shape a in
  if (b <? B) && (t <? T) && (c <? C) then Ok (item a b t c)
  else Raise IndexError.

(** An array built from nested lists, [d] filling the holes. *)
Definition of_lists {R} (d : R) (B T C : nat) (l : list (list (list R)))
  : ndarray3 R :=
  {| shape := (B, T, C);
     item := fun b t c => nth c (nth t (nth b l []) []) d |}.

Abbreviation prefix := (list nat).

Record BeamSearchDecoder := {
  _blank : Z;
  _space : Z
}.

(** [BeamSearchDecoder(blank_index, space_index=-1)] *)
Definition BeamSearchDecoder_init (blank_index : Z) (space_index : option Z)
  : BeamSearchDecoder :=
  {| _blank := blank_index; _space := default (-1)%Z space_index |}.

Section ctc.
Context {R : Type} `{LogScore R}.

(** An entry of the beam: [(prefix, (p_blank, p_no_blank))]. *)
Definition entry : Type := prefix * (R * R).

(** [next_beam]: a [defaultdict] in insertion order. *)
Fixpoint nb_find (nb : list entry) (k : prefix) : option (R * R) :=
  match nb with
  | [] => None
  | (k', v) :: nb' => if decide (k = k') then Some v else nb_find nb' k
  end.

(** [fn()] of [_make_new_beam]. *)
Definition fn : R * R := (LOG_0, LOG_0).

(** [next_beam[k]] as an expression: a missing key is inserted with
    [fn()] at the end of the dictionary. *)
Definition nb_getitem (nb : list entry) (k : prefix)
  : (R * R) * list entry :=
  match nb_find nb k with
  | Some v => (v, nb)
  | None => (fn, nb ++ [(k, fn)])
  end.

(** [next_beam[k] = v]: an existing key keeps its position. *)
Fixpoint nb_setitem (nb : list entry) (k : prefix) (v : R * R)
  : list entry :=
  match nb with
  | [] => [(k, v)]
  | (k', v') :: nb' =>
      if decide (k = k') then (k, v) :: nb'
      else (k', v') :: nb_setitem nb' k v
  end.

(** The probabilities [next_beam] holds for [k]: what [next_beam[k]]
    reads. *)
Definition nb_get (nb : list entry) (k : prefix) : R * R :=
  default fn (nb_find nb k).

(** [prefix[-1] if prefix else None] *)
Definition prefix_end (p : prefix) : option nat := list.last p.

(** The body of the loop over the beam, for the class [c] with
    log-probability [p_t]. *)
Definition propose (blank : Z) (c : nat) (p_t : R)
    (next_beam : list entry) (e : entry) : list entry :=
  let '(prefix, (p_b, p_nb)) := e in
  if decide (Z.of_nat c = blank) then
    let '((new_p_b, new_p_nb), next_beam) := nb_getitem next_beam prefix in
    let new_p_b :=
      logaddexp new_p_b (logaddexp (ladd p_b p_t) (ladd p_nb p_t)) in
    nb_setitem next_beam prefix (new_p_b, new_p_nb)
  else
    let new_prefix := prefix ++ [c] in
    let '((new_p_b, new_p_nb), next_beam) :=
      nb_getitem next_beam new_prefix in
    let new_p_nb :=
      if decide (Some c ≠ prefix_end prefix) then
        logaddexp new_p_nb (logaddexp (ladd p_b p_t) (ladd p_nb p_t))
      else
        logaddexp new_p_nb (ladd p_b p_t) in
    let next_beam := nb_setitem next_beam new_prefix (new_p_b, new_p_nb) in
    if decide (Some c = prefix_end prefix) then
      let '((new_p_b, new_p_nb), next_beam) := nb_getitem next_beam prefix in
      let new_p_nb := logaddexp new_p_nb (ladd p_nb p_t) in
      nb_setitem next_beam prefix (new_p_b, new_p_nb)
    else next_beam.

(** The sort key: [np.logaddexp] of the two probabilities of the entry. *)
Definition key (e : entry) : R := logaddexp (e.2.1) (e.2.2).

(** [sorted(next_beam.items(), key=..., reverse=True)] *)
Definition sorted_beam (l : list entry) : list entry :=
  sorted_desc flt key l.

(** The candidates of time step [t]: the loops over [c] and the beam. *)
Definition candidates (blank : Z) (log_probs : ndarray3 R) (b t : nat)
    (beam : list entry) : result (list entry) :=
  let num_classes := (shape log_probs).2 in
  foldlM (fun next_beam c =>
            p_t ← getitem3 log_probs b t c;
            Ok (foldl (propose blank c p_t) next_beam beam))
         (seq 0 num_classes) [].

(** One pass of the loop over [t]: candidates, sort, trim. *)
Definition time_step (blank : Z) (log_probs : ndarray3 R) (b : nat)
    (beam_width : Z) (beam : list entry) (t : nat) : result (list entry) :=
  next_beam ← candidates blank log_probs b t beam;
  Ok (slice_to beam_width (sorted_beam next_beam)).

Definition init_beam : list entry := [([], (LOG_1, LOG_0))].

(** The beam after the loop over [t in range(time)]. *)
Definition final_beam (blank : Z) (log_probs : ndarray3 R) (b : nat)
    (beam_width : Z) (time : Z) : result (list entry) :=
  foldlM (time_step blank log_probs b beam_width)
         (seq 0 (Z.to_nat time)) init_beam.

(** The body of the loop over the batch: [beam[0][0]]. *)
Definition decode_utt (blank : Z) (log_probs : ndarray3 R)
    (x_lens : list Z) (beam_width : Z) (b : nat) : result prefix :=
  time ← getitem x_lens b;
  beam ← final_beam blank log_probs b beam_width time;
  top ← getitem beam 0;
  Ok top.1.

(** [BeamSearchDecoder.__call__] *)
Definition BeamSearchDecoder_call (self : BeamSearchDecoder)
    (log_probs : ndarray3 R) (x_lens : list Z) (beam_width : Z)
    (alpha beta : R) : result (list prefix) :=
  let batch_size := (shape log_probs).1.1 in
  forM (decode_utt (_blank self) log_probs x_lens beam_width)
       (seq 0 batch_size).

(** The combined score [np.logaddexp(p_blank, p_no_blank)] of the entry
    at the head of the final beam, the entry [decode_utt] returns. *)
Definition top_score (blank : Z) (log_probs : ndarray3 R)
    (x_lens : list Z) (beam_width : Z) (b : nat) : result R :=
  time ← getitem x_lens b;
  beam ← final_beam blank log_probs b beam_width time;
  top ← getitem beam 0;
  Ok (key top).
End ctc.

(** Scores as weights: the weight [w] stands for the log-probability
    [ln w] ([0] for [-inf]).  [ln] is increasing and turns [*] into [+]
    and [+] into [logaddexp], so the decoder run on the logarithms takes
    the decisions this instance takes on the weights. *)
#[global] Instance weight_score : LogScore N := {|
  LOG_0 := 0%N;
  LOG_1 := 1%N;
  ladd := N.mul;
  logaddexp := N.add;
  flt := N.ltb
|}.

#[global] Instance weight_order : LogScoreOrder N.
Proof.
  split; unfold fle; simpl; intros *; rewrite ?N.ltb_lt, ?N.ltb_ge; lia.
Qed.

(** Whether a label sequence repeats a label at adjacent positions. *)
Fixpoint adjacent_repeat (l : list nat) : bool :=
  match l with
  | x :: (y :: _) as l' => (x =? y) || adjacent_repeat l'
  | _ => false
  end.

(* ===================================================================== *)
(** * Attention beam search decoder (attention_seq2seq.py) *)
(* ===================================================================== *)

Inductive direction := fwd | bwd.

Inductive dec_order :=
| attend_generate_update
| attend_update_generate
| conditional.

(** The state a call of a decoder layer returns: the state object it was
    passed, or a new object. *)
Inductive returned (state : Type) : Type :=
| same_object
| new_object (v : state).
Arguments same_object {state}.
Arguments new_object {state} v.

(** The layers of the network and the tensor operations, which the decoder
    only calls.  [enc_t] is one utterance of the encoder output with its
    length ([enc_out[b:b + 1], x_lens[b:b + 1]]); [state_t] is the value of
    a decoder state, the whole object graph a [copy.deepcopy] copies.

    The decoder layers ([models/pytorch/attention/rnn_decoder.py]) are
    passed a state object, which they may update in place.  A call is read
    on the value [st] of that object: it gives the output, the value the
    call leaves in the object it was passed ([st] itself when the layer
    does not write to its argument), and the state it returns. *)
Class Layers := {
  xs_t : Type; perm_t : Type; enc_t : Type; emb_t : Type; ctx_t : Type;
  out_t : Type; aw_t : Type; logits_t : Type; state_t : Type;
  trace_t : Type; greedy_t : Type;
  (** [_encode(xs, x_lens)] *)
  _encode : xs_t → list Z → list enc_t * perm_t;
  (** [embed_0(y)] *)
  embed : nat → emb_t;
  (** [attend_0_dir(enc_out, x_lens, dec_out, aw_step)] *)
  attend : direction → enc_t → out_t → aw_t → ctx_t * aw_t;
  (** [fc_0_dir(tanh(W_d_0_dir(dec_out) + W_c_0_dir(context_vec)))] *)
  generate : direction → out_t → ctx_t → logits_t;
  (** [decoder_0_dir(cat([y, context_vec]), dec_state)] *)
  decoder :
    direction → emb_t → ctx_t → state_t → out_t * state_t * returned state_t;
  (** [decoder_first_0_dir(y, dec_state)] *)
  decoder_first :
    direction → emb_t → state_t → out_t * state_t * returned state_t;
  (** [decoder_second_0_dir(context_vec, _dec_state)] *)
  decoder_second :
    direction → ctx_t → state_t → out_t * state_t * returned state_t;
  (** [F.log_softmax(logits_step.squeeze(1), dim=1).topk(k, ...)]: the
      pairs [(indices_topk[0, i], log_probs_topk[0, i])] *)
  log_softmax_topk : logits_t → Z → result (list (nat * Q));
  (** [_init_dec_state(enc_out, x_lens, 0, dir)] *)
  _init_dec_state : direction → enc_t → state_t * out_t;
  (** [_create_tensor((1, x_len, num_heads), fill_value=0)] *)
  zero_aw : enc_t → aw_t;
  (** [tensor2np(torch.stack([a[:, :, 0] for a in aw], dim=1).squeeze(0))] *)
  stack_np : list aw_t → result trace_t;
  (** [_decode_infer_greedy(enc_out, x_lens, max_decode_len, 0, dir)]
      followed by [aw[:, :, :, 0]]: the batched path of [beam_width == 1],
      which this development does not unfold. *)
  _decode_infer_greedy :
    list enc_t → Z → direction → result (list (list nat) * greedy_t)
}.

Abbreviation loc := nat.

Definition Qltb (x y : Q) : bool := negb (Qle_bool y x).

(** [LOG_1 = 0] of attention_seq2seq.py *)
Definition LOG_1_att : Q := 0.

Section attention.
Context `{Layers}.

(** The attributes of the model the decoder reads. *)
Record AttentionSeq2seq := {
  decoding_order : dec_order;
  backward_loss_weight : Q;
  sos_0 : nat;
  eos_0 : nat
}.

Definition fwd_weight_0 (self : AttentionSeq2seq) : Q :=
  1 - backward_loss_weight self.
Definition bwd_weight_0 (self : AttentionSeq2seq) : Q :=
  backward_loss_weight self.

(** The heap of decoder states: an object is its address ([loc]). *)
Record store := {
  next : loc;
  cell : loc → state_t
}.

(** Code that allocates and may raise. *)
Definition M (A : Type) : Type := store → result (A * store).

#[global] Instance M_ret : MRet M := fun A a σ => Ok (a, σ).
#[global] Instance M_bind : MBind M := fun A B f m σ =>
  match m σ with
  | Ok (a, σ') => f a σ'
  | Raise e => Raise e
  end.

Definition lift {A} (r : result A) : M A := fun σ =>
  match r with
  | Ok a => Ok (a, σ)
  | Raise e => Raise e
  end.

(** A new object holding [v]. *)
Definition new (v : state_t) : M loc := fun σ =>
  Ok (next σ, {| next := S (next σ); cell := <[next σ := v]> (cell σ) |}).

Definition read (l : loc) : M state_t := fun σ => Ok (cell σ l, σ).

(** [copy.deepcopy(obj)] *)
Definition deepcopy (l : loc) : M loc := v ← read l; new v.

(** An in-place update of the object at [l]. *)
Definition mutate (l : loc) (v : state_t) (σ : store) : store :=
  {| next := next σ; cell := <[l := v]> (cell σ) |}.

(** [obj] updated in place to the value [v]. *)
Definition write (l : loc) (v : state_t) : M unit := fun σ =>
  Ok (tt, mutate l v σ).

(** A call [layer(..., obj)] of the decoder layer [f] on the state object
    [l] itself: the output and the state object the call returns. *)
Definition call (f : state_t → out_t * state_t * returned state_t)
    (l : loc) : M (out_t * loc) :=
  st ← read l;
  let '(out, st_after, ret) := f st in
  _ ← write l st_after;
  match ret with
  | same_object => mret (out, l)
  | new_object v => l' ← new v; mret (out, l')
  end.

Fixpoint forM_st {A B} (f : A → M B) (l : list A) : M (list B) :=
  match l with
  | [] => mret []
  | x :: l' => y ← f x; ys ← forM_st f l'; mret (y :: ys)
  end.

(** An entry of the beam. *)
Record hypothesis := {
  hyp : list nat;
  score : Q;
  dec_state : loc;
  dec_out : out_t;
  aw_steps : list aw_t
}.

(** [l[-1]] *)
Definition last_item {A} (l : list A) : result A :=
  match list.last l with
  | Some x => Ok x
  | None => Raise IndexError
  end.

(** The dictionary appended to [new_beam]. *)
Definition child (h : hypothesis) (idx : nat) (log_prob : Q)
    (l : loc) (out : out_t) (aw_step : aw_t) : hypothesis :=
  {| hyp := hyp h ++ [idx];
     score := score h + log_prob;
     dec_state := l;
     dec_out := out;
     aw_steps := aw_steps h ++ [aw_step] |}.

(** The body of the loop over [i_beam]: the [beam_width] candidates that
    extend the hypothesis [h]. *)
Definition expand (self : AttentionSeq2seq) (dir : direction)
    (enc : enc_t) (beam_width : Z) (h : hypothesis)
    : M (list hypothesis) :=
  match decoding_order self with
  | attend_generate_update =>
      aw_prev ← lift (last_item (aw_steps h));
      let '(context_vec, aw_step) := attend dir enc (dec_out h) aw_prev in
      let logits_step := generate dir (dec_out h) context_vec in
      topk ← lift (log_softmax_topk logits_step beam_width);
      forM_st (fun k =>
                 '(idx, log_prob) ← lift (getitem topk k);
                 let y := embed idx in
                 '(out, dec_state') ← call (decoder dir y context_vec)
                                           (dec_state h);
                 l ← deepcopy dec_state';
                 mret (child h idx log_prob l out aw_step))
              (seq 0 (Z.to_nat beam_width))
  | attend_update_generate =>
      y_prev ← lift (last_item (hyp h));
      let y := embed y_prev in
      aw_prev ← lift (last_item (aw_steps h));
      let '(context_vec, aw_step) := attend dir enc (dec_out h) aw_prev in
      '(out, dec_state') ← call (decoder dir y context_vec) (dec_state h);
      let logits_step := generate dir out context_vec in
      topk ← lift (log_softmax_topk logits_step beam_width);
      forM_st (fun k =>
                 '(idx, log_prob) ← lift (getitem topk k);
                 l ← deepcopy dec_state';
                 mret (child h idx log_prob l out aw_step))
              (seq 0 (Z.to_nat beam_width))
  | conditional =>
      y_prev ← lift (last_item (hyp h));
      let y := embed y_prev in
      '(_out, _dec_state) ← call (decoder_first dir y) (dec_state h);
      aw_prev ← lift (last_item (aw_steps h));
      let '(context_vec, aw_step) := attend dir enc _out aw_prev in
      '(out, dec_state') ← call (decoder_second dir context_vec) _dec_state;
      let logits_step := generate dir out context_vec in
      topk ← lift (log_softmax_topk logits_step beam_width);
      forM_st (fun k =>
                 '(idx, log_prob) ← lift (getitem topk k);
                 l ← deepcopy dec_state';
                 mret (child h idx log_prob l out aw_step))
              (seq 0 (Z.to_nat beam_width))
  end.

(** [sorted(l, key=lambda x: x['score'], reverse=True)] *)
Definition sorted_by_score (l : list hypothesis) : list hypothesis :=
  sorted_desc Qltb score l.

(** The loop "Remove complete hypotheses". *)
Fixpoint remove_complete (eos : nat) (cands complete not_complete
    : list hypothesis) : list hypothesis * list hypothesis :=
  match cands with
  | [] => (complete, not_complete)
  | cand :: cands' =>
      if decide (list.last (hyp cand) = Some eos)
      then remove_complete eos cands' (complete ++ [cand]) not_complete
      else remove_complete eos cands' complete (not_complete ++ [cand])
  end.

(** The loop over [t in range(max_decode_len)], [n] passes being left;
    the result is [(complete, beam)] when the loop is left. *)
Fixpoint search (self : AttentionSeq2seq) (dir : direction) (enc : enc_t)
    (beam_width : Z) (n : nat) (complete beam : list hypothesis)
    : M (list hypothesis * list hypothesis) :=
  match n with
  | O => mret (complete, beam)
  | S n' =>
      new_beam ← forM_st (expand self dir enc beam_width) beam;
      let new_beam := sorted_by_score (concat new_beam) in
      let '(complete, not_complete) :=
        remove_complete (eos_0 self) (slice_to beam_width new_beam)
                        complete [] in
      if (beam_width <=? Z.of_nat (length complete))%Z
      then mret (slice_to beam_width complete, beam)
      else search self dir enc beam_width n' complete
                  (slice_to beam_width not_complete)
  end.

(** "Renormalized hypotheses by length": the dictionaries of [complete]
    are distinct objects, each updated once. *)
Definition renormalize (length_penalty : Q) (complete : list hypothesis)
    : list hypothesis :=
  if Qltb 0 length_penalty then
    map (fun h =>
           {| hyp := hyp h;
              score := score h + inject_Z (Z.of_nat (length (hyp h)))
                                 * length_penalty;
              dec_state := dec_state h;
              dec_out := dec_out h;
              aw_steps := aw_steps h |}) complete
  else complete.

(** The ranking after the search: the head of the result is chosen. *)
Definition final_ranking (length_penalty : Q)
    (complete beam : list hypothesis) : list hypothesis :=
  let complete := if decide (length complete = 0) then beam else complete in
  sorted_by_score (renormalize length_penalty complete).

(** The body of the loop over the batch: the pair appended to
    [(best_hyps, aw)]. *)
Definition search_utt (self : AttentionSeq2seq) (dir : direction)
    (beam_width max_decode_len : Z) (length_penalty : Q) (enc : enc_t)
    : M (list nat * list aw_t) :=
  let '(st, out) := _init_dec_state dir enc in
  dec_state0 ← new st;
  let aw_step := zero_aw enc in
  let beam := [ {| hyp := [sos_0 self];
                   score := LOG_1_att;
                   dec_state := dec_state0;
                   dec_out := out;
                   aw_steps := [aw_step] |} ] in
  '(complete, beam) ← search self dir enc beam_width
                             (Z.to_nat max_decode_len) [] beam;
  let complete := final_ranking length_penalty complete beam in
  top ← lift (getitem complete 0);
  mret (drop 1 (hyp top), aw_steps top).

(** [_decode_infer_beam] *)
Definition _decode_infer_beam (self : AttentionSeq2seq)
    (enc_out : list enc_t) (beam_width max_decode_len : Z)
    (length_penalty coverage_penalty : Q) (dir : direction)
    : M (list (list nat) * list trace_t) :=
  let asserted :=
    match dir with
    | bwd => Qltb 0 (bwd_weight_0 self)
    | fwd => true
    end in
  if negb asserted then lift (Raise AssertionError)
  else
    res ← forM_st (search_utt self dir beam_width max_decode_len
                              length_penalty) enc_out;
    aw ← lift (forM (fun r => stack_np (drop 1 r.2)) res);
    match dir with
    | bwd => lift (Raise NotImplementedError)
    | fwd => mret (map fst res, aw)
    end.

(** [decode]: the sequences, the attention weights and [perm_idx]. *)
Definition decode (self : AttentionSeq2seq) (xs : xs_t) (x_lens : list Z)
    (beam_width max_decode_len : Z)
    (length_penalty coverage_penalty : Q)
    : M (list (list nat) * (greedy_t + list trace_t) * perm_t) :=
  let '(enc_out, perm_idx) := _encode xs x_lens in
  let dir := if Qle_bool (bwd_weight_0 self) (fwd_weight_0 self)
             then fwd else bwd in
  if decide (beam_width = 1%Z) then
    '(best_hyps, aw) ← lift (_decode_infer_greedy enc_out
                                                  max_decode_len dir);
    mret (best_hyps, inl aw, perm_idx)
  else
    '(best_hyps, aw) ← _decode_infer_beam self enc_out beam_width
                          max_decode_len length_penalty coverage_penalty
                          dir;
    mret (best_hyps, inr aw, perm_idx).
End attention.

(** A scripted network for concrete runs: the encoder output of an utterance
    is the table of the [topk] answers, one row per step; a decoder state
    counts the steps, and the attention weight of a step is its number.
    Its decoder layers leave the state they are passed as it is and return
    a new one. *)
#[global] Instance scripted : Layers := {|
  xs_t := list (list (list (nat * Q)));
  perm_t := unit;
  enc_t := list (list (nat * Q));
  emb_t := nat;
  ctx_t := list (list (nat * Q));
  out_t := nat;
  aw_t := nat;
  logits_t := list (nat * Q);
  state_t := nat;
  trace_t := list nat;
  greedy_t := unit;
  _encode := fun xs _ => (xs, tt);
  embed := fun y => y;
  attend := fun _ enc out aw => (enc, S aw);
  generate := fun _ out ctx => nth out ctx [];
  decoder := fun _ _ _ st => (S st, st, new_object (S st));
  decoder_first := fun _ _ st => (st, st, new_object st);
  decoder_second := fun _ _ st => (S st, st, new_object (S st));
  log_softmax_topk := fun logits k =>
    if ((0 <=? k)%Z && (k <=? Z.of_nat (length logits))%Z)%bool
    then Ok (take (Z.to_nat k) logits) else Raise RuntimeError;
  _init_dec_state := fun _ _ => (O, O);
  zero_aw := fun _ => O;
  stack_np := fun l => match l with [] => Raise RuntimeError | _ => Ok l end;
  _decode_infer_greedy := fun _ _ _ => Raise NotImplementedError
|}.


(** The heap before a call. *)
Definition heap0 : @store scripted := {| next := 0; cell := fun _ => O |}.

(** The value a run returns, forgetting the heap. *)
Definition value `{Layers} {A} (r : result (A * store)) : result A :=
  match r with
  | Ok (a, _) => Ok a
  | Raise e => Raise e
  end.

(* ===================================================================== *)
(** * The greedy path of the attention decoder (_decode_infer_greedy) *)
(* ===================================================================== *)

(** The layers on a whole batch, as the greedy path calls them.  A tensor
    of one integer per utterance ([y], of size [B, 1]) is a function on the
    indices below the batch size. *)
Class BatchLayers := {
  benc_t : Type; bemb_t : Type; bctx_t : Type; bout_t : Type; baw_t : Type;
  blogits_t : Type; bstate_t : Type; btrace_t : Type;
  (** [enc_out.size(0)] *)
  batch_size : benc_t → nat;
  (** [embed_0(y)] *)
  bembed : (nat → nat) → bemb_t;
  (** [attend_0_dir(enc_out, x_lens, dec_out, aw_step)] *)
  battend : direction → benc_t → bout_t → baw_t → bctx_t * baw_t;
  (** [fc_0_dir(tanh(W_d_0_dir(dec_out) + W_c_0_dir(context_vec)))] *)
  bgenerate : direction → bout_t → bctx_t → blogits_t;
  (** [decoder_0_dir(cat([y_emb, context_vec]), dec_state)] *)
  bdecoder : direction → bemb_t → bctx_t → bstate_t → bout_t * bstate_t;
  (** [decoder_first_0_dir(y_emb, dec_state)] *)
  bdecoder_first : direction → bemb_t → bstate_t → bout_t * bstate_t;
  (** [decoder_second_0_dir(context_vec, _dec_state)] *)
  bdecoder_second : direction → bctx_t → bstate_t → bout_t * bstate_t;
  (** [torch.max(logits_step.squeeze(1), dim=1)[1]] *)
  bargmax : blogits_t → nat → nat;
  (** [_init_dec_state(enc_out, x_lens, 0, dir)] *)
  binit_dec_state : direction → benc_t → bstate_t * bout_t;
  (** [_create_tensor((batch_size, max_time, num_heads), fill_value=0)] *)
  bzero_aw : benc_t → baw_t;
  (** [tensor2np(torch.stack(aw, dim=1))] *)
  bstack : list baw_t → btrace_t
}.

Section greedy.
Context `{BatchLayers}.

(** The variables a pass of the loop reads and assigns. *)
Record greedy_state := {
  g_dec_state : bstate_t;
  g_dec_out : bout_t;
  g_aw_step : baw_t;
  g_y : nat → nat;
  g_y_emb : bemb_t
}.

(** The lists and arrays the loop fills. *)
Record greedy_acc := {
  g_best_hyps : list (nat → nat);
  g_aw : list baw_t;
  g_y_lens : nat → nat;
  g_eos_flag : nat → bool
}.

(** The three decoding orders of a pass: the new variables. *)
Definition greedy_step (self : AttentionSeq2seq) (dir : direction)
    (enc_out : benc_t) (s : greedy_state) : greedy_state :=
  match decoding_order self with
  | attend_generate_update =>
      let '(context_vec, aw_step) :=
        battend dir enc_out (g_dec_out s) (g_aw_step s) in
      let logits_step := bgenerate dir (g_dec_out s) context_vec in
      let y := bargmax logits_step in
      let y_emb := bembed y in
      let '(dec_out, dec_state) :=
        bdecoder dir y_emb context_vec (g_dec_state s) in
      {| g_dec_state := dec_state; g_dec_out := dec_out;
         g_aw_step := aw_step; g_y := y; g_y_emb := y_emb |}
  | attend_update_generate =>
      let '(context_vec, aw_step) :=
        battend dir enc_out (g_dec_out s) (g_aw_step s) in
      let '(dec_out, dec_state) :=
        bdecoder dir (g_y_emb s) context_vec (g_dec_state s) in
      let logits_step := bgenerate dir dec_out context_vec in
      let y := bargmax logits_step in
      let y_emb := bembed y in
      {| g_dec_state := dec_state; g_dec_out := dec_out;
         g_aw_step := aw_step; g_y := y; g_y_emb := y_emb |}
  | conditional =>
      let '(_dec_out, _dec_state) :=
        bdecoder_first dir (g_y_emb s) (g_dec_state s) in
      let '(context_vec, aw_step) :=
        battend dir enc_out _dec_out (g_aw_step s) in
      let '(dec_out, dec_state) :=
        bdecoder_second dir context_vec _dec_state in
      let logits_step := bgenerate dir dec_out context_vec in
      let y := bargmax logits_step in
      let y_emb := bembed y in
      {| g_dec_state := dec_state; g_dec_out := dec_out;
         g_aw_step := aw_step; g_y := y; g_y_emb := y_emb |}
  end.

(** "Count lengths of hypotheses": the loop over [b in range(batch_size)]. *)
Definition count_lengths (eos B : nat) (y : nat → nat)
    (y_lens : nat → nat) (eos_flag : nat → bool)
    : (nat → nat) * (nat → bool) :=
  foldl (fun '((y_lens, eos_flag) : (nat → nat) * (nat → bool)) (b : nat) =>
           if eos_flag b then (y_lens, eos_flag)
           else if y b =? eos then (y_lens, <[b := true]> eos_flag)
           else (<[b := S (y_lens b)]> y_lens, eos_flag))
        (y_lens, eos_flag) (seq 0 B).

(** [torch.sum(y == eos) == y.numel()] *)
Definition all_eos (eos B : nat) (y : nat → nat) : bool :=
  forallb (fun b => y b =? eos) (seq 0 B).

(** The loop over [range(max_decode_len)], [n] passes being left. *)
Fixpoint greedy_loop (self : AttentionSeq2seq) (dir : direction)
    (enc_out : benc_t) (n : nat) (s : greedy_state) (acc : greedy_acc)
    : greedy_acc :=
  match n with
  | O => acc
  | S n' =>
      let s := greedy_step self dir enc_out s in
      let B := batch_size enc_out in
      let '(y_lens, eos_flag) :=
        match dir with
        | bwd => count_lengths (eos_0 self) B (g_y s)
                               (g_y_lens acc) (g_eos_flag acc)
        | fwd => (g_y_lens acc, g_eos_flag acc)
        end in
      let acc := {| g_best_hyps := g_best_hyps acc ++ [g_y s];
                    g_aw := g_aw acc ++ [g_aw_step s];
                    g_y_lens := y_lens; g_eos_flag := eos_flag |} in
      if all_eos (eos_0 self) B (g_y s) then acc
      else greedy_loop self dir enc_out n' s acc
  end.

(** The rows of [torch.cat(best_hyps, dim=1)], one per utterance. *)
Definition rows (B : nat) (cols : list (nat → nat)) : list (list nat) :=
  (fun b : nat => (fun y : nat → nat => y b) <$> cols) <$> seq 0 B.

(** [row[:k] = row[:k][::-1]] *)
Definition reverse_prefix (k : nat) (row : list nat) : list nat :=
  reverse (take k row) ++ drop k row.

(** The variables before the loop. *)
Definition greedy_init (self : AttentionSeq2seq) (dir : direction)
    (enc_out : benc_t) : greedy_state * greedy_acc :=
  let '(dec_state, dec_out) := binit_dec_state dir enc_out in
  let y := fun _ : nat => sos_0 self in
  ({| g_dec_state := dec_state; g_dec_out := dec_out;
      g_aw_step := bzero_aw enc_out; g_y := y; g_y_emb := bembed y |},
   {| g_best_hyps := []; g_aw := [];
      g_y_lens := fun _ => 0; g_eos_flag := fun _ => false |}).

(** [_decode_infer_greedy]; [torch.cat] of no tensor raises. *)
Definition _decode_infer_greedy' (self : AttentionSeq2seq)
    (enc_out : benc_t) (max_decode_len : Z) (dir : direction)
    : result (list (list nat) * btrace_t) :=
  let asserted :=
    match dir with
    | bwd => Qltb 0 (bwd_weight_0 self)
    | fwd => true
    end in
  if negb asserted then Raise AssertionError
  else
    let '(s, acc) := greedy_init self dir enc_out in
    let acc := greedy_loop self dir enc_out (Z.to_nat max_decode_len) s acc in
    match g_best_hyps acc with
    | [] => Raise RuntimeError
    | _ =>
        let best_hyps := rows (batch_size enc_out) (g_best_hyps acc) in
        let best_hyps :=
          match dir with
          | bwd => imap (fun b row => reverse_prefix (g_y_lens acc b) row)
                        best_hyps
          | fwd => best_hyps
          end in
        Ok (best_hyps, bstack (g_aw acc))
    end.
End greedy.

(** The symbols of [l] before the first [eos], and those from it on. *)
Fixpoint before_eos (eos : nat) (l : list nat) : list nat :=
  match l with
  | [] => []
  | x :: l' => if x =? eos then [] else x :: before_eos eos l'
  end.

Fixpoint from_eos (eos : nat) (l : list nat) : list nat :=
  match l with
  | [] => []
  | x :: l' => if x =? eos then l else from_eos eos l'
  end.

(** A scripted batch network for concrete runs: the encoder output holds,
    for every utterance, the symbols it emits step by step ([0] when the
    script is over); a decoder state counts the steps. *)
#[global] Instance scripted_batch : BatchLayers := {|
  benc_t := list (list nat);
  bemb_t := unit;
  bctx_t := nat → nat;
  bout_t := nat;
  baw_t := nat;
  blogits_t := nat → nat;
  bstate_t := nat;
  btrace_t := list nat;
  batch_size := fun enc => length enc;
  bembed := fun _ => tt;
  battend := fun _ enc out aw => (fun b => nth out (nth b enc []) 0, S aw);
  bgenerate := fun _ _ ctx => ctx;
  bdecoder := fun _ _ _ st => (S st, S st);
  bdecoder_first := fun _ _ st => (st, st);
  bdecoder_second := fun _ _ st => (S st, S st);
  bargmax := fun logits => logits;
  binit_dec_state := fun _ _ => (O, O);
  bzero_aw := fun _ => O;
  bstack := fun l => l
|}.

(* ===================================================================== *)
(** * CTC decoding of the joint CTC-attention model (decode_ctc) *)
(* ===================================================================== *)

(** The layers [decode_ctc] calls, and the greedy CTC decoder
    ([models/pytorch/ctc/decoders/greedy_decoder.py]), which this
    development does not unfold. *)
Class CtcLayers (R : Type) := {
  cxs_t : Type; cenc_t : Type; cperm_t : Type;
  (** [_encode(xs, x_lens)]: [(enc_out, x_lens, perm_idx)] *)
  _encode_main : cxs_t → list Z → cenc_t * list Z * cperm_t;
  (** [_encode(xs, x_lens, is_multi_task=True)]: the last three
      components, [(enc_out, x_lens, perm_idx)] of the sub task *)
  _encode_sub : cxs_t → list Z → cenc_t * list Z * cperm_t;
  (** [fc_ctc_<task_index>(enc_out)], viewed as [B, T, num_classes] *)
  fc_ctc : Z → cenc_t → ndarray3 R;
  (** [F.log_softmax(logits_ctc, dim=-1)] *)
  log_softmax : ndarray3 R → ndarray3 R;
  (** [GreedyDecoder(blank_index=0).__call__] *)
  _decode_ctc_greedy_np : ndarray3 R → list Z → result (list prefix);
  (** the float [0.], the default of [alpha] and [beta] *)
  float_zero : R
}.

(** [self._decode_ctc_beam_np], as the constructor sets it when
    [ctc_loss_weight > 0]. *)
Definition _decode_ctc_beam_np : BeamSearchDecoder :=
  BeamSearchDecoder_init 0 None.

(** [best_hyps -= 1] *)
Definition decrement (best_hyps : list prefix) : list (list Z) :=
  map (map (fun c : nat => (Z.of_nat c - 1)%Z)) best_hyps.

Section decode_ctc.
Context {R : Type} `{LogScore R} `{!CtcLayers R}.

(** [decode_ctc] of a model built with [ctc_loss_weight > 0]. *)
Definition decode_ctc (xs : cxs_t) (x_lens : list Z)
    (beam_width task_index : Z) : result (list (list Z) * cperm_t) :=
  '(enc_out, x_lens, perm_idx) ←
    (if decide (task_index = 0%Z) then Ok (_encode_main xs x_lens)
     else if decide (task_index = 1%Z) then Ok (_encode_sub xs x_lens)
     else Raise NotImplementedError);
  let logits_ctc := fc_ctc task_index enc_out in
  best_hyps ←
    (if decide (beam_width = 1%Z)
     then _decode_ctc_greedy_np logits_ctc x_lens
     else BeamSearchDecoder_call _decode_ctc_beam_np
            (log_softmax logits_ctc) x_lens beam_width
            float_zero float_zero);
  Ok (decrement best_hyps, perm_idx).
End decode_ctc.

(** Layers for concrete runs on weights: the input is the matrix of the
    CTC layer. *)
#[global] Instance weight_layers : CtcLayers N := {|
  cxs_t := ndarray3 N;
  cenc_t := ndarray3 N;
  cperm_t := unit;
  _encode_main := fun xs x_lens => (xs, x_lens, tt);
  _encode_sub := fun xs x_lens => (xs, x_lens, tt);
  fc_ctc := fun _ enc => enc;
  log_softmax := fun a => a;
  _decode_ctc_greedy_np := fun _ _ => Raise NotImplementedError;
  float_zero := 0%N
|}.

(* ===================================================================== *)
(** * The constructor and the training step
      (attention_seq2seq.py, load_encoder.py) *)
(* ===================================================================== *)

#[global] Instance string_eq_dec : EqDecision string := string_dec.

(** The exceptions of the constructor and of the training step: those of
    the decoders, and three more. *)
Inductive exception :=
| Of (e : error)
| ValueError
| TypeError
| ZeroDivisionError.

Inductive outcome (A : Type) :=
| Return (a : A)
| Throw (x : exception).
Arguments Return {A} a.
Arguments Throw {A} x.

#[global] Instance outcome_ret : MRet outcome := fun A a => Return a.
#[global] Instance outcome_bind : MBind outcome := fun A B f m =>
  match m with
  | Return a => f a
  | Throw x => Throw x
  end.

(** The encoder classes. *)
Inductive encoder_class := RNNEncoder | CNNEncoder.

(** [ENCODERS] of load_encoder.py *)
Definition ENCODERS : list (string * encoder_class) :=
  [ ("lstm", RNNEncoder); ("gru", RNNEncoder); ("rnn", RNNEncoder);
    ("cnn", CNNEncoder) ]%string.

(** [d[k]] for a key of the dictionary [d]. *)
Fixpoint dict_get {V} (d : list (string * V)) (k : string) : option V :=
  match d with
  | [] => None
  | (k', v) :: d' => if decide (k = k') then Some v else dict_get d' k
  end.

(** [load(encoder_type)] *)
Definition load (encoder_type : string) : outcome encoder_class :=
  match dict_get ENCODERS encoder_type with
  | None => Throw TypeError
  | Some c => Return c
  end.

(** The arguments of [AttentionSeq2seq.__init__] its settings depend on;
    the other arguments are handed to the constructors of the layers. *)
Module Args.
Record t := {
  encoder_type : string;
  encoder_bidirectional : bool;
  encoder_num_units : Z;
  decoder_type : string;
  decoder_num_units : Z;
  num_classes : Z;
  bridge_layer : bool;
  init_dec_state : string;
  coverage_weight : Q;
  ctc_loss_weight : Q;
  num_stack : Z;
  splice : Z;
  scheduled_sampling_prob : PrimFloat.float;
  scheduled_sampling_max_step : PrimFloat.float;
  weight_noise_std : Q;
  decoding_order : string;
  backward_loss_weight : Q
}.
End Args.

(** The attributes of the model the constructor computes; [directions] is
    its local list: the layers [attend_0_<dir>], [decoder_0_<dir>],
    [W_d_0_<dir>], [W_c_0_<dir>] and [fc_0_<dir>] are built for the
    directions of the list.  An attribute that is not set is [None]. *)
Module Model.
Record t := {
  model_type : string;
  encoder_type : string;
  encoder_num_units : Z;
  decoder_type : string;
  num_classes : Z;
  sos_0 : Z;
  eos_0 : Z;
  decoding_order : string;
  fwd_weight_0 : Q;
  bwd_weight_0 : Q;
  init_dec_state_0_fwd : string;
  init_dec_state_0_bwd : string;
  init_dec_state_0 : option string;
  coverage_weight : Q;
  weight_noise_injection : bool;
  weight_noise_std : Q;
  ss_prob : PrimFloat.float;
  _ss_prob : PrimFloat.float;
  ss_max_step : PrimFloat.float;
  _step : Z;
  ctc_loss_weight : Q;
  encoder : encoder_class;
  is_bridge : bool;
  directions : list direction;
  _decode_ctc_beam_np : option BeamSearchDecoder
}.

(** [self._step = n] and [self._ss_prob = p] *)
Definition set_step (self : t) (n : Z) : t :=
  {| model_type := model_type self; encoder_type := encoder_type self;
     encoder_num_units := encoder_num_units self;
     decoder_type := decoder_type self; num_classes := num_classes self;
     sos_0 := sos_0 self; eos_0 := eos_0 self;
     decoding_order := decoding_order self;
     fwd_weight_0 := fwd_weight_0 self; bwd_weight_0 := bwd_weight_0 self;
     init_dec_state_0_fwd := init_dec_state_0_fwd self;
     init_dec_state_0_bwd := init_dec_state_0_bwd self;
     init_dec_state_0 := init_dec_state_0 self;
     coverage_weight := coverage_weight self;
     weight_noise_injection := weight_noise_injection self;
     weight_noise_std := weight_noise_std self;
     ss_prob := ss_prob self; _ss_prob := _ss_prob self;
     ss_max_step := ss_max_step self; _step := n;
     ctc_loss_weight := ctc_loss_weight self; encoder := encoder self;
     is_bridge := is_bridge self; directions := directions self;
     _decode_ctc_beam_np := _decode_ctc_beam_np self |}.

Definition set_ss_prob (self : t) (p : PrimFloat.float) : t :=
  {| model_type := model_type self; encoder_type := encoder_type self;
     encoder_num_units := encoder_num_units self;
     decoder_type := decoder_type self; num_classes := num_classes self;
     sos_0 := sos_0 self; eos_0 := eos_0 self;
     decoding_order := decoding_order self;
     fwd_weight_0 := fwd_weight_0 self; bwd_weight_0 := bwd_weight_0 self;
     init_dec_state_0_fwd := init_dec_state_0_fwd self;
     init_dec_state_0_bwd := init_dec_state_0_bwd self;
     init_dec_state_0 := init_dec_state_0 self;
     coverage_weight := coverage_weight self;
     weight_noise_injection := weight_noise_injection self;
     weight_noise_std := weight_noise_std self;
     ss_prob := ss_prob self; _ss_prob := p;
     ss_max_step := ss_max_step self; _step := _step self;
     ctc_loss_weight := ctc_loss_weight self; encoder := encoder self;
     is_bridge := is_bridge self; directions := directions self;
     _decode_ctc_beam_np := _decode_ctc_beam_np self |}.
End Model.

(** The settings part of [__init__]: the checks, in the order of the
    source, and the attributes.  Every check comes before the first layer
    is built. *)
Definition settings (a : Args.t) : outcome Model.t :=
  let encoder_num_units :=
    if Args.encoder_bidirectional a then (Args.encoder_num_units a * 2)%Z
    else Args.encoder_num_units a in
  let w := Args.backward_loss_weight a in
  if negb (Qle_bool 0 w && Qle_bool w 1) then Throw (Of AssertionError)
  else
  let init := Args.init_dec_state a in
  if negb (bool_decide
             (init ∈ ["zero"; "mean"; "final"; "first"]%string))
  then Throw ValueError
  else
  let init_fwd := init in
  let init_bwd :=
    if Qltb 0 w then
      if decide (init = "first"%string) then "final"%string
      else if decide (init = "final"%string) then "first"%string
      else init
    else init in
  let '(init_fwd, init_bwd) :=
    if decide (Args.encoder_type a ≠ Args.decoder_type a)
    then ("zero"%string, "zero"%string) else (init_fwd, init_bwd) in
  if PrimFloat.ltb PrimFloat.zero (Args.scheduled_sampling_prob a)
     && PrimFloat.eqb (Args.scheduled_sampling_max_step a) PrimFloat.zero
  then Throw ValueError
  else
  '(enc, init_0) ←
    (if bool_decide
          (Args.encoder_type a ∈ ["lstm"; "gru"; "rnn"]%string)
     then c ← load (Args.encoder_type a); Return (c, None)
     else if decide (Args.encoder_type a = "cnn"%string)
     then
       if negb ((Args.num_stack a =? 1)%Z && (Args.splice a =? 1)%Z)
       then Throw (Of AssertionError)
       else c ← load "cnn"%string; Return (c, Some "zero"%string)
     else Throw (Of NotImplementedError));
  let bridged :=
    bool_decide (Args.encoder_type a = "cnn"%string)
    || Args.bridge_layer a in
  let fwd_weight := (1 - w)%Q in
  let bwd_weight := w in
  Return
    {| Model.model_type := "attention"%string;
       Model.encoder_type := Args.encoder_type a;
       Model.encoder_num_units :=
         if bridged then Args.decoder_num_units a else encoder_num_units;
       Model.decoder_type := Args.decoder_type a;
       Model.num_classes := (Args.num_classes a + 1)%Z;
       Model.sos_0 := Args.num_classes a;
       Model.eos_0 := Args.num_classes a;
       Model.decoding_order := Args.decoding_order a;
       Model.fwd_weight_0 := fwd_weight;
       Model.bwd_weight_0 := bwd_weight;
       Model.init_dec_state_0_fwd := init_fwd;
       Model.init_dec_state_0_bwd := init_bwd;
       Model.init_dec_state_0 := init_0;
       Model.coverage_weight := Args.coverage_weight a;
       Model.weight_noise_injection := false;
       Model.weight_noise_std := Args.weight_noise_std a;
       Model.ss_prob := Args.scheduled_sampling_prob a;
       Model._ss_prob := Args.scheduled_sampling_prob a;
       Model.ss_max_step := Args.scheduled_sampling_max_step a;
       Model._step := 0;
       Model.ctc_loss_weight := Args.ctc_loss_weight a;
       Model.encoder := enc;
       Model.is_bridge := bridged;
       Model.directions :=
         (if Qltb 0 fwd_weight then [fwd] else [])
         ++ (if Qltb 0 bwd_weight then [bwd] else []);
       Model._decode_ctc_beam_np :=
         if Qltb 0 (Args.ctc_loss_weight a)
         then Some (BeamSearchDecoder_init 0 None) else None |}.

(** The layers, their parameters and the random state of a model, and
    the tensor code that works on them, which this development does not
    unfold. *)
Class Network := {
  layers_t : Type; batch_t : Type; encoded_t : Type; labels_t : Type;
  loss_t : Type;
  (** the constructors of the layers and the initialisation of their
      parameters, in [__init__] *)
  build_layers : Args.t → Model.t → outcome layers_t;
  (** [self.train()] and [self.eval()] *)
  set_training : bool → layers_t → layers_t;
  (** [inject_weight_noise(mean=0, std=std)] *)
  inject_weight_noise : Q → layers_t → layers_t;
  (** [np2tensor] and [_encode(xs, x_lens)] in [_forward]:
      [(xs, x_lens, perm_idx)] *)
  encode_batch : Model.t → layers_t → batch_t → outcome encoded_t;
  (** the labels of a direction in [_forward]: [ys_in], [ys_out] and
      [y_lens], permuted *)
  prepare_labels :
    Model.t → direction → encoded_t → batch_t → outcome labels_t;
  (** [compute_xe_loss] up to its coverage term: teacher forcing
      ([_decode_train]), the temperature, the cross entropy and the label
      smoothing *)
  xe_loss :
    Model.t → direction → layers_t → encoded_t → labels_t →
    outcome (loss_t * layers_t);
  (** the labels of the CTC loss and [compute_ctc_loss(xs, ys_ctc + 1,
      x_lens, y_lens_ctc)] *)
  ctc_loss : Model.t → layers_t → encoded_t → batch_t → outcome loss_t;
  (** [_create_tensor((1,), fill_value=0, dtype=torch.float)] *)
  loss_zero : loss_t;
  (** [loss * weight] and [loss + loss'] *)
  loss_scale : loss_t → Q → loss_t;
  loss_add : loss_t → loss_t → loss_t;
  (** [loss.item()] *)
  loss_item : loss_t → loss_t
}.

Section training.
Context `{Network}.

(** [AttentionSeq2seq.__init__] *)
Definition AttentionSeq2seq_init (a : Args.t)
    : outcome (Model.t * layers_t) :=
  self ← settings a;
  layers ← build_layers a self;
  Return (self, layers).

(** The direction [decode] selects:
    ['fwd' if self.fwd_weight_0 >= self.bwd_weight_0 else 'bwd']. *)
Definition decode_dir (self : Model.t) : direction :=
  if Qle_bool (Model.bwd_weight_0 self) (Model.fwd_weight_0 self)
  then fwd else bwd.

(** [min(a, b)] on floats *)
Definition py_min (a b : PrimFloat.float) : PrimFloat.float :=
  if PrimFloat.ltb b a then b else a.

(** The float an integer is converted to in [float * int]: the nearest
    one, ties to even.  (Python raises OverflowError where the nearest
    float is infinite, from [2 ** 1024] on, which is not modelled.) *)
Definition float_of_int (z : Z) : PrimFloat.float :=
  FloatOps.SF2Prim
    (SpecFloat.binary_normalize FloatOps.prec FloatOps.emax z 0 false).

(** [compute_xe_loss]: the coverage term is not implemented. *)
Definition compute_xe_loss (self : Model.t) (layers : layers_t)
    (enc_out : encoded_t) (labels : labels_t) (dir : direction)
    : outcome (loss_t * layers_t) :=
  '(loss, layers) ← xe_loss self dir layers enc_out labels;
  if negb (Qeq_bool (Model.coverage_weight self) 0)
  then Throw (Of NotImplementedError)
  else Return (loss, layers).

(** [_forward]: the loss of the forward decoder, of the backward decoder
    and of the CTC layer, each under a positive weight. *)
Definition _forward (self : Model.t) (layers : layers_t) (batch : batch_t)
    : outcome (loss_t * layers_t) :=
  enc ← encode_batch self layers batch;
  '(loss, layers) ←
    (if Qltb 0 (Model.fwd_weight_0 self) then
       labels ← prepare_labels self fwd enc batch;
       '(loss, layers) ← compute_xe_loss self layers enc labels fwd;
       Return (loss_scale loss (Model.fwd_weight_0 self), layers)
     else Return (loss_zero, layers));
  '(loss, layers) ←
    (if Qltb 0 (Model.bwd_weight_0 self) then
       labels ← prepare_labels self bwd enc batch;
       '(loss', layers) ← compute_xe_loss self layers enc labels bwd;
       Return (loss_add loss (loss_scale loss' (Model.bwd_weight_0 self)),
               layers)
     else Return (loss, layers));
  loss ←
    (if Qltb 0 (Model.ctc_loss_weight self) then
       loss' ← ctc_loss self layers enc batch;
       Return (loss_add loss (loss_scale loss' (Model.ctc_loss_weight self)))
     else Return loss);
  Return (loss, layers).

(** [forward]; the result is the loss and the model after the call. *)
Definition forward (self : Model.t) (layers : layers_t) (batch : batch_t)
    (is_eval : bool) : outcome (loss_t * Model.t * layers_t) :=
  if is_eval then
    let layers := set_training false layers in
    '(loss, layers) ← _forward self layers batch;
    Return (loss_item loss, self, layers)
  else
    let layers := set_training true layers in
    let layers :=
      if Model.weight_noise_injection self
      then inject_weight_noise (Model.weight_noise_std self) layers
      else layers in
    '(loss, layers) ← _forward self layers batch;
    let self := Model.set_step self (Model._step self + 1) in
    self ←
      (if PrimFloat.ltb PrimFloat.zero (Model.ss_prob self) then
         if PrimFloat.eqb (Model.ss_max_step self) PrimFloat.zero
         then Throw ZeroDivisionError
         else Return
                (Model.set_ss_prob self
                   (py_min (Model.ss_prob self)
                           (PrimFloat.mul
                              (PrimFloat.div (Model.ss_prob self)
                                             (Model.ss_max_step self))
                              (float_of_int (Model._step self)))))
       else Return self);
    Return (loss, self, layers).

(** Training steps on the batches [batches], one call of [forward] each. *)
Fixpoint train (self : Model.t) (layers : layers_t)
    (batches : list batch_t) : outcome (Model.t * layers_t) :=
  match batches with
  | [] => Return (self, layers)
  | batch :: batches' =>
      '(_, self, layers) ← forward self layers batch false;
      train self layers batches'
  end.
End training.

(** A network without layers, whose losses are numbers and whose state
    counts the teacher-forced passes. *)
#[global] Instance counting_network : Network := {|
  layers_t := nat;
  batch_t := unit;
  encoded_t := unit;
  labels_t := unit;
  loss_t := Q;
  build_layers := fun _ _ => Return O;
  set_training := fun _ l => l;
  inject_weight_noise := fun _ l => l;
  encode_batch := fun _ _ _ => Return tt;
  prepare_labels := fun _ _ _ _ => Return tt;
  xe_loss := fun _ _ l _ _ => Return (1%Q, S l);
  ctc_loss := fun _ _ _ _ => Return 1%Q;
  loss_zero := 0%Q;
  loss_scale := Qmult;
  loss_add := Qplus;
  loss_item := fun loss => loss
|}.

(* ===================================================================== *)
(** * The hypothesis strings of the metrics (wer.py, character.py) *)
(* ===================================================================== *)

#[global] Instance ascii_eq_dec : EqDecision ascii := ascii_dec.

(** The characters the metrics look for: END, the space of the
    transcripts, the apostrophe, the noise mark and the line feed (which
    [.] does not match in a pattern). *)
Definition chr_end : ascii := Eval cbv in ascii_of_nat 62.
Definition chr_space : ascii := Eval cbv in ascii_of_nat 95.
Definition chr_apostrophe : ascii := Eval cbv in ascii_of_nat 39.
Definition chr_noise : ascii := Eval cbv in ascii_of_nat 64.
Definition newline : ascii := Eval cbv in ascii_of_nat 10.

(** A Python [str]: the list of its characters. *)
Abbreviation str := (list ascii).

(** [s.split(sep)] for a separator of one character: the pieces between
    the separators, at least one piece. *)
Fixpoint str_split (sep : ascii) (s : str) : list str :=
  match s with
  | [] => [[]]
  | c :: s' =>
      if decide (c = sep) then [] :: str_split sep s'
      else match str_split sep s' with
           | piece :: pieces => (c :: piece) :: pieces
           | [] => [[c]]
           end
  end.

(** [sep.join(pieces)] *)
Fixpoint str_join (sep : ascii) (pieces : list str) : str :=
  match pieces with
  | [] => []
  | [piece] => piece
  | piece :: pieces' => piece ++ sep :: str_join sep pieces'
  end.

(** [re.sub(r'[cs]+', '', s)]: every run of characters of [cs] is
    removed. *)
Definition remove_chars (cs : list ascii) (s : str) : str :=
  filter (fun c => c ∉ cs) s.

(** [re.sub(r'[c]+', 'c', s)]: every run of [c] becomes one [c]. *)
Fixpoint squeeze (c : ascii) (s : str) : str :=
  match s with
  | x :: (y :: _) as s' =>
      if decide (x = c ∧ y = c) then squeeze c s' else x :: squeeze c s'
  | _ => s
  end.

(** The first group of the pattern of [sub_group1] in a line that has a
    [sep]: the text before the last [sep] of the line, the group being
    greedy. *)
Fixpoint before_last (sep : ascii) (line : str) : option str :=
  match line with
  | [] => None
  | c :: line' =>
      match before_last sep line' with
      | Some group => Some (c :: group)
      | None => if decide (c = sep) then Some [] else None
      end
  end.

(** [re.sub(pattern, r'\1', s)] for the pattern of character.py: a
    group of any characters, [>], and a second such group.  A match does
    not cross a line feed, and covers a whole line that has a [>]. *)
Definition sub_group1 (s : str) : str :=
  str_join newline
    ((fun line => default line (before_last chr_end line))
     <$> str_split newline s).

(** wer.py: the words of the hypothesis [str_hyp] that are scored. *)
Definition wer_hyp_words (attention : bool) (str_hyp : str) : list str :=
  let str_hyp :=
    if attention then
      let str_hyp :=
        match str_split chr_end str_hyp with
        | piece :: _ => piece
        | [] => []
        end in
      if (0 <? length str_hyp)
         && bool_decide (list.last str_hyp = Some chr_space)
      then take (length str_hyp - 1) str_hyp
      else str_hyp
    else str_hyp in
  let str_hyp := remove_chars [chr_apostrophe; chr_end] str_hyp in
  str_split chr_space str_hyp.

(** character.py: the text of the hypothesis [str_hyp] that is scored,
    its words and its characters. *)
Definition char_hyp_text (str_hyp : str) : str :=
  let str_hyp := sub_group1 str_hyp in
  let str_hyp := remove_chars [chr_noise; chr_end] str_hyp in
  squeeze chr_space str_hyp.

Definition char_hyp_words (str_hyp : str) : list str :=
  str_split chr_space (char_hyp_text str_hyp).

Definition char_hyp_chars (str_hyp : str) : str :=
  remove_chars [chr_space] (char_hyp_text str_hyp).

(* ===================================================================== *)
(** * Predicates of the statements, and concrete inputs *)
(* ===================================================================== *)

(** No element of [l] has a key above the key of the head. *)
Definition head_max {A K} (lt : K → K → bool) (key : A → K) (l : list A)
  : Prop :=
  ∀ x y, head l = Some x → y ∈ l → lt (key x) (key y) = false.

(** No label of [p] is the blank. *)
Definition no_blank (blank : Z) (p : prefix) : Prop :=
  Forall (fun c => Z.of_nat c ≠ blank) p.

Section ctc_predicates.
Context {R : Type} `{LogScore R}.
Implicit Types (nb : list (@entry R)) (v : R * R).

Definition prefixes_no_blank (blank : Z) (l : list (@entry R)) : Prop :=
  ∀ e, e ∈ l → no_blank blank e.1.

(** [next_beam] holds each prefix once. *)
Definition nb_wf nb : Prop := NoDup nb.*1.



(** The beam width is enough for the candidates of every time step of the
    utterance [b] but the last: only the trim after the last frame can
    remove an entry. *)
Definition untrimmed_before_last (blank : Z) (log_probs : ndarray3 R)
    (b : nat) (beam_width time : Z) : Prop :=
  ∀ t beam nb,
    S t < Z.to_nat time →
    foldlM (time_step blank log_probs b beam_width) (seq 0 t) init_beam
      = Ok beam →
    candidates blank log_probs b t beam = Ok nb →
    (Z.of_nat (length nb) ≤ beam_width)%Z.
End ctc_predicates.

Section attention_predicates.
Context `{Layers}.
Implicit Types (h c : hypothesis).







(** A candidate extends its parent by one symbol and one attention
    weight. *)
Definition child_of (h c : hypothesis) : Prop :=
  ∃ idx aw_step, hyp c = hyp h ++ [idx] ∧
                 aw_steps c = aw_steps h ++ [aw_step].

(** The sequence of [h] starts with [sos] and [h] has one attention
    weight per symbol. *)
Definition started (sos : nat) h : Prop :=
  (∃ t, hyp h = sos :: t) ∧ length (aw_steps h) = length (hyp h).

(** [h] has emitted a symbol, and the last one is [eos]. *)
Definition ended (eos : nat) h : Prop :=
  list.last (hyp h) = Some eos ∧ 2 ≤ length (hyp h).
End attention_predicates.

Section attention_symbols.
Context `{Layers}.
Implicit Types (h : hypothesis).

(** After [sos], [h] has at most [n] symbols and none is [eos]. *)
Definition open_hyp (sos eos n : nat) h : Prop :=
  ∃ t, hyp h = sos :: t ∧ length t ≤ n ∧ eos ∉ t.

(** After [sos], [h] has at most [n] symbols, the last one is [eos] and
    no other is. *)
Definition done_hyp (sos eos n : nat) h : Prop :=
  ∃ t, hyp h = sos :: t ++ [eos] ∧ S (length t) ≤ n ∧ eos ∉ t.
End attention_symbols.

Section training_predicates.
Context `{Network}.

(** The tensor code of the network raises nothing. *)
Definition network_returns : Prop :=
  (∀ self layers batch, ∃ enc, encode_batch self layers batch = Return enc) ∧
  (∀ self dir enc batch, ∃ labels,
     prepare_labels self dir enc batch = Return labels) ∧
  (∀ self dir layers enc labels, ∃ r,
     xe_loss self dir layers enc labels = Return r) ∧
  (∀ self layers enc batch, ∃ loss,
     ctc_loss self layers enc batch = Return loss).
End training_predicates.

(** [ys] has at most [n] symbols, and [eos] at its last position only. *)
Definition ends_once (eos n : nat) (ys : list nat) : Prop :=
  length ys ≤ n ∧ ∀ i, ys !! i = Some eos → S i = length ys.

(** Two classes (blank [0], label [1]) and three frames that favour
    label, blank, label: weights [[1; 9]; [9; 1]; [1; 9]]. *)
Definition frames_aba : ndarray3 N :=
  of_lists 0%N 1 3 2 [[[1; 9]; [9; 1]; [1; 9]]]%N.

(** Three classes (blank [0]) and three frames. *)
Definition frames_wide : ndarray3 N :=
  of_lists 0%N 1 3 3 [[[3; 5; 2]; [2; 6; 2]; [3; 1; 6]]]%N.

(** START is [0], END is [2]. *)
Definition scripted_model (o : dec_order) (w : Q) : AttentionSeq2seq :=
  {| decoding_order := o; backward_loss_weight := w; sos_0 := 0; eos_0 := 2 |}.

(** At every step END has the log-probability [-0.1] and the symbol [1]
    the log-probability [-3]. *)
Definition script : @enc_t scripted :=
  [ [(2, (-(1#10))%Q); (1, (-(3#1))%Q)];
    [(2, (-(1#10))%Q); (1, (-(3#1))%Q)];
    [(2, (-(1#10))%Q); (1, (-(3#1))%Q)] ].







(** What the arrays [y_lens] and [eos_flag] hold for the columns [cols]:
    for every utterance the number of symbols before its first [eos], and
    whether it has emitted [eos]. *)
Definition lengths_counted (eos B : nat) (cols : list (nat → nat))
    (y_lens : nat → nat) (eos_flag : nat → bool) : Prop :=
  ∀ b row, rows B cols !! b = Some row →
    y_lens b = length (before_eos eos row) ∧
    eos_flag b = negb (length (before_eos eos row) =? length row).

(** [p] has at most [n] labels, each a class below [C] other than the
    blank. *)
Definition labels_within (blank : Z) (C n : nat) (p : prefix) : Prop :=
  length p ≤ n ∧ Forall (fun c => c < C ∧ Z.of_nat c ≠ blank) p.

(** The weight a list of entries holds: the sum of both weights of every
    entry. *)
Fixpoint mass (l : list (@entry N)) : N :=
  match l with
  | [] => 0
  | e :: l' => e.2.1 + e.2.2 + mass l'
  end%N.

(** The weight of the frame [t] of the utterance [b]: the sum over the
    classes. *)
Definition frame_mass (log_probs : ndarray3 N) (b t : nat) : N :=
  foldr N.add 0%N (item log_probs b t <$> seq 0 (shape log_probs).2).

(** The symbol [1] is the likely one at the first step, END afterwards. *)
Definition script_late : @enc_t scripted :=
  [ [(1, (-(1#10))%Q); (2, (-(3#1))%Q)];
    [(2, (-(1#10))%Q); (1, (-(3#1))%Q)];
    [(2, (-(1#10))%Q); (1, (-(3#1))%Q)] ].

(** ** Frame-level paths and what they collapse to *)

(** [sum_N f l]: the sum of [f x] over the elements [x] of [l]. *)
Definition sum_N {A} (f : A → N) (l : list A) : N :=
  foldr (fun x s => (f x + s)%N) 0%N l.

(** Adjacent repetitions of a class merged into one. *)
Fixpoint merge_repeats (path : list nat) : list nat :=
  match path with
  | c :: (c' :: _) as path' =>
      if decide (c = c') then merge_repeats path'
      else c :: merge_repeats path'
  | _ => path
  end.

(** The label sequence of a path, one class per frame: repetitions are
    merged, then the blanks are removed. *)
Definition ctc_collapse (blank : Z) (path : list nat) : prefix :=
  filter (fun c => Z.of_nat c ≠ blank) (merge_repeats path).

(** All paths over [t] frames and [C] classes. *)
Fixpoint paths (C t : nat) : list (list nat) :=
  match t with
  | O => [[]]
  | S t' => path ← paths C t'; (fun c => path ++ [c]) <$> seq 0 C
  end.

(** The weight of a path of the utterance [b]: the product of the weights
    of its classes, frame by frame from the frame [t0] on. *)
Fixpoint path_weight (log_probs : ndarray3 N) (b t0 : nat)
    (path : list nat) : N :=
  match path with
  | [] => 1
  | c :: path' =>
      item log_probs b t0 c * path_weight log_probs b (S t0) path'
  end%N.

(** The weight of the label sequence [p] over [t] frames: the sum of the
    weights of the paths that collapse to [p]. *)
Definition collapse_mass (blank : Z) (log_probs : ndarray3 N) (b t : nat)
    (p : prefix) : N :=
  sum_N (fun path => if decide (ctc_collapse blank path = p)
                     then path_weight log_probs b 0 path else 0%N)
        (paths (shape log_probs).2 t).

(** A path read frame by frame: the label sequence so far, and whether
    the path ends in the blank (or is empty). *)
Definition ctc_step (blank : Z) (s : prefix * bool) (c : nat)
    : prefix * bool :=
  if decide (Z.of_nat c = blank) then (s.1, true)
  else if bool_decide (prefix_end s.1 = Some c) && negb s.2
       then (s.1, false)
       else (s.1 ++ [c], false).

Definition ctc_state (blank : Z) (path : list nat) : prefix * bool :=
  foldl (ctc_step blank) ([], true) path.

(** The weight of the paths over [t] frames that are in the state [s]. *)
Definition state_mass (blank : Z) (log_probs : ndarray3 N) (b t : nat)
    (s : prefix * bool) : N :=
  sum_N (fun path => if decide (ctc_state blank path = s)
                     then path_weight log_probs b 0 path else 0%N)
        (paths (shape log_probs).2 t).

(** The weight a dictionary of entries holds for a state: p_blank for
    the paths that end in the blank, p_no_blank for the others. *)
Definition state_get (nb : list (@entry N)) (s : prefix * bool) : N :=
  if s.2 then (nb_get nb s.1).1 else (nb_get nb s.1).2.

(** What the proposal of the class [c] with the weight [w] for the entry
    [e] adds to the weight of the state [s]. *)
Definition proposed (blank : Z) (c : nat) (w : N) (e : @entry N)
    (s : prefix * bool) : N :=
  ((if decide (ctc_step blank (e.1, true) c = s) then e.2.1 * w else 0)
   + (if decide (ctc_step blank (e.1, false) c = s) then e.2.2 * w else 0))%N.

(** The beam is wide enough for the candidates of every time step of
    the utterance [b]: the trim removes no entry. *)
Definition never_trimmed (blank : Z) (log_probs : ndarray3 N) (b : nat)
    (beam_width time : Z) : Prop :=
  ∀ t beam nb,
    t < Z.to_nat time →
    foldlM (time_step blank log_probs b beam_width) (seq 0 t) init_beam
      = Ok beam →
    candidates blank log_probs b t beam = Ok nb →
    (Z.of_nat (length nb) ≤ beam_width)%Z.

(** The beam after the three frames of [frames_wide] for the beam width
    [2], and its second entry. *)
Definition entry_1 : @entry N := ([1], (174%N, 48%N)).
Definition beam_wide_2 : list (@entry N) :=
  [([1; 2], (30%N, 408%N)); entry_1].

(** The label sequence decoded from [frames_wide]. *)
Definition labels_12 : prefix := [1; 2].

(** A beam of two entries over the classes of [frames_wide], and the
    candidates of the second frame for it. *)
Definition beam_one : list (@entry N) :=
  [([1], (0%N, 5%N)); ([], (3%N, 0%N))].

Definition candidates_one : list (@entry N) :=
  [([1], (10%N, 48%N)); ([], (6%N, 0%N)); ([1; 1], (0%N, 0%N));
   ([1; 2], (0%N, 10%N)); ([2], (0%N, 6%N))].

(** Arguments of the constructor: an LSTM encoder and decoder, ten
    classes, the backward weight [3/4], scheduled sampling up to [1/2]
    over four steps. *)
Definition args_lstm : Args.t :=
  {| Args.encoder_type := "lstm"%string;
     Args.encoder_bidirectional := true;
     Args.encoder_num_units := 320;
     Args.decoder_type := "lstm"%string;
     Args.decoder_num_units := 320;
     Args.num_classes := 10;
     Args.bridge_layer := false;
     Args.init_dec_state := "first"%string;
     Args.coverage_weight := 0;
     Args.ctc_loss_weight := 0;
     Args.num_stack := 1;
     Args.splice := 1;
     Args.scheduled_sampling_prob := PrimFloat.div PrimFloat.one PrimFloat.two;
     Args.scheduled_sampling_max_step := float_of_int 4;
     Args.weight_noise_std := 0;
     Args.decoding_order := "attend_generate_update"%string;
     Args.backward_loss_weight := 3 # 4 |}.

(** The same arguments with scheduled sampling up to [0.05] over 19
    steps. *)
Definition args_slow_ramp : Args.t :=
  {| Args.encoder_type := "lstm"%string;
     Args.encoder_bidirectional := true;
     Args.encoder_num_units := 320;
     Args.decoder_type := "lstm"%string;
     Args.decoder_num_units := 320;
     Args.num_classes := 10;
     Args.bridge_layer := false;
     Args.init_dec_state := "first"%string;
     Args.coverage_weight := 0;
     Args.ctc_loss_weight := 0;
     Args.num_stack := 1;
     Args.splice := 1;
     Args.scheduled_sampling_prob :=
       PrimFloat.div (float_of_int 5) (float_of_int 100);
     Args.scheduled_sampling_max_step := float_of_int 19;
     Args.weight_noise_std := 0;
     Args.decoding_order := "attend_generate_update"%string;
     Args.backward_loss_weight := 3 # 4 |}.

(** The same arguments with a coverage weight. *)
Definition args_coverage : Args.t :=
  {| Args.encoder_type := "lstm"%string;
     Args.encoder_bidirectional := true;
     Args.encoder_num_units := 320;
     Args.decoder_type := "lstm"%string;
     Args.decoder_num_units := 320;
     Args.num_classes := 10;
     Args.bridge_layer := false;
     Args.init_dec_state := "first"%string;
     Args.coverage_weight := 1 # 10;
     Args.ctc_loss_weight := 0;
     Args.num_stack := 1;
     Args.splice := 1;
     Args.scheduled_sampling_prob := PrimFloat.div PrimFloat.one PrimFloat.two;
     Args.scheduled_sampling_max_step := float_of_int 4;
     Args.weight_noise_std := 0;
     Args.decoding_order := "attend_generate_update"%string;
     Args.backward_loss_weight := 3 # 4 |}.

(** Hypothesis strings; [>] stands for END and [_] for the space. *)
Definition text_ab_c : str := list_ascii_of_string "ab_c_".
Definition text_d_e : str := list_ascii_of_string "d>e".
Definition text_ab : str := list_ascii_of_string "a__b".
Definition text_cd : str := list_ascii_of_string "c@d".
Definition text_ef : str := list_ascii_of_string "ef".

(** Two utterances, END being [2]: the first emits [1; 3; 2], the second
    END at once; both emit END at the third step. *)
Definition batch_script : @benc_t scripted_batch := [[1; 3; 2]; [2; 2; 2]].

(* ===================================================================== *)
(** * Facts on the exception monad and the prelude *)
(* ===================================================================== *)

Lemma bind_Ok {A B} (m : result A) (f : A → result B) (b : B) :
  (m ≫= f) = Ok b → ∃ a, m = Ok a ∧ f a = Ok b.
Proof. destruct m as [a|e]; [eauto | discriminate]. Qed.

Lemma bind_ret_r {A} (m : result A) : (a ← m; Ok a) = m.
Proof. by destruct m. Qed.

Lemma getitem_Ok {A} (l : list A) (i : nat) (x : A) :
  getitem l i = Ok x ↔ l !! i = Some x.
Proof.
  unfold getitem. destruct (l !! i); split; intros E; congruence.
Qed.

Lemma foldlM_app {A B} (f : A → B → result A) (l1 l2 : list B) (a : A) :
  foldlM f (l1 ++ l2) a = a' ← foldlM f l1 a; foldlM f l2 a'.
Proof.
  revert a. induction l1 as [|x l1 IH]; intros a; simpl; [done|].
  destruct (f a x) as [a1|e]; simpl; [apply IH | done].
Qed.

(** An invariant of a loop that may raise holds when it ends normally. *)
Lemma foldlM_invariant {A B} (P : A → Prop) (f : A → B → result A)
    (l : list B) (a a' : A) :
  (∀ a x a', P a → f a x = Ok a' → P a') →
  P a → foldlM f l a = Ok a' → P a'.
Proof.
  intros Hf. revert a. induction l as [|x l IH]; simpl; intros a Ha E.
  - congruence.
  - apply bind_Ok in E as (a1 & E1 & E2). eauto.
Qed.

Lemma forM_Ok_Forall {A B} (P : B → Prop) (f : A → result B)
    (l : list A) (out : list B) :
  (∀ x y, f x = Ok y → P y) → forM f l = Ok out → Forall P out.
Proof.
  intros Hf. revert out. induction l as [|x l IH]; simpl; intros out E.
  - injection E as <-. constructor.
  - apply bind_Ok in E as (y & Ey & E).
    apply bind_Ok in E as (ys & Eys & E). injection E as <-.
    constructor; eauto.
Qed.

Lemma slice_to_subseteq {A} (n : Z) (l : list A) : slice_to n l ⊆ l.
Proof.
  unfold slice_to. destruct (0 <=? n)%Z; apply sublist_subseteq, sublist_take.
Qed.

Lemma slice_to_all {A} (w : Z) (l : list A) :
  (Z.of_nat (length l) ≤ w)%Z → slice_to w l = l.
Proof.
  intros Hw. unfold slice_to.
  destruct (Z.leb_spec 0 w); [|lia]. apply take_ge. lia.
Qed.

Lemma slice_to_head {A} (n : Z) (l : list A) :
  (1 ≤ n)%Z → head (slice_to n l) = head l.
Proof.
  intros Hn. unfold slice_to.
  destruct (Z.leb_spec 0 n) as [_|?]; [|lia].
  destruct (Z.to_nat n) as [|k] eqn:E; [lia|]. by destruct l.
Qed.

(** ** The stable descending sort *)
Section sorted_facts.
Context {A K : Type} (lt : K → K → bool) (key : A → K).

Lemma insert_desc_Permutation (x : A) (l : list A) :
  insert_desc lt key x l ≡ₚ x :: l.
Proof.
  induction l as [|y l IH]; simpl; [done|].
  destruct (lt (key x) (key y)); [|done].
  rewrite IH. apply Permutation_swap.
Qed.

Lemma sorted_desc_Permutation (l : list A) : sorted_desc lt key l ≡ₚ l.
Proof.
  induction l as [|x l IH]; simpl; [done|].
  by rewrite insert_desc_Permutation, IH.
Qed.

Lemma sorted_desc_elem_of (x : A) (l : list A) :
  x ∈ sorted_desc lt key l ↔ x ∈ l.
Proof. by rewrite sorted_desc_Permutation. Qed.

(** [<] on the keys is a strict weak order, as [<] on floats other than
    NaN is. *)
Hypothesis lt_asym : ∀ a b, lt a b = true → lt b a = false.
Hypothesis lt_negtrans :
  ∀ a b c, lt a b = false → lt b c = false → lt a c = false.

Lemma head_max_insert (x : A) (l : list A) :
  head_max lt key l → head_max lt key (insert_desc lt key x l).
Proof.
  intros Hl. destruct l as [|y l]; simpl.
  - intros ? ? [= <-] ->%list_elem_of_singleton.
    destruct (lt (key x) (key x)) eqn:E; [|done].
    by rewrite (lt_asym _ _ E) in E.
  - destruct (lt (key x) (key y)) eqn:E.
    + intros ? z [= <-] Hz.
      apply elem_of_cons in Hz as [->|Hz]; [by apply (Hl y y); [|left]|].
      rewrite insert_desc_Permutation in Hz.
      apply elem_of_cons in Hz as [->|Hz].
      * by apply lt_asym.
      * apply (Hl y z); [done | by right].
    + intros ? z [= <-] Hz.
      apply elem_of_cons in Hz as [Hz|Hz].
      * subst z. destruct (lt (key x) (key x)) eqn:E'; [|done].
        by rewrite (lt_asym _ _ E') in E'.
      * apply (lt_negtrans _ (key y)); [done|]. by apply (Hl y z).
Qed.

Lemma sorted_desc_head_max (l : list A) :
  head_max lt key (sorted_desc lt key l).
Proof.
  induction l as [|x l IH]; simpl.
  - intros ? ? [=].
  - by apply head_max_insert.
Qed.
End sorted_facts.

(* ===================================================================== *)
(** * The CTC prefix beam search decoder *)
(* ===================================================================== *)

Section ctc_facts.
Context {R : Type} `{LogScore R}.
Implicit Types (nb : list (@entry R)) (k : prefix) (v : R * R).

(** ** The dictionary [next_beam] *)

Lemma nb_find_app nb nb' k :
  nb_find (nb ++ nb') k =
  match nb_find nb k with Some v => Some v | None => nb_find nb' k end.
Proof.
  induction nb as [|[k1 v1] nb IH]; simpl; [done|].
  by destruct (decide (k = k1)).
Qed.

Lemma nb_find_setitem nb k v k' :
  nb_find (nb_setitem nb k v) k' =
  if decide (k' = k) then Some v else nb_find nb k'.
Proof.
  induction nb as [|[k1 v1] nb IH]; simpl.
  - by destruct (decide (k' = k)).
  - destruct (decide (k = k1)) as [->|Hne]; simpl.
    + by destruct (decide (k' = k1)).
    + rewrite IH. destruct (decide (k' = k1)) as [->|?]; [|done].
      by rewrite decide_False.
Qed.

Lemma nb_get_setitem nb k v k' :
  nb_get (nb_setitem nb k v) k' = if decide (k' = k) then v else nb_get nb k'.
Proof.
  unfold nb_get. rewrite nb_find_setitem. by destruct (decide (k' = k)).
Qed.

Lemma nb_getitem_value nb k : (nb_getitem nb k).1 = nb_get nb k.
Proof. unfold nb_getitem, nb_get. by destruct (nb_find nb k). Qed.

(** Reading [next_beam[k]] may insert [k], with the default value. *)
Lemma nb_get_getitem nb k k' :
  nb_get (nb_getitem nb k).2 k' = nb_get nb k'.
Proof.
  unfold nb_getitem, nb_get. destruct (nb_find nb k) eqn:E; simpl; [done|].
  rewrite nb_find_app. destruct (nb_find nb k') eqn:E'; simpl; [done|].
  by destruct (decide (k' = k)).
Qed.

Lemma elem_of_nb_setitem nb k v (e : entry) :
  e ∈ nb_setitem nb k v → e = (k, v) ∨ e ∈ nb.
Proof.
  induction nb as [|[k1 v1] nb IH]; simpl.
  - intros ->%list_elem_of_singleton. by left.
  - destruct (decide (k = k1)) as [->|?].
    + intros [->|?]%elem_of_cons; [by left | right; by right].
    + intros [->|?]%elem_of_cons; [right; by left|].
      destruct IH as [?|?]; [done | by left | right; by right].
Qed.

Lemma elem_of_nb_getitem nb k (e : entry) :
  e ∈ (nb_getitem nb k).2 → e = (k, fn) ∨ e ∈ nb.
Proof.
  unfold nb_getitem. destruct (nb_find nb k); simpl; [by right|].
  intros [?| ->%list_elem_of_singleton]%elem_of_app; [by right | by left].
Qed.

(** ** One proposal: the body of the loop over the beam *)

(** The probabilities after the proposal of the class [c] for the entry
    [(p, (p_b, p_nb))], read from those before it. *)
Lemma propose_get blank c p_t nb p p_b p_nb k :
  nb_get (propose blank c p_t nb (p, (p_b, p_nb))) k =
  let old := nb_get nb k in
  if decide (Z.of_nat c = blank) then
    if decide (k = p)
    then (logaddexp old.1 (logaddexp (ladd p_b p_t) (ladd p_nb p_t)), old.2)
    else old
  else if decide (Some c = prefix_end p) then
    if decide (k = p) then (old.1, logaddexp old.2 (ladd p_nb p_t))
    else if decide (k = p ++ [c])
         then (old.1, logaddexp old.2 (ladd p_b p_t))
         else old
  else
    if decide (k = p ++ [c])
    then (old.1, logaddexp old.2 (logaddexp (ladd p_b p_t) (ladd p_nb p_t)))
    else old.
Proof.
  assert (Hne : p ≠ p ++ [c]).
  { intros E%(f_equal length). rewrite length_app in E. simpl in E. lia. }
  unfold propose. cbv zeta.
  destruct (decide (Z.of_nat c = blank)) as [Hb|Hb].
  - destruct (nb_getitem nb p) as [[b0 n0] nb1] eqn:E.
    rewrite nb_get_setitem.
    pose proof (nb_getitem_value nb p) as E1.
    pose proof (nb_get_getitem nb p k) as E2. rewrite E in E1, E2.
    simpl in E1, E2. destruct (decide (k = p)) as [->|?]; [|done].
    by rewrite <-E1.
  - destruct (nb_getitem nb (p ++ [c])) as [[b0 n0] nb1] eqn:E.
    pose proof (nb_getitem_value nb (p ++ [c])) as E1.
    pose proof (nb_get_getitem nb (p ++ [c])) as E2. rewrite E in E1, E2.
    simpl in E1, E2.
    destruct (decide (Some c = prefix_end p)) as [He|He].
    + rewrite decide_False by (by intros ?).
      destruct (nb_getitem (nb_setitem nb1 _ _) p) as [[b1 n1] nb2] eqn:E'.
      pose proof (nb_getitem_value (nb_setitem nb1 (p ++ [c])
                    (b0, logaddexp n0 (ladd p_b p_t))) p) as E3.
      pose proof (nb_get_getitem (nb_setitem nb1 (p ++ [c])
                    (b0, logaddexp n0 (ladd p_b p_t))) p) as E4.
      rewrite E' in E3, E4. simpl in E3, E4.
      rewrite nb_get_setitem in E3. rewrite decide_False in E3 by done.
      rewrite E2 in E3.
      rewrite nb_get_setitem. destruct (decide (k = p)) as [->|Hk].
      * by rewrite <-E3.
      * rewrite E4, nb_get_setitem.
        destruct (decide (k = p ++ [c])) as [->|?]; [|by rewrite E2].
        by rewrite <-E1.
    + rewrite decide_True by done.
      rewrite nb_get_setitem.
      destruct (decide (k = p ++ [c])) as [->|?]; [|by rewrite E2].
      by rewrite <-E1.
Qed.
End ctc_facts.

Section ctc_labels.
Context {R : Type} `{LogScore R}.
Implicit Types (nb beam : list (@entry R)) (k p : prefix).

Lemma propose_no_blank blank c p_t nb (e : entry) :
  prefixes_no_blank blank nb → no_blank blank e.1 →
  prefixes_no_blank blank (propose blank c p_t nb e).
Proof.
  destruct e as [p [p_b p_nb]]. simpl. intros Hnb Hp.
  assert (Hset : ∀ nb1 k v, prefixes_no_blank blank nb1 →
                 no_blank blank k →
                 prefixes_no_blank blank (nb_setitem nb1 k v)).
  { intros nb1 k v H1 Hk e [->|?]%elem_of_nb_setitem; [done | by apply H1]. }
  assert (Hget : ∀ nb1 k, prefixes_no_blank blank nb1 →
                 no_blank blank k →
                 prefixes_no_blank blank (nb_getitem nb1 k).2).
  { intros nb1 k H1 Hk e [->|?]%elem_of_nb_getitem; [done | by apply H1]. }
  unfold propose.
  destruct (decide (Z.of_nat c = blank)) as [Hb|Hb].
  - specialize (Hget nb p Hnb Hp).
    destruct (nb_getitem nb p) as [[b0 n0] nb1]. by apply Hset.
  - assert (Hpc : no_blank blank (p ++ [c])).
    { apply Forall_app. split; [done|]. by constructor. }
    specialize (Hget nb (p ++ [c]) Hnb Hpc) as Hnb1.
    destruct (nb_getitem nb (p ++ [c])) as [[b0 n0] nb1]. simpl in Hnb1.
    destruct (decide (Some c = prefix_end p)); [|by apply Hset].
    match goal with |- context [nb_getitem ?n p] =>
      specialize (Hget n p (Hset _ _ _ Hnb1 Hpc) Hp) as Hnb2;
      destruct (nb_getitem n p) as [[b1 n1] nb2] end.
    by apply Hset.
Qed.

Lemma candidates_no_blank blank log_probs b t beam nb :
  prefixes_no_blank blank beam →
  candidates blank log_probs b t beam = Ok nb →
  prefixes_no_blank blank nb.
Proof.
  intros Hbeam. unfold candidates.
  apply (foldlM_invariant (prefixes_no_blank blank)).
  - intros nb0 c nb1 Hnb0 E. apply bind_Ok in E as (p_t & _ & [= <-]).
    revert nb0 Hnb0.
    induction beam as [|e beam IH]; intros nb0 Hnb0; simpl; [done|].
    apply IH.
    + intros e' He'. apply Hbeam. by right.
    + apply propose_no_blank; [done|]. apply Hbeam. by left.
  - intros e []%elem_of_nil.
Qed.

Lemma time_step_no_blank blank log_probs b beam_width beam t beam' :
  prefixes_no_blank blank beam →
  time_step blank log_probs b beam_width beam t = Ok beam' →
  prefixes_no_blank blank beam'.
Proof.
  intros Hbeam E. apply bind_Ok in E as (nb & Enb & [= <-]).
  intros e He%slice_to_subseteq%sorted_desc_elem_of.
  by apply (candidates_no_blank _ _ _ _ _ _ Hbeam Enb).
Qed.

Lemma final_beam_no_blank blank log_probs b beam_width time beam :
  final_beam blank log_probs b beam_width time = Ok beam →
  prefixes_no_blank blank beam.
Proof.
  apply (foldlM_invariant (prefixes_no_blank blank)).
  - intros ? ? ? ?. by apply time_step_no_blank.
  - intros e ->%list_elem_of_singleton. constructor.
Qed.

Lemma decode_utt_no_blank blank log_probs x_lens beam_width b p :
  decode_utt blank log_probs x_lens beam_width b = Ok p →
  no_blank blank p.
Proof.
  intros E. apply bind_Ok in E as (time & _ & E).
  apply bind_Ok in E as (beam & Ebeam & E).
  apply bind_Ok in E as (top & Etop & [= <-]).
  apply (final_beam_no_blank _ _ _ _ _ _ Ebeam).
  apply getitem_Ok in Etop. by eapply list_elem_of_lookup_2.
Qed.
End ctc_labels.

Lemma foldlM_returns {A B} (P : A → Prop) (f : A → B → result A)
    (l : list B) (a : A) :
  (∀ a x, x ∈ l → P a → ∃ a', f a x = Ok a' ∧ P a') →
  P a → ∃ a', foldlM f l a = Ok a' ∧ P a'.
Proof.
  revert a. induction l as [|x l IH]; intros a Hf Ha; simpl; [eauto|].
  destruct (Hf a x) as (a1 & -> & Ha1); [by left | done |]. simpl.
  apply IH; [|done]. intros a2 y Hy. apply Hf. by right.
Qed.

Lemma getitem3_in_range {R} (a : ndarray3 R) (B T C b t c : nat) :
  shape a = (B, T, C) → b < B → t < T → c < C →
  getitem3 a b t c = Ok (item a b t c).
Proof.
  intros E Hb Ht Hc. unfold getitem3. rewrite E.
  apply Nat.ltb_lt in Hb, Ht, Hc. by rewrite Hb, Ht, Hc.
Qed.

Section ctc_returns.
Context {R : Type} `{LogScore R}.
Implicit Types (nb beam : list (@entry R)) (k p : prefix).

Lemma nb_setitem_nonempty nb k (v : R * R) : nb_setitem nb k v ≠ [].
Proof. destruct nb as [|[k1 v1] nb]; simpl; [done|]. by case_decide. Qed.

Lemma propose_nonempty blank c p_t nb (e : entry) :
  propose blank c p_t nb e ≠ [].
Proof.
  destruct e as [p [p_b p_nb]]. unfold propose.
  repeat first
    [ apply nb_setitem_nonempty
    | case_decide
    | match goal with |- context [nb_getitem ?n ?q] =>
        destruct (nb_getitem n q) as [[??] ?] end ].
Qed.

Lemma foldl_propose_nonempty blank c p_t nb beam :
  nb ≠ [] ∨ beam ≠ [] → foldl (propose blank c p_t) nb beam ≠ [].
Proof.
  revert nb. induction beam as [|e beam IH]; intros nb Hne; simpl.
  - by destruct Hne.
  - apply IH. left. apply propose_nonempty.
Qed.

(** In range, the loops over the classes and the beam do not raise. *)
Lemma candidates_in_range blank log_probs (B T C b t : nat) beam :
  shape log_probs = (B, T, C) → b < B → t < T →
  candidates blank log_probs b t beam =
  Ok (foldl (fun nb c =>
               foldl (propose blank c (item log_probs b t c)) nb beam)
            [] (seq 0 C)).
Proof.
  intros Hs Hb Ht. unfold candidates. rewrite Hs. simpl.
  assert (Hin : ∀ c, c ∈ seq 0 C → c < C) by (intros c ?%elem_of_seq; lia).
  revert Hin. generalize (seq 0 C) ([] : list (@entry R)).
  intros l. induction l as [|c l IH]; intros nb Hin; simpl; [done|].
  rewrite (getitem3_in_range _ B T C); [|done..|apply Hin; by left].
  simpl. apply IH. intros c' ?. apply Hin. by right.
Qed.

(** They leave a candidate when there are a class and a beam entry. *)
Lemma candidates_returns blank log_probs (B T C b t : nat) beam :
  shape log_probs = (B, T, C) → b < B → t < T →
  ∃ nb, candidates blank log_probs b t beam = Ok nb ∧
        (1 ≤ C → beam ≠ [] → nb ≠ []).
Proof.
  intros Hs Hb Ht. rewrite (candidates_in_range _ _ B T C) by done.
  eexists. split; [done|]. intros HC Hbeam.
  destruct C as [|C]; [lia|]. change (seq 0 (S C)) with (0 :: seq 1 C).
  simpl.
  assert (Hne : foldl (propose blank 0 (item log_probs b t 0)) [] beam ≠ [])
    by (apply foldl_propose_nonempty; by right).
  revert Hne. generalize (foldl (propose blank 0 (item log_probs b t 0))
                                [] beam).
  generalize (seq 1 C). intros l.
  induction l as [|c l IH]; intros nb Hnb; simpl; [done|].
  apply IH, foldl_propose_nonempty. by left.
Qed.

Lemma sorted_beam_nonempty nb : nb ≠ [] → sorted_beam nb ≠ [].
Proof.
  intros Hne E. apply Hne, Permutation_nil_r.
  unfold sorted_beam in E.
  by rewrite <-(sorted_desc_Permutation flt key nb), E.
Qed.

Lemma slice_to_nonempty {A} (n : Z) (l : list A) :
  (1 ≤ n)%Z → l ≠ [] → slice_to n l ≠ [].
Proof.
  intros Hn Hl E. pose proof (slice_to_head n l Hn) as Hh.
  rewrite E in Hh. by destruct l.
Qed.

(** With a beam width of at least one, a class and the frames in range,
    the loop over [t] ends without an exception on a beam that is not
    empty, whatever the blank index is. *)
Lemma final_beam_returns blank log_probs (B T C b : nat) beam_width time :
  shape log_probs = (B, T, C) → b < B → Z.to_nat time ≤ T → 1 ≤ C →
  (1 ≤ beam_width)%Z →
  ∃ beam, final_beam blank log_probs b beam_width time = Ok beam ∧
          beam ≠ [].
Proof.
  intros Hs Hb Ht HC Hw. unfold final_beam.
  apply (foldlM_returns (fun beam => beam ≠ [])); [|done].
  intros beam t Hin%elem_of_seq Hbeam. unfold time_step.
  destruct (candidates_returns blank log_probs B T C b t beam)
    as (nb & -> & Hnb); [done | done | lia |]. simpl.
  eexists. split; [done|].
  by apply slice_to_nonempty, sorted_beam_nonempty, Hnb.
Qed.

Lemma decode_utt_returns blank log_probs (B T C b : nat) x_lens
    beam_width time :
  shape log_probs = (B, T, C) → b < B → x_lens !! b = Some time →
  Z.to_nat time ≤ T → 1 ≤ C → (1 ≤ beam_width)%Z →
  ∃ p, decode_utt blank log_probs x_lens beam_width b = Ok p.
Proof.
  intros Hs Hb Hx%getitem_Ok Ht HC Hw. unfold decode_utt.
  rewrite Hx. simpl.
  destruct (final_beam_returns blank log_probs B T C b beam_width time)
    as (beam & -> & Hbeam); try done.
  destruct beam as [|top beam]; [done|]. by exists top.1.
Qed.
End ctc_returns.

Section ctc_properties.
Context {R : Type} `{LogScore R}.
Implicit Types (nb beam : list (@entry R)) (k p : prefix).

(** C1 (amended).  When the proposed class [c] is not the blank and is
    the last label of the prefix [p] of a beam entry [(p, (p_b, p_nb))],
    the proposal (i) adds [p_nb + p_t] (the previous probability of
    ending in a NON-blank, not [p_b + p_t]) to the p_no_blank of the
    unextended prefix [p], (ii) adds [p_b + p_t] only, and nothing from
    [p_nb], to the p_no_blank of the extended prefix [p ++ [c]]; both
    additions are by [logaddexp] onto what [next_beam] already holds, the
    p_blank of both prefixes and all other prefixes are left as they
    are. *)
Theorem ctc_repeat_proposal blank c p_t nb p p_b p_nb :
  Z.of_nat c ≠ blank → prefix_end p = Some c →
  let nb' := propose blank c p_t nb (p, (p_b, p_nb)) in
  nb_get nb' p =
    ((nb_get nb p).1, logaddexp (nb_get nb p).2 (ladd p_nb p_t)) ∧
  nb_get nb' (p ++ [c]) =
    ((nb_get nb (p ++ [c])).1,
     logaddexp (nb_get nb (p ++ [c])).2 (ladd p_b p_t)) ∧
  ∀ k, k ≠ p → k ≠ p ++ [c] → nb_get nb' k = nb_get nb k.
Proof.
  intros Hb He nb'. subst nb'.
  assert (Hne : p ++ [c] ≠ p).
  { intros E%(f_equal length). rewrite length_app in E. simpl in E. lia. }
  repeat split; [| |intros k Hk1 Hk2]; rewrite propose_get; cbv zeta;
    rewrite (decide_False (P := Z.of_nat c = blank)) by done;
    rewrite (decide_True (P := Some c = prefix_end p)) by done.
  - by rewrite decide_True.
  - rewrite decide_False by done. by rewrite decide_True.
  - by rewrite !decide_False.
Qed.

(** C8 (amended).  For every matrix, CTC decoding with [beam_width = 1]
    is deterministic (a run that returns has one possible result) and no
    returned sequence holds the blank label.  Two identical adjacent
    labels are possible: a label repeated across a blank frame is kept
    twice. *)
Theorem ctc_beam1_no_blank (self : BeamSearchDecoder) log_probs x_lens
    (alpha beta : R) out :
  BeamSearchDecoder_call self log_probs x_lens 1 alpha beta = Ok out →
  Forall (no_blank (_blank self)) out ∧
  ∀ out', BeamSearchDecoder_call self log_probs x_lens 1 alpha beta
          = Ok out' → out' = out.
Proof.
  intros E. split; [|congruence].
  unfold BeamSearchDecoder_call in E.
  eapply forM_Ok_Forall; [|exact E].
  intros b p. apply decode_utt_no_blank.
Qed.

(** C10.  The output of the CTC beam decoder is the same for all values
    of [alpha] (language model weight) and [beta] (insertion bonus). *)
Theorem ctc_alpha_beta_unused (self : BeamSearchDecoder) log_probs x_lens
    beam_width (alpha beta alpha' beta' : R) :
  BeamSearchDecoder_call self log_probs x_lens beam_width alpha beta =
  BeamSearchDecoder_call self log_probs x_lens beam_width alpha' beta'.
Proof. reflexivity. Qed.

(** The CTC beam decoder does not check its configuration before
    decoding: any blank index is accepted, and a beam width of zero fails
    at the last lookup only. *)
Lemma ctc_no_check blank log_probs (B T C b : nat) x_lens
    beam_width time :
  shape log_probs = (B, T, C) → b < B → x_lens !! b = Some time →
  Z.to_nat time ≤ T → 1 ≤ C →
  ((1 ≤ beam_width)%Z →
     ∃ p, decode_utt blank log_probs x_lens beam_width b = Ok p) ∧
  (beam_width = 0%Z → (1 ≤ time)%Z →
     final_beam blank log_probs b beam_width time = Ok [] ∧
     decode_utt blank log_probs x_lens beam_width b = Raise IndexError).
Proof.
  intros Hs Hb Hx Ht HC. split.
  - intros Hw. by apply (decode_utt_returns _ _ B T C _ _ _ time).
  - intros -> Htime.
    assert (E : final_beam blank log_probs b 0 time = Ok []).
    { unfold final_beam.
      destruct (Z.to_nat time) as [|n] eqn:En; [lia|].
      change (seq 0 (S n)) with (0 :: seq 1 n). simpl.
      unfold time_step at 2.
      destruct (candidates_returns blank log_probs B T C b 0 init_beam)
        as (nb & -> & _); [done | done | lia |]. simpl.
      assert (Hin : ∀ t, t ∈ seq 1 n → t < T)
        by (intros t ?%elem_of_seq; lia).
      revert Hin. generalize (seq 1 n). intros l.
      induction l as [|t l IH]; intros Hin; simpl; [done|].
      unfold time_step at 2.
      rewrite (candidates_in_range _ _ B T C); [|done..|apply Hin; by left].
      simpl. replace (foldl _ [] (seq 0 C)) with ([] : list (@entry R)).
      - apply IH. intros t' ?. apply Hin. by right.
      - generalize (seq 0 C). intros l'. by induction l'. }
    split; [done|]. unfold decode_utt.
    apply getitem_Ok in Hx. by rewrite Hx; simpl; rewrite E.
Qed.
End ctc_properties.

(** ** The dictionary holds each prefix once *)
Section ctc_dictionary.
Context {R : Type} `{LogScore R}.
Implicit Types (nb beam : list (@entry R)) (k p : prefix) (v : R * R).

Lemma nb_find_None nb k : nb_find nb k = None ↔ k ∉ nb.*1.
Proof.
  induction nb as [|[k1 v1] nb IH]; simpl.
  - split; [intros _ []%elem_of_nil | done].
  - rewrite not_elem_of_cons. destruct (decide (k = k1)) as [->|?].
    + split; [done | by intros [? _]].
    + rewrite IH. tauto.
Qed.

Lemma nb_find_Some_elem nb k v : nb_find nb k = Some v → (k, v) ∈ nb.
Proof.
  induction nb as [|[k1 v1] nb IH]; simpl; [done|].
  destruct (decide (k = k1)) as [->|?].
  - intros [= ->]. by left.
  - intros ?. right. by apply IH.
Qed.

Lemma nb_wf_find nb k v : nb_wf nb → (k, v) ∈ nb → nb_find nb k = Some v.
Proof.
  unfold nb_wf. induction nb as [|[k1 v1] nb IH]; simpl.
  - by intros _ []%elem_of_nil.
  - intros [Hk1 Hnd]%list.NoDup_cons [[= -> ->]|Hin]%elem_of_cons.
    + by rewrite decide_True.
    + rewrite decide_False; [by apply IH|].
      intros ->. apply Hk1. apply list_elem_of_fmap. by exists (k1, v).
Qed.

Lemma nb_setitem_wf nb k v : nb_wf nb → nb_wf (nb_setitem nb k v).
Proof.
  unfold nb_wf. induction nb as [|[k1 v1] nb IH]; simpl.
  - intros _. apply NoDup_singleton.
  - intros [Hk1 Hnd]%list.NoDup_cons. destruct (decide (k = k1)) as [->|Hne].
    + simpl. by apply list.NoDup_cons.
    + simpl. apply list.NoDup_cons. split; [|by apply IH].
      intros ([k2 v2] & E & [[= -> ->]|Hin]%elem_of_nb_setitem
             )%list_elem_of_fmap; simpl in E; [done|].
      apply Hk1. apply list_elem_of_fmap. exists (k2, v2). by subst.
Qed.

Lemma nb_getitem_wf nb k : nb_wf nb → nb_wf (nb_getitem nb k).2.
Proof.
  unfold nb_wf, nb_getitem. intros Hnd.
  destruct (nb_find nb k) eqn:E; simpl; [done|].
  rewrite fmap_app. simpl. apply list.NoDup_app. split; [done|].
  split; [|apply NoDup_singleton].
  intros k' Hk' ->%list_elem_of_singleton. by apply nb_find_None in E.
Qed.

Lemma propose_wf blank c p_t nb (e : entry) :
  nb_wf nb → nb_wf (propose blank c p_t nb e).
Proof.
  destruct e as [p [p_b p_nb]]. intros Hwf. unfold propose.
  repeat first
    [ apply nb_setitem_wf
    | case_decide
    | match goal with |- context [nb_getitem ?n ?q] =>
        let Hw := fresh "Hw" in
        assert (Hw : nb_wf (nb_getitem n q).2)
          by (apply nb_getitem_wf; repeat apply nb_setitem_wf; assumption);
        destruct (nb_getitem n q) as [[??] ?]; simpl in Hw end
    | assumption ].
Qed.

Lemma foldl_propose_wf blank c p_t nb beam :
  nb_wf nb → nb_wf (foldl (propose blank c p_t) nb beam).
Proof.
  revert nb. induction beam as [|e beam IH]; intros nb Hwf; simpl; [done|].
  by apply IH, propose_wf.
Qed.

Lemma candidates_wf blank log_probs b t beam nb :
  candidates blank log_probs b t beam = Ok nb → nb_wf nb.
Proof.
  unfold candidates. apply (foldlM_invariant nb_wf).
  - intros nb0 c nb1 Hnb0 E. apply bind_Ok in E as (p_t & _ & [= <-]).
    by apply foldl_propose_wf.
  - apply NoDup_nil_2.
Qed.
End ctc_dictionary.

(** ** The candidates of a time step, prefix by prefix *)
Section ctc_scores.
Context {R : Type} `{LogScore R}.
Implicit Types (nb beam : list (@entry R)) (k p q : prefix) (v : R * R).





End ctc_scores.

Section ctc_ranking.
Context {R : Type} `{LogScoreOrder R}.
Implicit Types (nb beam : list (@entry R)) (k p : prefix).

Lemma fle_refl (a : R) : fle a a.
Proof.
  unfold fle. destruct (flt a a) eqn:E; [|done].
  by rewrite (flt_asym _ _ E) in E.
Qed.

Lemma fle_trans (a b c : R) : fle a b → fle b c → fle a c.
Proof. intros Hab Hbc. by apply (flt_negtrans c b a). Qed.

(** The head of the sorted candidates is a candidate of the highest
    combined score. *)
Lemma sorted_beam_head nb (top : entry) :
  head (sorted_beam nb) = Some top →
  top ∈ nb ∧ ∀ e, e ∈ nb → fle (key e) (key top).
Proof.
  intros Hh. split.
  - apply (sorted_desc_elem_of flt key). by apply head_Some_elem_of.
  - intros e He. unfold fle.
    apply (sorted_desc_head_max flt key flt_asym) with (l := nb);
      [|done|by apply sorted_desc_elem_of].
    intros a b c Hab Hbc. by apply (flt_negtrans a b c).
Qed.

End ctc_ranking.

(** ** Beam width and the returned entry *)
Section ctc_width.
Context {R : Type} `{LogScore R}.
Implicit Types (nb beam : list (@entry R)) (k p : prefix) (v : R * R).

Lemma sorted_beam_length nb : length (sorted_beam nb) = length nb.
Proof.
  unfold sorted_beam. by rewrite (sorted_desc_Permutation flt key nb).
Qed.

(** While the narrower beam trims nothing, both runs hold the same
    beam. *)
Lemma untrimmed_runs_agree blank log_probs b w1 w2 time n :
  (w1 ≤ w2)%Z →
  untrimmed_before_last blank log_probs b w1 time →
  S n ≤ Z.to_nat time →
  foldlM (time_step blank log_probs b w2) (seq 0 n) init_beam
  = foldlM (time_step blank log_probs b w1) (seq 0 n) init_beam.
Proof.
  intros Hw Hall. induction n as [|n IH]; intros Hn; [done|].
  rewrite seq_S, !foldlM_app, IH by lia. simpl.
  destruct (foldlM (time_step blank log_probs b w1) (seq 0 n) init_beam)
    as [beam|e] eqn:Ebeam; [|done]. simpl.
  unfold time_step.
  destruct (candidates blank log_probs b n beam) as [nb|e] eqn:Enb; [|done].
  simpl. pose proof (Hall n beam nb ltac:(lia) Ebeam Enb) as Hlen.
  rewrite !slice_to_all; [done|rewrite sorted_beam_length; lia..].
Qed.

Lemma getitem_0_head {A} (l : list A) :
  getitem l 0 = match head l with Some x => Ok x | None => Raise IndexError end.
Proof. by destruct l. Qed.

(** Both widths leave the same entry at the head of the final beam. *)
Lemma untrimmed_same_head blank log_probs b w1 w2 time :
  (1 ≤ w1)%Z → (w1 ≤ w2)%Z →
  untrimmed_before_last blank log_probs b w1 time →
  (beam ← final_beam blank log_probs b w2 time; getitem beam 0)
  = (beam ← final_beam blank log_probs b w1 time; getitem beam 0).
Proof.
  intros Hw1 Hw2 Hall. unfold final_beam.
  destruct (Z.to_nat time) as [|n] eqn:En; [done|].
  rewrite seq_S, !foldlM_app.
  rewrite (untrimmed_runs_agree blank log_probs b w1 w2 time n)
    by (done || lia).
  destruct (foldlM (time_step blank log_probs b w1) (seq 0 n) init_beam)
    as [beam|e]; [|done]. simpl.
  unfold time_step.
  destruct (candidates blank log_probs b n beam) as [nb|e]; [|done].
  simpl. by rewrite !getitem_0_head, !slice_to_head by lia.
Qed.

(** C6 (amended).  For beam widths [1 <= w1 <= w2] and an utterance in
    range: when the width [w1] is enough for the candidates of every time
    step but the last (so for every utterance of one frame), the decoder
    returns the same entry with both widths: the same label sequence with
    the same probabilities, so the same combined score.  The two runs make
    the same operations on the scores, whatever the arithmetic is.  Where
    a time step before the last trims, a wider beam can return a lower
    score. *)
Theorem ctc_wider_beam_same_entry blank log_probs (B T C b : nat) x_lens
    w1 w2 time :
  shape log_probs = (B, T, C) → b < B → x_lens !! b = Some time →
  Z.to_nat time ≤ T → 1 ≤ C →
  (1 ≤ w1)%Z → (w1 ≤ w2)%Z →
  untrimmed_before_last blank log_probs b w1 time →
  ∃ top : entry,
    (beam ← final_beam blank log_probs b w1 time; getitem beam 0) = Ok top ∧
    (beam ← final_beam blank log_probs b w2 time; getitem beam 0) = Ok top ∧
    decode_utt blank log_probs x_lens w1 b = Ok top.1 ∧
    decode_utt blank log_probs x_lens w2 b = Ok top.1 ∧
    top_score blank log_probs x_lens w1 b
      = Ok (logaddexp top.2.1 top.2.2) ∧
    top_score blank log_probs x_lens w2 b
      = Ok (logaddexp top.2.1 top.2.2).
Proof.
  intros Hs Hb Hx Ht HC Hw1 Hw2 Hall.
  pose proof (untrimmed_same_head blank log_probs b w1 w2 time Hw1 Hw2 Hall)
    as Hsame.
  destruct (final_beam_returns blank log_probs B T C b w1 time)
    as (beam1 & E1 & Hne1); try done.
  destruct beam1 as [|top beam1]; [done|]. exists top.
  assert (Ehead1 : (beam ← final_beam blank log_probs b w1 time;
                    getitem beam 0) = Ok top) by (by rewrite E1).
  rewrite Ehead1 in Hsame.
  split; [done|]. split; [done|].
  apply bind_Ok in Hsame as (beam2 & E2 & Eg2).
  destruct beam2 as [|top2 beam2]; [done|]. injection Eg2 as ->.
  apply getitem_Ok in Hx.
  unfold decode_utt, top_score, key. rewrite Hx. simpl.
  by rewrite E1, E2.
Qed.
End ctc_width.

(* ===================================================================== *)
(** * The CTC decoder on concrete matrices *)
(* ===================================================================== *)

(** C1, as stated, fails at (i): after the proposal of the class [1] for
    the entry [((1,), (p_b, p_nb)) = ((1,), (2, 3))] with [p_t = 5] (as
    weights) into an empty [next_beam], the p_no_blank of the unextended
    prefix [(1,)] is [p_nb * p_t = 15], from the previous p_no_blank, and
    not the [p_b * p_t = 10] that "using only p_blank_prev + p_t(c)" gives. *)
Lemma ctc_repeat_same_prefix_counterexample :
  let nb' := propose 0 1 5%N [] ([1], (2%N, 3%N)) in
  (nb_get nb' [1]).2 = logaddexp LOG_0 (ladd 3%N 5%N) ∧
  (nb_get nb' [1]).2 ≠ logaddexp LOG_0 (ladd 2%N 5%N).
Proof. split; [reflexivity | discriminate]. Qed.

Lemma ctc_repeat_proposal_witness :
  Z.of_nat 1 ≠ 0%Z ∧ prefix_end [1] = Some 1 ∧
  nb_get (propose 0 1 5%N [] ([1], (2%N, 3%N))) [1] = (0%N, 15%N) ∧
  nb_get (propose 0 1 5%N [] ([1], (2%N, 3%N))) [1; 1] = (0%N, 10%N).
Proof.
  assert (Hb : Z.of_nat 1 ≠ 0%Z) by discriminate.
  assert (He : prefix_end [1] = Some 1) by reflexivity.
  pose proof (ctc_repeat_proposal (R := N) 0 1 5%N [] [1] 2%N 3%N Hb He)
    as (E1 & E2 & _).
  exact (conj Hb (conj He (conj E1 E2))).
Defined.

(** C8, as stated, fails: with [beam_width = 1] the frames label, blank,
    label are decoded to [[1; 1]], two identical adjacent labels. *)
Lemma ctc_beam1_adjacent_repeat_counterexample :
  BeamSearchDecoder_call (BeamSearchDecoder_init 0 None) frames_aba [3%Z] 1
                         0%N 0%N = Ok [[1; 1]] ∧
  adjacent_repeat [1; 1] = true.
Proof. split; vm_compute; reflexivity. Qed.

Lemma ctc_beam1_no_blank_witness :
  BeamSearchDecoder_call (BeamSearchDecoder_init 0 None) frames_aba [3%Z] 1
                         0%N 0%N = Ok [[1; 1]] ∧
  Forall (no_blank 0) [[1; 1]].
Proof.
  assert (E : BeamSearchDecoder_call (BeamSearchDecoder_init 0 None)
                frames_aba [3%Z] 1 0%N 0%N = Ok [[1; 1]])
    by (vm_compute; reflexivity).
  split; [exact E|].
  exact (proj1 (ctc_beam1_no_blank _ _ _ _ _ _ E)).
Defined.

Lemma ctc_no_check_example :
  (∃ p, decode_utt 7 frames_wide [3%Z] 2 0 = Ok p) ∧
  final_beam 0 frames_wide 0 0 3 = Ok [] ∧
  decode_utt 0 frames_wide [3%Z] 0 0 = Raise IndexError.
Proof.
  split.
  - apply (ctc_no_check (R := N) 7 frames_wide 1 3 3 0 [3%Z]
             2 3); [reflexivity | lia | reflexivity | simpl; lia | lia | lia].
  - apply (ctc_no_check (R := N) 0 frames_wide 1 3 3 0 [3%Z]
             0 3); [reflexivity | lia | reflexivity | simpl; lia | lia
                   | reflexivity | lia].
Qed.


(** C6, as stated, fails: on three frames the entry returned with the beam
    width [3] has the combined score [348] (as a weight), below the [438]
    of the entry returned with the beam width [2]. *)
Lemma ctc_wider_beam_lower_score_counterexample :
  top_score 0 frames_wide [3%Z] 2 0 = Ok 438%N ∧
  top_score 0 frames_wide [3%Z] 3 0 = Ok 348%N ∧
  flt 348%N 438%N = true.
Proof. repeat split; vm_compute; reflexivity. Qed.

Lemma ctc_wider_beam_same_entry_witness :
  untrimmed_before_last 0 frames_wide 0 3 2 ∧
  decode_utt 0 frames_wide [2%Z] 3 0 = Ok [1] ∧
  decode_utt 0 frames_wide [2%Z] 4 0 = Ok [1] ∧
  top_score 0 frames_wide [2%Z] 3 0 = Ok 58%N ∧
  top_score 0 frames_wide [2%Z] 4 0 = Ok 58%N.
Proof.
  assert (Hall : untrimmed_before_last 0 frames_wide 0 3 2).
  { intros t beam nb Ht Ebeam Enb.
    destruct t as [|t]; [|simpl in Ht; lia].
    vm_compute in Ebeam. injection Ebeam as <-.
    vm_compute in Enb. injection Enb as <-. vm_compute. discriminate. }
  destruct (ctc_wider_beam_same_entry (R := N) 0 frames_wide 1 3 3 0 [2%Z]
              3 4 2) as (top & E1 & _ & D1 & D2 & S1 & S2);
    [reflexivity | lia | reflexivity | simpl; lia | lia | lia | lia
    | exact Hall |].
  vm_compute in E1. injection E1 as <-.
  exact (conj Hall (conj D1 (conj D2 (conj S1 S2)))).
Defined.

(* ===================================================================== *)
(** * The attention beam search decoder *)
(* ===================================================================== *)

Section heap_facts.
Context `{Layers}.

Lemma bind_st_Ok {A B} (m : M A) (f : A → M B) σ r :
  (m ≫= f) σ = Ok r → ∃ a σ1, m σ = Ok (a, σ1) ∧ f a σ1 = Ok r.
Proof.
  unfold mbind, M_bind. destruct (m σ) as [[a σ1]|e]; [eauto | done].
Qed.

Lemma ret_st_Ok {A} (a b : A) σ σ' :
  (mret a : M A) σ = Ok (b, σ') → b = a ∧ σ' = σ.
Proof. by intros [= <- <-]. Qed.

Lemma lift_Ok {A} (r : result A) (a : A) σ σ' :
  lift r σ = Ok (a, σ') → r = Ok a ∧ σ' = σ.
Proof. destruct r; simpl; [by intros [= <- <-] | done]. Qed.




Lemma read_Ok l σ v σ' : read l σ = Ok (v, σ') → v = cell σ l ∧ σ' = σ.
Proof. by intros [= <- <-]. Qed.



End heap_facts.

Section ownership.
Context `{Layers}.
Implicit Types (h c : hypothesis).



End ownership.

Lemma Qltb_asym (a b : Q) : Qltb a b = true → Qltb b a = false.
Proof.
  unfold Qltb. rewrite negb_true_iff, negb_false_iff.
  intros Hba. apply Qle_bool_iff. apply Qlt_le_weak, Qnot_le_lt.
  intros Hle%Qle_bool_iff. congruence.
Qed.

Lemma Qltb_negtrans (a b c : Q) :
  Qltb a b = false → Qltb b c = false → Qltb a c = false.
Proof.
  unfold Qltb. rewrite !negb_false_iff, !Qle_bool_iff.
  intros Hba Hcb. by apply Qle_trans with b.
Qed.

Lemma Qltb_false_le (a b : Q) : Qltb a b = false ↔ (b <= a)%Q.
Proof. unfold Qltb. by rewrite negb_false_iff, Qle_bool_iff. Qed.

Section search_facts.
Context `{Layers}.

Lemma forM_st_Forall {A B} (Q : B → Prop) (f : A → M B) (l : list A)
    σ ys σ' :
  (∀ x σ0 y σ1, x ∈ l → f x σ0 = Ok (y, σ1) → Q y) →
  forM_st f l σ = Ok (ys, σ') → Forall Q ys.
Proof.
  revert σ ys σ'. induction l as [|x l IH]; intros σ ys σ' Hf E.
  - apply ret_st_Ok in E as [-> _]. constructor.
  - simpl in E. apply bind_st_Ok in E as (y & σ1 & Ey & E).
    apply bind_st_Ok in E as (ys' & σ2 & Eys & E).
    apply ret_st_Ok in E as [-> _]. constructor.
    + eapply Hf; [|exact Ey]. by left.
    + eapply IH; [|exact Eys]. intros x' ? ? ? ?. apply Hf. by right.
Qed.

Lemma expand_child_of (self : AttentionSeq2seq) dir enc beam_width h σ
    children σ' :
  expand self dir enc beam_width h σ = Ok (children, σ') →
  Forall (child_of h) children.
Proof.
  intros E. unfold expand in E.
  destruct (decoding_order self);
    repeat match type of E with
    | (lift _ ≫= _) _ = Ok _ =>
        apply bind_st_Ok in E as (? & ? & [_ ->]%lift_Ok & E)
    | (read _ ≫= _) _ = Ok _ =>
        apply bind_st_Ok in E as (? & ? & [-> ->]%read_Ok & E)
    | (call _ _ ≫= _) _ = Ok _ =>
        apply bind_st_Ok in E as ([? ?] & ? & _ & E)
    | (let '(_, _) := ?p in _) _ = Ok _ => destruct p
    end;
    (eapply forM_st_Forall; [|exact E]);
    intros k' σk cand σk' _ Ek;
    repeat match type of Ek with
    | (lift _ ≫= _) _ = Ok _ =>
        apply bind_st_Ok in Ek as ([? ?] & ? & [_ ->]%lift_Ok & Ek)
    | (call _ _ ≫= _) _ = Ok _ =>
        apply bind_st_Ok in Ek as ([? ?] & ? & _ & Ek)
    | (deepcopy _ ≫= _) _ = Ok _ =>
        apply bind_st_Ok in Ek as (? & ? & _ & Ek)
    | (let '(_, _) := ?p in _) _ = Ok _ => destruct p
    | _ => progress cbv beta iota in Ek
    end;
    apply ret_st_Ok in Ek as [-> _]; by eexists _, _.
Qed.
End search_facts.

Section search_invariant.
Context `{Layers}.
Implicit Types (h c : hypothesis) (beam complete : list hypothesis).

Lemma child_started sos h c :
  started sos h → child_of h c → started sos c ∧ 2 ≤ length (hyp c).
Proof.
  intros [[t Ht] Hlen] (idx & aw & Hc & Ha). unfold started.
  rewrite Hc, Ha, Ht, !length_app, Hlen, Ht. simpl.
  repeat split; [|lia..]. by exists (t ++ [idx]).
Qed.

Lemma remove_complete_spec (P : hypothesis → Prop) eos cands complete
    not_complete complete' not_complete' :
  remove_complete eos cands complete not_complete
    = (complete', not_complete') →
  Forall (fun c => P c ∧ 2 ≤ length (hyp c)) cands →
  Forall (fun c => P c ∧ ended eos c) complete → Forall P not_complete →
  Forall (fun c => P c ∧ ended eos c) complete' ∧ Forall P not_complete'.
Proof.
  revert complete not_complete.
  induction cands as [|c cands IH]; intros complete not_complete E Hc Hcomp
    Hnot; simpl in E.
  - by injection E as <- <-.
  - apply list.Forall_cons in Hc as [[HP Hlen] Hc].
    destruct (decide (list.last (hyp c) = Some eos)) as [He|He].
    + eapply IH; [exact E | done | | done].
      apply Forall_app. split; [done|]. by repeat constructor.
    + eapply IH; [exact E | done | done |].
      apply Forall_app. split; [done|]. by repeat constructor.
Qed.

Lemma Forall_slice_to {A} (P : A → Prop) (n : Z) (l : list A) :
  Forall P l → Forall P (slice_to n l).
Proof.
  rewrite !list.Forall_forall. intros Hl x Hx%slice_to_subseteq. auto.
Qed.

Lemma search_invariant (self : AttentionSeq2seq) dir enc beam_width n
    complete beam σ complete' beam' σ' :
  search self dir enc beam_width n complete beam σ
    = Ok ((complete', beam'), σ') →
  Forall (started (sos_0 self)) beam →
  Forall (fun h => started (sos_0 self) h ∧ ended (eos_0 self) h)
         complete →
  Forall (started (sos_0 self)) beam' ∧
  Forall (fun h => started (sos_0 self) h ∧ ended (eos_0 self) h)
         complete'.
Proof.
  revert complete beam σ.
  induction n as [|n IH]; intros complete beam σ E Hbeam Hcomp.
  - by apply ret_st_Ok in E as [[= -> ->] _].
  - simpl in E. apply bind_st_Ok in E as (css & σ1 & Ecss & E).
    assert (Hnew : Forall (fun c => started (sos_0 self) c ∧
                                    2 ≤ length (hyp c))
                     (slice_to beam_width (sorted_by_score (concat css)))).
    { apply Forall_slice_to. unfold sorted_by_score.
      rewrite sorted_desc_Permutation. apply Forall_concat.
      eapply forM_st_Forall; [|exact Ecss].
      intros h σ0 cs σ0' Hh Ecs%expand_child_of.
      eapply Forall_impl; [|exact Ecs]. simpl. intros c Hc.
      eapply child_started; [|exact Hc].
      rewrite list.Forall_forall in Hbeam. by apply Hbeam. }
    destruct (remove_complete _ _ complete []) as [comp1 ncomp1] eqn:Erc.
    destruct (remove_complete_spec (started (sos_0 self)) _ _ _ _ _ _
                Erc Hnew Hcomp) as [Hcomp1 Hncomp1]; [constructor|].
    destruct (beam_width <=? Z.of_nat (length comp1))%Z.
    + apply ret_st_Ok in E as [[= -> ->] _].
      split; [done | by apply Forall_slice_to].
    + eapply IH; [exact E | by apply Forall_slice_to | done].
Qed.

(** The renormalisation changes scores only, by
    [len(hyp) * length_penalty], and only for a positive penalty. *)
Lemma renormalize_elem length_penalty complete h' :
  h' ∈ renormalize length_penalty complete →
  ∃ h, h ∈ complete ∧ hyp h' = hyp h ∧ aw_steps h' = aw_steps h ∧
       score h' =
         if Qltb 0 length_penalty
         then (score h + inject_Z (Z.of_nat (length (hyp h)))
                         * length_penalty)%Q
         else score h.
Proof.
  unfold renormalize. destruct (Qltb 0 length_penalty).
  - induction complete as [|h l IH]; simpl.
    + by intros ?%elem_of_nil.
    + intros [->|Hin]%elem_of_cons.
      * exists h. split; [by left | done].
      * destruct (IH Hin) as (h0 & ? & ?). exists h0. split; [by right|done].
  - intros Hin. by exists h'.
Qed.

(** The head of the final ranking: a hypothesis of the completed set, or
    of the beam when nothing completed, and one of the highest adjusted
    score. *)
Lemma final_ranking_head length_penalty complete beam top :
  head (final_ranking length_penalty complete beam) = Some top →
  (∃ h, h ∈ (if decide (length complete = 0) then beam else complete) ∧
        hyp top = hyp h ∧ aw_steps top = aw_steps h) ∧
  ∀ h, h ∈ final_ranking length_penalty complete beam →
       (score h <= score top)%Q.
Proof.
  unfold final_ranking, sorted_by_score. intros Hh. split.
  - apply head_Some_elem_of, sorted_desc_elem_of in Hh.
    apply renormalize_elem in Hh as (h & Hin & Hhyp & Haw & _). eauto.
  - intros h Hin. apply Qltb_false_le.
    eapply (sorted_desc_head_max Qltb score Qltb_asym Qltb_negtrans);
      [exact Hh | exact Hin].
Qed.

(** What the search of one utterance returns: the sequence of the
    hypothesis at the head of the final ranking without its first symbol,
    START, and all attention weights of that hypothesis. *)
Lemma search_utt_returns_top (self : AttentionSeq2seq) dir beam_width
    max_decode_len length_penalty enc σ ys aws σ' :
  search_utt self dir beam_width max_decode_len length_penalty enc σ
    = Ok ((ys, aws), σ') →
  ∃ h0 σ0 complete beam σ1 top,
    search self dir enc beam_width (Z.to_nat max_decode_len) [] [h0] σ0
      = Ok ((complete, beam), σ1) ∧
    hyp h0 = [sos_0 self] ∧
    head (final_ranking length_penalty complete beam) = Some top ∧
    (∀ h, h ∈ final_ranking length_penalty complete beam →
          (score h <= score top)%Q) ∧
    hyp top = sos_0 self :: ys ∧
    aws = aw_steps top ∧ length aws = S (length ys) ∧
    (complete ≠ [] → list.last ys = Some (eos_0 self)).
Proof.
  unfold search_utt. intros E.
  destruct (_init_dec_state dir enc) as [st out].
  apply bind_st_Ok in E as (l0 & σ0 & _ & E).
  apply bind_st_Ok in E as ([complete beam] & σ1 & Es & E).
  apply bind_st_Ok in E as (top & ? & [Etop%getitem_Ok ->]%lift_Ok & E).
  apply ret_st_Ok in E as [[= -> ->] _].
  assert (Hhead : head (final_ranking length_penalty complete beam)
                  = Some top).
  { by destruct (final_ranking length_penalty complete beam). }
  destruct (search_invariant _ _ _ _ _ _ _ _ _ _ _ Es) as [Hbeam Hcomp].
  { repeat constructor. by eexists. }
  { constructor. }
  destruct (final_ranking_head _ _ _ _ Hhead)
    as [(h & Hin & Hhyp & Haw) Hmax].
  assert (Hst : started (sos_0 self) h ∧
                (complete ≠ [] → ended (eos_0 self) h)).
  { rewrite list.Forall_forall in Hbeam, Hcomp.
    destruct complete as [|c complete]; simpl in Hin.
    - split; [by apply Hbeam | done].
    - destruct (Hcomp h Hin). done. }
  destruct Hst as [[[t Ht] Hlen] Hend].
  eexists _, σ0, complete, beam, σ1, top.
  split; [exact Es|]. split; [done|]. split; [done|]. split; [done|].
  rewrite Hhyp, Haw, Ht. simpl.
  split; [done|]. split; [done|]. split; [by rewrite Hlen, Ht|].
  intros [Hlast Hlen2]%Hend. rewrite Ht in Hlast, Hlen2.
  destruct t; simpl in *; [lia | done].
Qed.
Lemma forM_st_lookup {A B} (f : A → M B) (l : list A) σ ys σ' i y :
  forM_st f l σ = Ok (ys, σ') → ys !! i = Some y →
  ∃ x σa σb, l !! i = Some x ∧ f x σa = Ok (y, σb).
Proof.
  revert σ ys σ' i. induction l as [|x l IH]; intros σ ys σ' i E Hi.
  - apply ret_st_Ok in E as [-> _]. by destruct i.
  - simpl in E. apply bind_st_Ok in E as (y0 & σ1 & Ey & E).
    apply bind_st_Ok in E as (ys' & σ2 & Eys & E).
    apply ret_st_Ok in E as [-> _]. destruct i as [|i]; simpl in Hi.
    + injection Hi as ->. by exists x, σ, σ1.
    + by apply (IH σ1 ys' σ2 i).
Qed.

Lemma forM_lookup {A B} (f : A → result B) (l : list A) ys i x :
  forM f l = Ok ys → l !! i = Some x →
  ∃ y, ys !! i = Some y ∧ f x = Ok y.
Proof.
  revert ys i. induction l as [|x0 l IH]; intros ys i E Hi; [by destruct i|].
  simpl in E. apply bind_Ok in E as (y0 & Ey & E).
  apply bind_Ok in E as (ys' & Eys & [= <-]). destruct i as [|i]; simpl in Hi.
  - injection Hi as ->. by exists y0.
  - by apply (IH ys' i).
Qed.

(** C2 (amended).  For every utterance [b] of a batch the beam search
    returns for, the returned sequence [ys] is the sequence of the
    hypothesis [top] at the head of the final ranking of that utterance (a
    hypothesis of the highest adjusted score among the ranked ones, taken
    from the completed set or, when nothing completed, from the last beam)
    without its first symbol START and with nothing else removed:
    [hyp top = START :: ys].  When a hypothesis completed, [ys] therefore
    ends with the END symbol.  The returned attention weights are those of
    [top], one per returned symbol, the initial zero weight being left
    out. *)
Theorem beam_search_returns_top (self : AttentionSeq2seq) enc_out
    beam_width max_decode_len length_penalty coverage_penalty dir σ
    best_hyps aw σ' b ys :
  _decode_infer_beam self enc_out beam_width max_decode_len length_penalty
                     coverage_penalty dir σ = Ok ((best_hyps, aw), σ') →
  best_hyps !! b = Some ys →
  ∃ enc h0 σ0 complete beam σ1 top trace,
    enc_out !! b = Some enc ∧
    search self dir enc beam_width (Z.to_nat max_decode_len) [] [h0] σ0
      = Ok ((complete, beam), σ1) ∧
    hyp h0 = [sos_0 self] ∧
    head (final_ranking length_penalty complete beam) = Some top ∧
    (∀ h, h ∈ final_ranking length_penalty complete beam →
          (score h <= score top)%Q) ∧
    hyp top = sos_0 self :: ys ∧
    (complete ≠ [] → list.last ys = Some (eos_0 self)) ∧
    aw !! b = Some trace ∧
    stack_np (drop 1 (aw_steps top)) = Ok trace ∧
    length (drop 1 (aw_steps top)) = length ys.
Proof.
  unfold _decode_infer_beam. intros E Hb.
  destruct (negb _); [by apply lift_Ok in E as [? _]|].
  apply bind_st_Ok in E as (res & σ1 & Eres & E).
  apply bind_st_Ok in E as (aw' & ? & [Eaw ->]%lift_Ok & E).
  destruct dir; [|by apply lift_Ok in E as [? _]].
  apply ret_st_Ok in E as [[= -> ->] _].
  rewrite list_lookup_fmap in Hb.
  destruct (res !! b) as [[ys' aws]|] eqn:Hres; [|done].
  injection Hb as ->.
  destruct (forM_st_lookup _ _ _ _ _ _ _ Eres Hres)
    as (enc & σa & σb & Henc & Eutt).
  destruct (forM_lookup _ _ _ _ _ Eaw Hres) as (trace & Htr & Est).
  destruct (search_utt_returns_top _ _ _ _ _ _ _ _ _ _ Eutt)
    as (h0 & σ0 & complete & beam & σ2 & top & Es & Hh0 & Hhead & Hmax
        & Htop & -> & Hlen & Hend).
  exists enc, h0, σ0, complete, beam, σ2, top, trace.
  repeat split; try done. rewrite length_drop, Hlen. lia.
Qed.
End search_invariant.

Section attention_properties.
Context `{Layers}.
Implicit Types (h c : hypothesis) (beam complete : list hypothesis).


Lemma decode_infer_beam_bwd (self : AttentionSeq2seq) enc_out beam_width
    max_decode_len length_penalty coverage_penalty σ :
  ∃ e, _decode_infer_beam self enc_out beam_width max_decode_len
         length_penalty coverage_penalty bwd σ = Raise e.
Proof.
  unfold _decode_infer_beam.
  destruct (Qltb 0 (bwd_weight_0 self)); simpl; [|eauto].
  unfold mbind, M_bind.
  destruct (forM_st _ enc_out σ) as [[res σ1]|e]; [|eauto].
  destruct (forM _ res) as [aw|e]; simpl; eauto.
Qed.

(** C4.  With a beam width above one and the backward direction selected
    (the backward weight larger than the forward weight), [decode] raises
    an exception for every input and returns no label sequence. *)
Theorem beam_backward_raises (self : AttentionSeq2seq) xs x_lens
    beam_width max_decode_len length_penalty coverage_penalty σ :
  (1 < beam_width)%Z → (fwd_weight_0 self < bwd_weight_0 self)%Q →
  ∃ e, decode self xs x_lens beam_width max_decode_len length_penalty
              coverage_penalty σ = Raise e.
Proof.
  intros Hw Hdir. unfold decode.
  destruct (_encode xs x_lens) as [enc_out perm_idx].
  destruct (Qle_bool (bwd_weight_0 self) (fwd_weight_0 self)) eqn:E.
  { apply Qle_bool_iff in E. by apply Qlt_not_le in Hdir. }
  rewrite decide_False by lia.
  destruct (decode_infer_beam_bwd self enc_out beam_width max_decode_len
              length_penalty coverage_penalty σ) as [e He].
  exists e. unfold mbind, M_bind. by rewrite He.
Qed.

(** Without a step to run, the search returns the empty sequence and the
    initial attention weight. *)
Lemma search_utt_no_steps (self : AttentionSeq2seq) dir beam_width
    max_decode_len length_penalty enc σ :
  (max_decode_len ≤ 0)%Z →
  ∃ σ', search_utt self dir beam_width max_decode_len length_penalty enc σ
        = Ok (([], [zero_aw enc]), σ').
Proof.
  intros Hlen. unfold search_utt.
  destruct (_init_dec_state dir enc) as [st out].
  replace (Z.to_nat max_decode_len) with 0 by lia.
  unfold final_ranking, renormalize. simpl.
  destruct (Qltb 0 length_penalty); simpl; eauto.
Qed.
End attention_properties.

(* ===================================================================== *)
(** * The attention decoder on the scripted network *)
(* ===================================================================== *)

(** C2, as stated, fails: the sequence returned for the utterance is [[2]],
    the END symbol. *)
Lemma beam_search_returns_end_counterexample :
  value (decode (H := scripted) (scripted_model attend_generate_update 0) [script] [3%Z]
                2 5 0 0 heap0) = Ok ([[2]], inr [[1]], tt) ∧
  eos_0 (scripted_model attend_generate_update 0) = 2.
Proof. split; vm_compute; reflexivity. Qed.

Lemma beam_search_returns_top_witness :
  ∃ aw σ',
    _decode_infer_beam (H := scripted)
      (scripted_model attend_generate_update 0) [script] 2 5 0 0 fwd heap0
      = Ok (([[2]], aw), σ') ∧
    ∃ enc h0 σ0 complete beam σ1 top trace,
      [script] !! 0 = Some enc ∧
      search (H := scripted) (scripted_model attend_generate_update 0) fwd
             enc 2 (Z.to_nat 5) [] [h0] σ0 = Ok ((complete, beam), σ1) ∧
      hyp h0 = [0] ∧
      head (final_ranking 0 complete beam) = Some top ∧
      (∀ h, h ∈ final_ranking 0 complete beam → (score h <= score top)%Q) ∧
      hyp top = 0 :: [2] ∧
      (complete ≠ [] → list.last [2] = Some 2) ∧
      aw !! 0 = Some trace ∧
      stack_np (drop 1 (aw_steps top)) = Ok trace ∧
      length (drop 1 (aw_steps top)) = length [2].
Proof.
  destruct (_decode_infer_beam (H := scripted)
              (scripted_model attend_generate_update 0) [script] 2 5 0 0 fwd
              heap0) as [[[best_hyps aw] σ']|e] eqn:E.
  - assert (E' := E). vm_compute in E'. injection E' as <- _ _.
    exists aw, σ'. split; [reflexivity|].
    exact (beam_search_returns_top _ _ _ _ _ _ _ _ _ _ _ 0 [2] E eq_refl).
  - vm_compute in E. discriminate E.
Defined.



Lemma beam_backward_raises_witness :
  (1 < 2)%Z ∧
  (fwd_weight_0 (scripted_model attend_generate_update 1)
   < bwd_weight_0 (scripted_model attend_generate_update 1))%Q ∧
  ∃ e, decode (H := scripted) (scripted_model attend_generate_update 1) [script] [3%Z]
              2 5 0 0 heap0 = Raise e.
Proof.
  assert (Hw : (1 < 2)%Z) by lia.
  assert (Hd : (fwd_weight_0 (scripted_model attend_generate_update 1)
                < bwd_weight_0 (scripted_model attend_generate_update 1))%Q)
    by reflexivity.
  exact (conj Hw (conj Hd
           (beam_backward_raises (H := scripted) (scripted_model attend_generate_update 1)
              [script] [3%Z] 2 5 0 0 heap0 Hw Hd))).
Defined.


(** Frames that favour the blank are decoded to the empty sequence: the
    empty prefix is a candidate of every time step like any other. *)
Example ctc_blank_frames_return_empty :
  BeamSearchDecoder_call (BeamSearchDecoder_init 0 None)
    (of_lists 0%N 1 2 2 [[[9; 1]; [9; 1]]]%N) [2%Z] 2 0%N 0%N = Ok [[]].
Proof. vm_compute. reflexivity. Qed.

(* ===================================================================== *)
(** * The greedy path of the attention decoder *)
(* ===================================================================== *)

Lemma all_eos_true (eos B : nat) (y : nat → nat) :
  all_eos eos B y = true ↔ ∀ b, b < B → y b = eos.
Proof.
  unfold all_eos. rewrite forallb_forall. split.
  - intros Hy b Hb. apply Nat.eqb_eq, Hy, list_elem_of_In, elem_of_seq. lia.
  - intros Hy b Hb%list_elem_of_In%elem_of_seq. apply Nat.eqb_eq, Hy. lia.
Qed.

Lemma length_rows (B : nat) (cols : list (nat → nat)) :
  length (rows B cols) = B.
Proof. unfold rows. by rewrite length_fmap, length_seq. Qed.

Lemma rows_lookup (B : nat) (cols : list (nat → nat)) (b : nat) row :
  rows B cols !! b = Some row ↔
  b < B ∧ row = (fun y : nat → nat => y b) <$> cols.
Proof.
  unfold rows. rewrite list_lookup_fmap. split.
  - destruct (seq 0 B !! b) as [b'|] eqn:E; [|done].
    apply lookup_seq in E as [-> ?]. by intros [= <-].
  - intros [Hb ->]. by rewrite lookup_seq_lt.
Qed.

Lemma length_reverse_prefix (k : nat) (row : list nat) :
  length (reverse_prefix k row) = length row.
Proof.
  unfold reverse_prefix.
  by rewrite length_app, length_reverse, <-length_app, take_drop.
Qed.

Section greedy_loop_facts.
Context `{BatchLayers}.

(** The columns a run of the loop appends: at most one per pass, one at
    least when a pass is made; the run ends before its last pass only on a
    column that is [eos] for every utterance, and on the first such
    column. *)
Lemma greedy_loop_columns (self : AttentionSeq2seq) dir enc_out n s acc :
  ∃ new,
    g_best_hyps (greedy_loop self dir enc_out n s acc)
      = g_best_hyps acc ++ new ∧
    length new ≤ n ∧ (1 ≤ n → 1 ≤ length new) ∧
    (length new < n →
       ∃ y, list.last new = Some y ∧
            all_eos (eos_0 self) (batch_size enc_out) y = true) ∧
    (∀ t y, S t < length new → new !! t = Some y →
            all_eos (eos_0 self) (batch_size enc_out) y = false).
Proof.
  revert s acc. induction n as [|n IH]; intros s acc; simpl.
  - exists []. rewrite app_nil_r. repeat split; simpl; try lia; try done.
  - set (s' := greedy_step self dir enc_out s).
    destruct (match dir with
              | fwd => (g_y_lens acc, g_eos_flag acc)
              | bwd => count_lengths _ _ _ _ _
              end) as [yl ef].
    destruct (all_eos _ _ (g_y s')) eqn:Eall.
    + exists [g_y s']. simpl.
      split; [done|]. split; [lia|]. split; [lia|]. split.
      * intros _. by exists (g_y s').
      * intros t y Ht. lia.
    + match goal with |- context [greedy_loop _ _ _ n s' ?a] =>
        destruct (IH s' a) as (new & -> & Hlen & Hpos & Hstop & Hrun) end.
      simpl. exists (g_y s' :: new). rewrite <-app_assoc. simpl.
      split; [done|]. split; [lia|]. split; [lia|]. split.
      * intros Hlt. destruct Hstop as (y & Hy & Hall); [lia|].
        exists y. split; [|done]. destruct new; [done|]. done.
      * intros [|t] y Ht Hy; simpl in Hy.
        -- by injection Hy as <-.
        -- apply (Hrun t); [lia | done].
Qed.

Lemma greedy_init_acc (self : AttentionSeq2seq) dir enc_out :
  g_best_hyps (greedy_init self dir enc_out).2 = [] ∧
  g_y_lens (greedy_init self dir enc_out).2 = (fun _ => 0) ∧
  g_eos_flag (greedy_init self dir enc_out).2 = (fun _ => false).
Proof. unfold greedy_init. by destruct (binit_dec_state dir enc_out). Qed.

(** The sequences are returned as one row per utterance, all rows of the
    length [n] of the run, which is at least one and at most
    [max_decode_len]. *)
Theorem greedy_returns_rows (self : AttentionSeq2seq) enc_out
    max_decode_len dir best_hyps trace :
  _decode_infer_greedy' self enc_out max_decode_len dir
    = Ok (best_hyps, trace) →
  length best_hyps = batch_size enc_out ∧
  ∃ n, 1 ≤ n ∧ (Z.of_nat n ≤ max_decode_len)%Z ∧
       Forall (fun row => length row = n) best_hyps.
Proof.
  unfold _decode_infer_greedy'. destruct (negb _); [done|].
  pose proof (greedy_init_acc self dir enc_out) as (E0 & _ & _).
  destruct (greedy_init self dir enc_out) as [s acc0]. simpl in E0.
  destruct (greedy_loop_columns self dir enc_out (Z.to_nat max_decode_len)
              s acc0) as (new & E & Hlen & _ & _ & _).
  rewrite E0 in E. simpl in E. rewrite E.
  destruct new as [|y new]; [done|]. intros [= <- _].
  assert (Hrows : Forall (fun row => length row = length (y :: new))
                    (rows (batch_size enc_out) (y :: new))).
  { apply list.Forall_forall. intros row (b & Hb)%list_elem_of_lookup.
    apply rows_lookup in Hb as [_ ->]. by rewrite length_fmap. }
  split.
  - destruct dir; [|rewrite length_imap]; apply length_rows.
  - exists (length (y :: new)). split; [simpl; lia|].
    split; [simpl in *; lia|]. destruct dir; [done|].
    apply list.Forall_forall. intros row (b & Hb)%list_elem_of_lookup.
    rewrite list_lookup_imap in Hb.
    destruct (rows _ _ !! b) as [row0|] eqn:E'; [|done].
    injection Hb as <-. rewrite length_reverse_prefix.
    rewrite list.Forall_forall in Hrows. apply Hrows.
    by eapply list_elem_of_lookup_2.
Qed.

(** With the direction [decode] can select (the backward one only under a
    positive backward weight) the greedy path returns exactly when there
    is a pass to make: for [max_decode_len <= 0] nothing was appended for
    [torch.cat], which raises. *)
Theorem greedy_returns_iff_steps (self : AttentionSeq2seq) enc_out
    max_decode_len dir :
  (dir = bwd → (0 < bwd_weight_0 self)%Q) →
  ((1 ≤ max_decode_len)%Z →
     ∃ r, _decode_infer_greedy' self enc_out max_decode_len dir = Ok r) ∧
  ((max_decode_len ≤ 0)%Z →
     _decode_infer_greedy' self enc_out max_decode_len dir
       = Raise RuntimeError).
Proof.
  intros Hdir. unfold _decode_infer_greedy'.
  assert (Hassert : match dir with
                    | fwd => true
                    | bwd => Qltb 0 (bwd_weight_0 self)
                    end = true).
  { destruct dir; [done|].
    destruct (Qltb 0 (bwd_weight_0 self)) eqn:E; [done|].
    apply Qltb_false_le in E. specialize (Hdir eq_refl). lra. }
  rewrite Hassert. simpl.
  pose proof (greedy_init_acc self dir enc_out) as (E0 & _ & _).
  destruct (greedy_init self dir enc_out) as [s acc0]. simpl in E0.
  split; intros Hlen.
  - destruct (greedy_loop_columns self dir enc_out (Z.to_nat max_decode_len)
                s acc0) as (new & E & _ & Hpos & _ & _).
    rewrite E0 in E. simpl in E. rewrite E.
    destruct new as [|y new]; [simpl in Hpos; lia|]. eauto.
  - replace (Z.to_nat max_decode_len) with 0 by lia. simpl. by rewrite E0.
Qed.
End greedy_loop_facts.

(** ** The symbols before the first [eos] *)

Lemma before_from_eos (eos : nat) (l : list nat) :
  before_eos eos l ++ from_eos eos l = l.
Proof.
  induction l as [|x l IH]; simpl; [done|].
  destruct (x =? eos); simpl; [done | by rewrite IH].
Qed.

Lemma before_eos_no_eos (eos : nat) (l : list nat) :
  Forall (fun x => x ≠ eos) (before_eos eos l).
Proof.
  induction l as [|x l IH]; simpl; [constructor|].
  destruct (Nat.eqb_spec x eos); constructor; done.
Qed.

Lemma before_eos_snoc (eos : nat) (l : list nat) (x : nat) :
  before_eos eos (l ++ [x]) =
  if length (before_eos eos l) =? length l
  then (if x =? eos then l else l ++ [x])
  else before_eos eos l.
Proof.
  induction l as [|a l IH]; simpl.
  - by destruct (x =? eos).
  - destruct (a =? eos); simpl; [done|]. rewrite IH.
    destruct (length (before_eos eos l) =? length l); [|done].
    by destruct (x =? eos).
Qed.

Lemma length_before_eos_le (eos : nat) (l : list nat) :
  length (before_eos eos l) ≤ length l.
Proof.
  rewrite <-(before_from_eos eos l) at 2. rewrite length_app. lia.
Qed.

Lemma reverse_prefix_before_eos (eos : nat) (row : list nat) :
  reverse_prefix (length (before_eos eos row)) row
  = reverse (before_eos eos row) ++ from_eos eos row.
Proof.
  unfold reverse_prefix. rewrite <-(before_from_eos eos row) at 2 4.
  by rewrite take_app_length, drop_app_length.
Qed.

(** The reversal of the symbols before the first [eos] moves no [eos]. *)
Lemma reverse_prefix_eos_positions (eos : nat) (row : list nat) (t : nat) :
  reverse_prefix (length (before_eos eos row)) row !! t = Some eos ↔
  row !! t = Some eos.
Proof.
  rewrite reverse_prefix_before_eos.
  rewrite <-(before_from_eos eos row) at 3.
  pose proof (before_eos_no_eos eos row) as Hno.
  destruct (decide (t < length (before_eos eos row))) as [Hlt|Hge].
  - rewrite !lookup_app_l by (by rewrite ?length_reverse).
    rewrite list.Forall_forall in Hno. split; intros Ht.
    + exfalso. apply (Hno eos); [|done].
      apply list_elem_of_lookup_2 in Ht. by rewrite elem_of_reverse in Ht.
    + exfalso. apply (Hno eos); [|done]. by apply list_elem_of_lookup_2 in Ht.
  - rewrite !lookup_app_r by (rewrite ?length_reverse; lia).
    by rewrite length_reverse.
Qed.

Section greedy_bwd_facts.
Context `{BatchLayers}.

Lemma count_lengths_spec (eos B : nat) (y : nat → nat) y_lens eos_flag :
  ∀ b,
    (count_lengths eos B y y_lens eos_flag).1 b =
      (if decide (b < B)
       then if eos_flag b then y_lens b
            else if y b =? eos then y_lens b else S (y_lens b)
       else y_lens b) ∧
    (count_lengths eos B y y_lens eos_flag).2 b =
      (if decide (b < B) then eos_flag b || (y b =? eos) else eos_flag b).
Proof.
  unfold count_lengths. induction B as [|B IH]; intros b.
  - cbn [seq foldl fst snd]. split; case_decide; done || lia.
  - rewrite seq_S, foldl_app. cbn [foldl Nat.add].
    destruct (foldl _ (y_lens, eos_flag) (seq 0 B)) as [yl ef] eqn:E.
    cbn [fst snd] in IH.
    assert (HB : yl B = y_lens B ∧ ef B = eos_flag B).
    { destruct (IH B) as [HB1 HB2].
      rewrite decide_False in HB1 by lia. by rewrite decide_False in HB2 by lia. }
    destruct HB as [HylB HefB]. destruct (IH b) as [Hyl Hef].
    destruct (decide (b = B)) as [->|Hne].
    + rewrite !decide_True by lia. rewrite HefB.
      destruct (eos_flag B); cbn [fst snd orb]; [done|].
      destruct (y B =? eos); cbn [fst snd]; rewrite ?fn_lookup_insert;
        [done|]. by rewrite HylB.
    + assert (E1 : (ef B = true ∨ ef B = false)) by (destruct (ef B); auto).
      assert (Hyl' : (let '(y_lens0, eos_flag0) := (yl, ef) in
                      if eos_flag0 B then (y_lens0, eos_flag0)
                      else if y B =? eos
                           then (y_lens0, <[B:=true]> eos_flag0)
                           else (<[B:=S (y_lens0 B)]> y_lens0, eos_flag0)).1 b
                     = yl b ∧
                     (let '(y_lens0, eos_flag0) := (yl, ef) in
                      if eos_flag0 B then (y_lens0, eos_flag0)
                      else if y B =? eos
                           then (y_lens0, <[B:=true]> eos_flag0)
                           else (<[B:=S (y_lens0 B)]> y_lens0, eos_flag0)).2 b
                     = ef b).
      { cbn beta iota. destruct (ef B); cbn [fst snd]; [done|].
        destruct (y B =? eos); cbn [fst snd];
          by rewrite ?fn_lookup_insert_ne by done. }
      destruct Hyl' as [-> ->]. rewrite Hyl, Hef.
      split; repeat case_decide; done || lia.
Qed.

Lemma greedy_loop_lengths (self : AttentionSeq2seq) enc_out n s acc :
  lengths_counted (eos_0 self) (batch_size enc_out) (g_best_hyps acc)
                  (g_y_lens acc) (g_eos_flag acc) →
  let acc' := greedy_loop self bwd enc_out n s acc in
  lengths_counted (eos_0 self) (batch_size enc_out) (g_best_hyps acc')
                  (g_y_lens acc') (g_eos_flag acc').
Proof.
  revert s acc. induction n as [|n IH]; intros s acc Hinv; simpl; [done|].
  set (s' := greedy_step self bwd enc_out s).
  pose proof (count_lengths_spec (eos_0 self) (batch_size enc_out) (g_y s')
                (g_y_lens acc) (g_eos_flag acc)) as Hc.
  destruct (count_lengths _ _ _ _ _) as [yl ef]. simpl in Hc.
  assert (Hinv' : lengths_counted (eos_0 self) (batch_size enc_out)
                    (g_best_hyps acc ++ [g_y s']) yl ef).
  { intros b row [Hb ->]%rows_lookup. rewrite fmap_app. simpl.
    destruct (Hinv b ((fun y : nat → nat => y b) <$> g_best_hyps acc))
      as [Hyl Hef]; [by apply rows_lookup|].
    destruct (Hc b) as [-> ->]. rewrite !decide_True by done.
    rewrite before_eos_snoc, Hef, Hyl.
    pose proof (length_before_eos_le (eos_0 self)
                  ((fun y : nat → nat => y b) <$> g_best_hyps acc)) as Hle.
    destruct (Nat.eqb_spec (length (before_eos (eos_0 self)
                ((fun y : nat → nat => y b) <$> g_best_hyps acc)))
                (length ((fun y : nat → nat => y b) <$> g_best_hyps acc)))
      as [Heq|Hneq]; simpl.
    - destruct (g_y s' b =? eos_0 self); simpl.
      + rewrite length_app. simpl. split; [done|].
        symmetry. apply negb_true_iff, Nat.eqb_neq. lia.
      + rewrite Nat.eqb_refl. rewrite length_app. simpl. split; [lia|done].
    - rewrite length_app. simpl. split; [done|].
      symmetry. apply negb_true_iff, Nat.eqb_neq. lia. }
  destruct (all_eos _ _ (g_y s')); [done|]. by apply IH.
Qed.
End greedy_bwd_facts.

Lemma all_eos_false (eos B : nat) (y : nat → nat) :
  all_eos eos B y = false → ∃ b, b < B ∧ y b ≠ eos.
Proof.
  unfold all_eos. induction B as [|B IH]; [done|].
  rewrite seq_S, forallb_app. simpl. rewrite andb_true_r.
  intros [E|E]%andb_false_iff.
  - destruct (IH E) as (b & ? & ?). exists b. split; [lia | done].
  - exists B. split; [lia|]. by apply Nat.eqb_neq.
Qed.

Section greedy_result_facts.
Context `{BatchLayers}.

(** What the greedy path returns, from the columns of its loop: the rows
    of the columns, in the backward direction with the symbols before the
    first [eos] of each row reversed. *)
Lemma greedy_result (self : AttentionSeq2seq) enc_out max_decode_len dir
    best_hyps trace :
  _decode_infer_greedy' self enc_out max_decode_len dir
    = Ok (best_hyps, trace) →
  let acc := greedy_loop self dir enc_out (Z.to_nat max_decode_len)
               (greedy_init self dir enc_out).1
               (greedy_init self dir enc_out).2 in
  g_best_hyps acc ≠ [] ∧
  best_hyps =
    match dir with
    | fwd => rows (batch_size enc_out) (g_best_hyps acc)
    | bwd => (fun row => reverse (before_eos (eos_0 self) row)
                         ++ from_eos (eos_0 self) row)
             <$> rows (batch_size enc_out) (g_best_hyps acc)
    end.
Proof.
  unfold _decode_infer_greedy'. destruct (negb _); [done|].
  pose proof (greedy_init_acc self dir enc_out) as (E0 & Eyl & Eef).
  destruct (greedy_init self dir enc_out) as [s acc0]. simpl in *.
  intros E.
  destruct (g_best_hyps (greedy_loop self dir enc_out
              (Z.to_nat max_decode_len) s acc0)) as [|y cols] eqn:Ecols;
    [done|].
  injection E as <- _. split; [done|]. destruct dir; [done|].
  pose proof (greedy_loop_lengths self enc_out (Z.to_nat max_decode_len)
                s acc0) as Hinv. simpl in Hinv. rewrite Ecols in Hinv.
  apply list_eq. intros b. rewrite list_lookup_imap, list_lookup_fmap.
  destruct (rows _ _ !! b) as [row|] eqn:Erow; [|done]. simpl.
  destruct Hinv with b row as [-> _]; [|done|].
  - rewrite E0, Eyl, Eef. by intros b' row' [_ ->]%rows_lookup.
  - by rewrite reverse_prefix_before_eos.
Qed.

(** Row [b] of the result has the length of the run and has [eos] where
    the symbols emitted for the utterance [b] have it. *)
Lemma greedy_result_eos_positions (self : AttentionSeq2seq) enc_out
    max_decode_len dir best_hyps trace b row :
  _decode_infer_greedy' self enc_out max_decode_len dir
    = Ok (best_hyps, trace) →
  best_hyps !! b = Some row →
  let cols := g_best_hyps (greedy_loop self dir enc_out
                (Z.to_nat max_decode_len) (greedy_init self dir enc_out).1
                (greedy_init self dir enc_out).2) in
  b < batch_size enc_out ∧ length row = length cols ∧
  ∀ t, row !! t = Some (eos_0 self) ↔
       ∃ y, cols !! t = Some y ∧ y b = eos_0 self.
Proof.
  intros [_ ->]%greedy_result Hb. cbv zeta.
  set (cols := g_best_hyps _) in *.
  assert (Hraw : ∀ t, ((fun y : nat → nat => y b) <$> cols) !! t
                      = Some (eos_0 self) ↔
                      ∃ y, cols !! t = Some y ∧ y b = eos_0 self).
  { intros t. rewrite list_lookup_fmap.
    destruct (cols !! t) as [y|]; simpl; [|split; [done|by intros (?&?&?)]].
    split; [intros [= ?]; eauto | by intros (? & [= <-] & ->)]. }
  destruct dir.
  - apply rows_lookup in Hb as [Hlt ->]. by rewrite length_fmap.
  - rewrite list_lookup_fmap in Hb.
    destruct (rows _ cols !! b) as [raw|] eqn:Eraw; [|done].
    injection Hb as <-. apply rows_lookup in Eraw as [Hlt ->].
    split; [done|]. split.
    + rewrite length_app, length_reverse, <-length_app, before_from_eos.
      by rewrite length_fmap.
    + intros t. rewrite <-Hraw, <-reverse_prefix_before_eos.
      apply reverse_prefix_eos_positions.
Qed.

(** The batch stops on the first step at which every utterance emits
    [eos]: a result shorter than [max_decode_len] has [eos] at the end of
    every row, and at no earlier position in every row at once. *)
Theorem greedy_stops_when_all_eos (self : AttentionSeq2seq) enc_out
    max_decode_len dir best_hyps trace :
  _decode_infer_greedy' self enc_out max_decode_len dir
    = Ok (best_hyps, trace) →
  (∀ row, row ∈ best_hyps →
     (Z.of_nat (length row) < max_decode_len)%Z →
     list.last row = Some (eos_0 self)) ∧
  (∀ t row0, row0 ∈ best_hyps → S t < length row0 →
     ∃ row, row ∈ best_hyps ∧ row !! t ≠ Some (eos_0 self)).
Proof.
  intros E.
  pose proof (greedy_init_acc self dir enc_out) as (E0 & _ & _).
  destruct (greedy_loop_columns self dir enc_out (Z.to_nat max_decode_len)
              (greedy_init self dir enc_out).1
              (greedy_init self dir enc_out).2)
    as (cols & Ecols & Hlen & _ & Hstop & Hrun).
  rewrite E0 in Ecols. simpl in Ecols.
  assert (Hres := greedy_result_eos_positions self enc_out max_decode_len
                    dir best_hyps trace).
  cbv zeta in Hres. rewrite Ecols in Hres. split.
  - intros row (b & Hb)%list_elem_of_lookup Hshort.
    destruct (Hres b row E Hb) as (Hlt & Hlen' & Hpos).
    destruct Hstop as (y & Hy & Hall); [lia|].
    rewrite last_lookup, Hlen'. apply Hpos. exists y.
    split; [by rewrite <-last_lookup|]. by apply (proj1 (all_eos_true _ _ y) Hall).
  - intros t row0 (b0 & Hb0)%list_elem_of_lookup Ht.
    destruct (Hres b0 row0 E Hb0) as (_ & Hlen0 & _).
    destruct (cols !! t) as [y|] eqn:Ey;
      [|apply lookup_ge_None in Ey; lia].
    destruct (all_eos_false _ _ y (Hrun t y ltac:(lia) Ey)) as (b & Hb & Hne).
    destruct (best_hyps !! b) as [row|] eqn:Erow.
    + exists row. split; [by eapply list_elem_of_lookup_2|].
      destruct (Hres b row E Erow) as (_ & _ & Hpos).
      intros (y' & Ey' & Heos)%Hpos. congruence.
    + apply lookup_ge_None in Erow.
      apply greedy_result in E as [_ Eq]. rewrite Eq in Erow.
      destruct dir; rewrite ?length_fmap, length_rows in Erow; lia.
Qed.

(** In the backward direction every returned row is the row of the symbols
    emitted for its utterance with the symbols before the first [eos]
    reversed; the first [eos] and what follows it stay in place. *)
Theorem greedy_bwd_reverses_before_eos (self : AttentionSeq2seq) enc_out
    max_decode_len best_hyps trace :
  _decode_infer_greedy' self enc_out max_decode_len bwd
    = Ok (best_hyps, trace) →
  best_hyps =
    (fun row => reverse (before_eos (eos_0 self) row)
                ++ from_eos (eos_0 self) row)
    <$> rows (batch_size enc_out)
             (g_best_hyps (greedy_loop self bwd enc_out
                (Z.to_nat max_decode_len) (greedy_init self bwd enc_out).1
                (greedy_init self bwd enc_out).2)).
Proof. by intros [_ ->]%greedy_result. Qed.
End greedy_result_facts.

(* ===================================================================== *)
(** * The greedy path on the scripted batch *)
(* ===================================================================== *)

Lemma greedy_returns_rows_witness :
  _decode_infer_greedy' (H := scripted_batch)
    (scripted_model conditional 1) batch_script 5 bwd
    = Ok ([[3; 1; 2]; [2; 2; 2]], [1; 2; 3]) ∧
  length [[3; 1; 2]; [2; 2; 2]] = 2 ∧
  ∃ n, 1 ≤ n ∧ (Z.of_nat n ≤ 5)%Z ∧
       Forall (fun row => length row = n) [[3; 1; 2]; [2; 2; 2]].
Proof.
  split; [reflexivity|].
  exact (greedy_returns_rows (H := scripted_batch)
           (scripted_model conditional 1) batch_script 5 bwd _ _ eq_refl).
Defined.

Lemma greedy_returns_iff_steps_witness :
  (bwd = bwd → (0 < bwd_weight_0 (scripted_model conditional 1))%Q) ∧
  (((1 ≤ 5)%Z →
     ∃ r, _decode_infer_greedy' (H := scripted_batch)
            (scripted_model conditional 1) batch_script 5 bwd = Ok r) ∧
   ((5 ≤ 0)%Z →
     _decode_infer_greedy' (H := scripted_batch)
       (scripted_model conditional 1) batch_script 5 bwd
       = Raise RuntimeError)).
Proof.
  assert (Hdir : bwd = bwd → (0 < bwd_weight_0 (scripted_model conditional 1))%Q)
    by (intros _; reflexivity).
  split; [exact Hdir|].
  exact (greedy_returns_iff_steps (H := scripted_batch)
           (scripted_model conditional 1) batch_script 5 bwd Hdir).
Defined.

Lemma greedy_stops_when_all_eos_witness :
  _decode_infer_greedy' (H := scripted_batch)
    (scripted_model attend_generate_update 0) batch_script 5 fwd
    = Ok ([[1; 3; 2]; [2; 2; 2]], [1; 2; 3]) ∧
  (∀ row, row ∈ [[1; 3; 2]; [2; 2; 2]] →
     (Z.of_nat (length row) < 5)%Z → list.last row = Some 2) ∧
  (∀ t row0, row0 ∈ [[1; 3; 2]; [2; 2; 2]] → S t < length row0 →
     ∃ row, row ∈ [[1; 3; 2]; [2; 2; 2]] ∧ row !! t ≠ Some 2).
Proof.
  split; [reflexivity|].
  exact (greedy_stops_when_all_eos (H := scripted_batch)
           (scripted_model attend_generate_update 0) batch_script 5 fwd
           _ _ eq_refl).
Defined.

Lemma greedy_bwd_reverses_before_eos_witness :
  _decode_infer_greedy' (H := scripted_batch)
    (scripted_model attend_update_generate 1) batch_script 5 bwd
    = Ok ([[3; 1; 2]; [2; 2; 2]], [1; 2; 3]) ∧
  [[3; 1; 2]; [2; 2; 2]] =
    (fun row => reverse (before_eos 2 row) ++ from_eos 2 row)
    <$> rows 2 (g_best_hyps
                  (greedy_loop (H := scripted_batch)
                     (scripted_model attend_update_generate 1) bwd
                     batch_script 5
                     (greedy_init (scripted_model attend_update_generate 1)
                                  bwd batch_script).1
                     (greedy_init (scripted_model attend_update_generate 1)
                                  bwd batch_script).2)).
Proof.
  split; [reflexivity|].
  exact (greedy_bwd_reverses_before_eos (H := scripted_batch)
           (scripted_model attend_update_generate 1) batch_script 5
           _ _ eq_refl).
Defined.

(* ===================================================================== *)
(** * The CTC decoder: labels, frames and weights *)
(* ===================================================================== *)

(** An invariant that depends on the number of passes made. *)
Lemma foldlM_invariant_idx {A B} (P : nat → A → Prop)
    (f : A → B → result A) (l : list B) (a a' : A) :
  (∀ i a x a', l !! i = Some x → P i a → f a x = Ok a' → P (S i) a') →
  P 0 a → foldlM f l a = Ok a' → P (length l) a'.
Proof.
  revert P a. induction l as [|x l IH]; simpl; intros P a Hf Ha E.
  - congruence.
  - apply bind_Ok in E as (a1 & E1 & E2).
    apply (IH (fun i => P (S i)) a1); [|by apply (Hf 0 a x)|done].
    intros i a0 x0 a0' Hi. by apply (Hf (S i)).
Qed.

Lemma foldlM_Raise {A B} (f : A → B → result A) (l : list B) (a : A) e :
  foldlM f l a = Raise e → ∃ a0 x, x ∈ l ∧ f a0 x = Raise e.
Proof.
  revert a. induction l as [|x l IH]; simpl; intros a E; [done|].
  destruct (f a x) as [a1|e1] eqn:E1; simpl in E.
  - destruct (IH a1 E) as (a0 & x0 & ? & ?). exists a0, x0.
    split; [by right | done].
  - injection E as ->. exists a, x. split; [by left | done].
Qed.

Lemma forM_length {A B} (f : A → result B) (l : list A) ys :
  forM f l = Ok ys → length ys = length l.
Proof.
  revert ys. induction l as [|x l IH]; simpl; intros ys E.
  - by injection E as <-.
  - apply bind_Ok in E as (y & _ & E).
    apply bind_Ok in E as (ys' & Eys & [= <-]). simpl. by rewrite (IH ys').
Qed.

Lemma forM_Raise {A B} (f : A → result B) (l : list A) x e :
  x ∈ l → f x = Raise e →
  ∃ x' e', x' ∈ l ∧ f x' = Raise e' ∧ forM f l = Raise e'.
Proof.
  induction l as [|x0 l IH]; [by intros ?%elem_of_nil|].
  intros Hin Hx. simpl. destruct (f x0) as [y0|e0] eqn:E0; simpl.
  - apply elem_of_cons in Hin as [->|Hin]; [congruence|].
    destruct (IH Hin Hx) as (x' & e' & ? & ? & ->).
    exists x', e'. split; [by right | done].
  - exists x0, e0. split; [by left | done].
Qed.

Lemma slice_to_nil {A} (n : Z) : slice_to n ([] : list A) = [].
Proof. unfold slice_to. destruct (0 <=? n)%Z; apply take_nil. Qed.

Section ctc_range.
Context {R : Type} `{LogScore R}.
Implicit Types (nb beam : list (@entry R)) (k p : prefix).

Lemma labels_within_S blank C n p :
  labels_within blank C n p → labels_within blank C (S n) p.
Proof. intros [? ?]. split; [lia | done]. Qed.

Lemma labels_within_snoc blank C n p c :
  labels_within blank C n p → c < C → Z.of_nat c ≠ blank →
  labels_within blank C (S n) (p ++ [c]).
Proof.
  intros [Hlen Hp] Hc Hb. split.
  - rewrite length_app. simpl. lia.
  - apply Forall_app. split; [done|]. by repeat constructor.
Qed.

Lemma propose_within blank C n c p_t nb (e : entry) :
  c < C →
  (∀ e', e' ∈ nb → labels_within blank C (S n) e'.1) →
  labels_within blank C n e.1 →
  ∀ e', e' ∈ propose blank c p_t nb e → labels_within blank C (S n) e'.1.
Proof.
  destruct e as [p [p_b p_nb]]. simpl. intros Hc Hnb Hp.
  set (W := fun nb1 : list (@entry R) =>
              ∀ e', e' ∈ nb1 → labels_within blank C (S n) e'.1).
  assert (Hset : ∀ nb1 k v, W nb1 → labels_within blank C (S n) k →
                 W (nb_setitem nb1 k v)).
  { intros nb1 k v H1 Hk e [->|?]%elem_of_nb_setitem; [done | by apply H1]. }
  assert (Hget : ∀ nb1 k, W nb1 → labels_within blank C (S n) k →
                 W (nb_getitem nb1 k).2).
  { intros nb1 k H1 Hk e [->|?]%elem_of_nb_getitem; [done | by apply H1]. }
  apply labels_within_S in Hp as Hp'.
  change (W (propose blank c p_t nb (p, (p_b, p_nb)))).
  unfold propose.
  destruct (decide (Z.of_nat c = blank)) as [Hb|Hb].
  - specialize (Hget nb p Hnb Hp').
    destruct (nb_getitem nb p) as [[b0 n0] nb1]. by apply Hset.
  - assert (Hpc : labels_within blank C (S n) (p ++ [c]))
      by (by apply labels_within_snoc).
    specialize (Hget nb (p ++ [c]) Hnb Hpc) as Hnb1.
    destruct (nb_getitem nb (p ++ [c])) as [[b0 n0] nb1]. simpl in Hnb1.
    destruct (decide (Some c = prefix_end p)); [|by apply Hset].
    match goal with |- context [nb_getitem ?n p] =>
      specialize (Hget n p (Hset _ _ _ Hnb1 Hpc) Hp') as Hnb2;
      destruct (nb_getitem n p) as [[b1 n1] nb2] end.
    by apply Hset.
Qed.

Lemma candidates_within blank log_probs b t n beam nb :
  (∀ e, e ∈ beam → labels_within blank (shape log_probs).2 n e.1) →
  candidates blank log_probs b t beam = Ok nb →
  ∀ e, e ∈ nb → labels_within blank (shape log_probs).2 (S n) e.1.
Proof.
  intros Hbeam E. unfold candidates in E.
  set (C := (shape log_probs).2) in *.
  eapply (foldlM_invariant_idx
            (fun _ nb => ∀ e, e ∈ nb → labels_within blank C (S n) e.1));
    [|by intros e ?%elem_of_nil|exact E].
  intros i nb0 c nb1 [-> Hc]%lookup_seq Hnb0 E1. simpl in *.
  apply bind_Ok in E1 as (p_t & _ & [= <-]).
  clear E. revert nb0 Hnb0.
  induction beam as [|e beam IH]; intros nb0 Hnb0; simpl; [done|].
  apply IH.
  - intros e' He'. apply Hbeam. by right.
  - apply propose_within; [done | done |]. apply Hbeam. by left.
Qed.

Lemma final_beam_within blank log_probs b beam_width time beam :
  final_beam blank log_probs b beam_width time = Ok beam →
  ∀ e, e ∈ beam →
       labels_within blank (shape log_probs).2 (Z.to_nat time) e.1.
Proof.
  intros E. unfold final_beam in E.
  rewrite <-(length_seq (Z.to_nat time) 0).
  eapply (foldlM_invariant_idx
            (fun n beam => ∀ e, e ∈ beam →
               labels_within blank (shape log_probs).2 n e.1));
    [| |exact E].
  - intros i beam0 t beam1 _ Hbeam0 E1.
    apply bind_Ok in E1 as (nb & Enb & [= <-]).
    intros e He%slice_to_subseteq%sorted_desc_elem_of.
    by apply (candidates_within _ _ _ _ _ _ _ Hbeam0 Enb).
  - intros e ->%list_elem_of_singleton. split; [simpl; lia | constructor].
Qed.

Lemma decode_utt_within blank log_probs x_lens beam_width b p :
  decode_utt blank log_probs x_lens beam_width b = Ok p →
  ∃ time, x_lens !! b = Some time ∧
          labels_within blank (shape log_probs).2 (Z.to_nat time) p.
Proof.
  intros Ep.
  apply bind_Ok in Ep as (time & Etime%getitem_Ok & Ep).
  apply bind_Ok in Ep as (beam & Ebeam & Ep).
  apply bind_Ok in Ep as (top & Etop%getitem_Ok & [= <-]).
  exists time. split; [done|].
  apply (final_beam_within _ _ _ _ _ _ Ebeam).
  by eapply list_elem_of_lookup_2.
Qed.

(** For every beam width and every blank index, a call that returns gives
    one label sequence per utterance; the sequence of the utterance [b]
    has at most [x_lens[b]] labels, each of them a class index below
    [num_classes] and none the blank. *)
Theorem ctc_labels_in_range (self : BeamSearchDecoder) log_probs x_lens
    beam_width (alpha beta : R) out :
  BeamSearchDecoder_call self log_probs x_lens beam_width alpha beta
    = Ok out →
  length out = (shape log_probs).1.1 ∧
  ∀ b p, out !! b = Some p →
    ∃ time, x_lens !! b = Some time ∧
            length p ≤ Z.to_nat time ∧
            Forall (fun c => c < (shape log_probs).2 ∧
                             Z.of_nat c ≠ _blank self) p.
Proof.
  unfold BeamSearchDecoder_call. intros E. split.
  - apply forM_length in E. by rewrite length_seq in E.
  - intros b p Hb.
    assert (Hlt : b < (shape log_probs).1.1).
    { apply forM_length in E. rewrite length_seq in E.
      apply lookup_lt_Some in Hb. lia. }
    destruct (forM_lookup _ _ _ b b E) as (p' & Hp' & Ep).
    { by apply lookup_seq. }
    assert (p' = p) as -> by congruence.
    destruct (decode_utt_within _ _ _ _ _ _ Ep) as (time & ? & ? & ?).
    by exists time.
Qed.

(** The only exception of the decoder is the IndexError of a subscript. *)
Lemma decode_utt_error blank log_probs x_lens beam_width b e :
  decode_utt blank log_probs x_lens beam_width b = Raise e →
  e = IndexError.
Proof.
  unfold decode_utt, getitem. destruct (x_lens !! b) as [time|]; simpl;
    [|congruence].
  destruct (final_beam blank log_probs b beam_width time) as [beam|e']
    eqn:E; simpl.
  - destruct beam as [|top beam]; simpl; congruence.
  - intros [= ->].
    apply foldlM_Raise in E as (beam & t & _ & E). unfold time_step in E.
    destruct (candidates blank log_probs b t beam) as [nb|e'] eqn:E';
      simpl in E; [done|]. injection E as ->.
    apply foldlM_Raise in E' as (nb & c & _ & E'). unfold getitem3 in E'.
    destruct (shape log_probs) as [[B T] C].
    destruct (_ && _); simpl in E'; congruence.
Qed.

(** Beyond the frames of the matrix no beam is left to return: the time
    step [T] raises, or there is no class and the beam is empty. *)
Lemma final_beam_out_of_range blank log_probs (B T C b : nat) beam_width
    time beam :
  shape log_probs = (B, T, C) → (Z.of_nat T < time)%Z →
  final_beam blank log_probs b beam_width time = Ok beam → beam = [].
Proof.
  intros Hs Ht. unfold final_beam.
  replace (Z.to_nat time) with (T + S (Z.to_nat time - S T)) by lia.
  rewrite seq_app, foldlM_app. simpl. intros E.
  apply bind_Ok in E as (beam0 & _ & E).
  apply bind_Ok in E as (beam1 & E1 & E).
  unfold time_step in E1. apply bind_Ok in E1 as (nb & Enb & [= <-]).
  unfold candidates in Enb. rewrite Hs in Enb. simpl in Enb.
  destruct C as [|C].
  - simpl in Enb. injection Enb as <-.
    replace (slice_to beam_width (sorted_beam [])) with ([] : list (@entry R))
      in E by (symmetry; apply (slice_to_nil beam_width)).
    revert E. generalize (seq (S T) (Z.to_nat time - S T)). intros l.
    induction l as [|t l IH]; simpl; [congruence|].
    unfold time_step at 2, candidates. rewrite Hs. simpl.
    replace (slice_to beam_width (sorted_beam [])) with ([] : list (@entry R))
      by (symmetry; apply (slice_to_nil beam_width)).
    exact IH.
  - simpl in Enb. unfold getitem3 in Enb. rewrite Hs in Enb.
    rewrite Nat.ltb_irrefl, andb_false_r in Enb. done.
Qed.

(** The lengths [x_lens] are not checked against the matrix: with more
    frames asked for an utterance than [log_probs] has, the call raises
    IndexError for every beam width, and returns no sequence of any
    utterance. *)
Theorem ctc_frames_out_of_range_raise (self : BeamSearchDecoder)
    log_probs (B T C b : nat) x_lens beam_width (alpha beta : R) time :
  shape log_probs = (B, T, C) → b < B → x_lens !! b = Some time →
  (Z.of_nat T < time)%Z →
  BeamSearchDecoder_call self log_probs x_lens beam_width alpha beta
    = Raise IndexError.
Proof.
  intros Hs Hb Hx Ht. unfold BeamSearchDecoder_call. rewrite Hs. simpl.
  assert (Hraise : ∃ e, decode_utt (_blank self) log_probs x_lens
                          beam_width b = Raise e).
  { unfold decode_utt. apply getitem_Ok in Hx. rewrite Hx. simpl.
    destruct (final_beam _ log_probs b beam_width time) as [beam|e] eqn:E;
      simpl; [|eauto].
    apply (final_beam_out_of_range _ _ B T C) in E as ->; [|done..]. eauto. }
  destruct Hraise as [e He].
  destruct (forM_Raise (decode_utt (_blank self) log_probs x_lens
                          beam_width) (seq 0 B) b e)
    as (b' & e' & _ & He' & ->); [apply elem_of_seq; lia | done |].
  by apply decode_utt_error in He' as ->.
Qed.
End ctc_range.

(** ** [decode_ctc]: the labels after the shift *)

Section decode_ctc_facts.
Context {R : Type} `{LogScore R} `{!CtcLayers R}.

(** The beam search path of [decode_ctc] ([beam_width] other than one)
    returns only for the task indices [0] and [1], and every label it
    returns lies in [0 .. num_classes - 2]: the blank, index [0] of the
    CTC layer, is never among the decoded labels, so the shift by one
    gives no [-1]. *)
Theorem decode_ctc_beam_labels xs x_lens beam_width task_index best_hyps
    perm_idx :
  beam_width ≠ 1%Z →
  decode_ctc xs x_lens beam_width task_index = Ok (best_hyps, perm_idx) →
  ∃ enc_out x_lens',
    (task_index = 0%Z ∧ _encode_main xs x_lens = (enc_out, x_lens', perm_idx)
     ∨ task_index = 1%Z ∧
       _encode_sub xs x_lens = (enc_out, x_lens', perm_idx)) ∧
    Forall (Forall (fun y =>
              (0 ≤ y < Z.of_nat
                 (shape (log_softmax (fc_ctc task_index enc_out))).2 - 1)%Z))
           best_hyps.
Proof.
  intros Hw E. unfold decode_ctc in E.
  apply bind_Ok in E as ([[enc_out x_lens'] perm] & Eenc & E).
  apply bind_Ok in E as (hyps & Ehyps & [= <- <-]).
  rewrite decide_False in Ehyps by done.
  exists enc_out, x_lens'. split.
  - destruct (decide (task_index = 0%Z)); [left; split; congruence|].
    destruct (decide (task_index = 1%Z)); [right; split; congruence|done].
  - unfold decrement. apply Forall_fmap.
    eapply forM_Ok_Forall; [|exact Ehyps].
    intros b p (time & _ & _ & Hp)%decode_utt_within. simpl.
    apply Forall_fmap. eapply list.Forall_impl; [exact Hp|].
    simpl. intros c [Hc Hb]. unfold _decode_ctc_beam_np in Hb. simpl in Hb.
    lia.
Qed.
End decode_ctc_facts.

(** ** Weights: the candidates carry the whole mass *)

Lemma mass_app (l1 l2 : list (@entry N)) :
  mass (l1 ++ l2) = (mass l1 + mass l2)%N.
Proof. induction l1 as [|e l1 IH]; simpl; [done|]. rewrite IH. lia. Qed.

Lemma mass_setitem (nb : list (@entry N)) k v :
  (mass (nb_setitem nb k v) + (nb_get nb k).1 + (nb_get nb k).2
   = mass nb + v.1 + v.2)%N.
Proof.
  unfold nb_get. induction nb as [|[k1 v1] nb IH]; simpl.
  - lia.
  - destruct (decide (k = k1)) as [->|Hne]; simpl; [lia|].
    revert IH. destruct (nb_find nb k); simpl; lia.
Qed.

Lemma mass_getitem (nb : list (@entry N)) k :
  mass (nb_getitem nb k).2 = mass nb.
Proof.
  unfold nb_getitem. destruct (nb_find nb k); simpl; [done|].
  rewrite mass_app. simpl. lia.
Qed.

(** Reading and writing back [next_beam[k]] with [a] added to the first
    weight and [b] to the second. *)
Lemma mass_update (nb : list (@entry N)) k (a b : N) :
  mass (nb_setitem (nb_getitem nb k).2 k
          (((nb_getitem nb k).1.1 + a)%N, ((nb_getitem nb k).1.2 + b)%N))
  = (mass nb + a + b)%N.
Proof.
  pose proof (mass_setitem (nb_getitem nb k).2 k
                (((nb_getitem nb k).1.1 + a)%N,
                 ((nb_getitem nb k).1.2 + b)%N)) as E.
  rewrite nb_get_getitem, mass_getitem, <-nb_getitem_value in E.
  simpl in E. lia.
Qed.

Lemma mass_propose blank c (p_t : N) nb p (p_b p_nb : N) :
  mass (propose blank c p_t nb (p, (p_b, p_nb)))
  = (mass nb + (p_b + p_nb) * p_t)%N.
Proof.
  unfold propose. destruct (decide (Z.of_nat c = blank)).
  - pose proof (mass_update nb p (p_b * p_t + p_nb * p_t) 0) as E.
    destruct (nb_getitem nb p) as [[b0 n0] nb1]. simpl in *.
    rewrite N.add_0_r in E. rewrite E. lia.
  - destruct (decide (Some c ≠ prefix_end p)) as [Hne|Heq];
      destruct (decide (Some c = prefix_end p)) as [Heq'|Hne'];
      try contradiction.
    + pose proof (mass_update nb (p ++ [c]) 0 (p_b * p_t + p_nb * p_t)) as E.
      destruct (nb_getitem nb (p ++ [c])) as [[b0 n0] nb1]. simpl in *.
      rewrite N.add_0_r in E. rewrite E. lia.
    + pose proof (mass_update nb (p ++ [c]) 0 (p_b * p_t)) as E.
      destruct (nb_getitem nb (p ++ [c])) as [[b0 n0] nb1]. simpl in *.
      rewrite N.add_0_r in E.
      match goal with |- context [nb_getitem ?n p] =>
        pose proof (mass_update n p 0 (p_nb * p_t)) as E';
        destruct (nb_getitem n p) as [[b1 n1] nb2] end.
      simpl in *. rewrite N.add_0_r in E'. rewrite E', E. lia.
Qed.

Lemma mass_foldl_propose blank c (p_t : N) nb beam :
  mass (foldl (propose blank c p_t) nb beam)
  = (mass nb + mass beam * p_t)%N.
Proof.
  revert nb.
  induction beam as [|[p [p_b p_nb]] beam IH]; intros nb;
    cbn [foldl mass fst snd].
  - lia.
  - rewrite IH, mass_propose. lia.
Qed.

Lemma mass_Permutation (l l' : list (@entry N)) :
  l ≡ₚ l' → mass l = mass l'.
Proof. induction 1; simpl; lia. Qed.

Lemma mass_slice_to (n : Z) (l : list (@entry N)) :
  (mass (slice_to n l) ≤ mass l)%N.
Proof.
  assert (Htake : ∀ k, (mass (take k l) ≤ mass l)%N).
  { intros k. rewrite <-(take_drop k l) at 2. rewrite mass_app. lia. }
  unfold slice_to. destruct (0 <=? n)%Z; apply Htake.
Qed.

(** Before the beam is trimmed, the candidates of a time step hold the
    weight of the beam times the weight of the frame: extending, keeping
    and merging prefixes neither loses weight nor counts any twice.  The
    trimmed beam of the step holds that weight at most. *)
Theorem ctc_candidates_conserve_mass blank (log_probs : ndarray3 N)
    (b t : nat) beam_width beam nb :
  candidates blank log_probs b t beam = Ok nb →
  mass nb = (mass beam * frame_mass log_probs b t)%N ∧
  ∃ beam', time_step blank log_probs b beam_width beam t = Ok beam' ∧
           (mass beam' ≤ mass beam * frame_mass log_probs b t)%N.
Proof.
  intros E.
  assert (Hmass : mass nb = (mass beam * frame_mass log_probs b t)%N).
  { revert E. unfold candidates, frame_mass.
    assert (Hgen : ∀ l nb0,
      foldlM (fun next_beam c =>
                p_t ← getitem3 log_probs b t c;
                Ok (foldl (propose blank c p_t) next_beam beam)) l nb0
        = Ok nb →
      mass nb = (mass nb0
                 + mass beam * foldr N.add 0 (item log_probs b t <$> l))%N).
    { induction l as [|c l IH]; intros nb0 E; simpl in *.
      - injection E as <-. lia.
      - apply bind_Ok in E as (nb1 & E1 & E).
        apply bind_Ok in E1 as (p_t & Ep & [= <-]).
        rewrite (IH _ E), mass_foldl_propose.
        unfold getitem3 in Ep. destruct (shape log_probs) as [[B T] C].
        destruct (_ && _); [|done]. injection Ep as <-.
        rewrite N.mul_add_distr_l, N.add_assoc. reflexivity. }
    intros E. rewrite (Hgen _ _ E). simpl. lia. }
  split; [done|]. unfold time_step. rewrite E. simpl.
  eexists. split; [done|]. rewrite <-Hmass.
  etrans; [apply mass_slice_to|]. unfold sorted_beam.
  by rewrite (mass_Permutation _ _ (sorted_desc_Permutation flt key nb)).
Qed.

(* ===================================================================== *)
(** * The CTC decoder on concrete matrices, continued *)
(* ===================================================================== *)

Lemma ctc_labels_in_range_witness :
  BeamSearchDecoder_call (BeamSearchDecoder_init 0 None) frames_wide [3%Z] 2
                         0%N 0%N = Ok [[1; 2]] ∧
  length [[1; 2]] = (shape frames_wide).1.1 ∧
  ∀ b p, [[1; 2]] !! b = Some p →
    ∃ time, [3%Z] !! b = Some time ∧
            length p ≤ Z.to_nat time ∧
            Forall (fun c => c < (shape frames_wide).2 ∧
                             Z.of_nat c ≠ _blank (BeamSearchDecoder_init 0 None))
                   p.
Proof.
  assert (E : BeamSearchDecoder_call (BeamSearchDecoder_init 0 None)
                frames_wide [3%Z] 2 0%N 0%N = Ok [[1; 2]])
    by (vm_compute; reflexivity).
  split; [exact E|].
  exact (ctc_labels_in_range _ _ _ _ _ _ _ E).
Defined.

Lemma ctc_frames_out_of_range_raise_witness :
  shape frames_wide = (1, 3, 3) ∧ 0 < 1 ∧ [4%Z] !! 0 = Some 4%Z ∧
  (Z.of_nat 3 < 4)%Z ∧
  BeamSearchDecoder_call (BeamSearchDecoder_init 0 None) frames_wide [4%Z] 2
                         0%N 0%N = Raise IndexError.
Proof.
  assert (Hs : shape frames_wide = (1, 3, 3)) by reflexivity.
  assert (Hb : 0 < 1) by lia.
  assert (Hx : [4%Z] !! 0 = Some 4%Z) by reflexivity.
  assert (Ht : (Z.of_nat 3 < 4)%Z) by lia.
  exact (conj Hs (conj Hb (conj Hx (conj Ht
           (ctc_frames_out_of_range_raise (R := N)
              (BeamSearchDecoder_init 0 None) frames_wide 1 3 3 0 [4%Z] 2
              0%N 0%N 4 Hs Hb Hx Ht))))).
Defined.

Lemma ctc_candidates_conserve_mass_witness :
  candidates 0 frames_wide 0 1 beam_one = Ok candidates_one ∧
  mass candidates_one = (mass beam_one * frame_mass frames_wide 0 1)%N ∧
  ∃ beam', time_step 0 frames_wide 0 2 beam_one 1 = Ok beam' ∧
           (mass beam' ≤ mass beam_one * frame_mass frames_wide 0 1)%N.
Proof.
  assert (E : candidates 0 frames_wide 0 1 beam_one = Ok candidates_one)
    by (vm_compute; reflexivity).
  split; [exact E|].
  exact (ctc_candidates_conserve_mass _ _ _ _ 2 _ _ E).
Defined.

(* ===================================================================== *)
(** * The attention beam search: the END symbol and the length *)
(* ===================================================================== *)

Section search_symbols.
Context `{Layers}.
Implicit Types (h c : hypothesis) (beam complete : list hypothesis).

Lemma forM_st_length {A B} (f : A → M B) (l : list A) σ ys σ' :
  forM_st f l σ = Ok (ys, σ') → length ys = length l.
Proof.
  revert σ ys σ'. induction l as [|x l IH]; intros σ ys σ' E.
  - by apply ret_st_Ok in E as [-> _].
  - simpl in E. apply bind_st_Ok in E as (y & σ1 & Ey & E).
    apply bind_st_Ok in E as (ys' & σ2 & Eys & E).
    apply ret_st_Ok in E as [-> _]. simpl. by rewrite (IH _ _ _ Eys).
Qed.

Lemma open_hyp_mono sos eos n m h :
  n ≤ m → open_hyp sos eos n h → open_hyp sos eos m h.
Proof. intros ? (t & ? & ? & ?). exists t. split; [done|]. split; [lia|done]. Qed.

Lemma done_hyp_mono sos eos n m h :
  n ≤ m → done_hyp sos eos n h → done_hyp sos eos m h.
Proof. intros ? (t & ? & ? & ?). exists t. split; [done|]. split; [lia|done]. Qed.

(** A candidate is complete when its new symbol is [eos]. *)
Lemma child_open_or_done sos eos n h c :
  open_hyp sos eos n h → child_of h c →
  (list.last (hyp c) = Some eos → done_hyp sos eos (S n) c) ∧
  (list.last (hyp c) ≠ Some eos → open_hyp sos eos (S n) c).
Proof.
  intros (t & Ht & Hlen & Hno) (idx & aw & Hc & _).
  unfold done_hyp, open_hyp. rewrite Hc, Ht.
  change ((sos :: t) ++ [idx]) with (sos :: (t ++ [idx])).
  rewrite last_cons, last_snoc. split.
  - intros [= ->]. exists t. split; [done|]. split; [lia | done].
  - intros Hne. exists (t ++ [idx]). split; [done|].
    rewrite length_app. simpl. split; [lia|].
    rewrite elem_of_app, list_elem_of_singleton. intros [?| ->]; done.
Qed.

Lemma remove_complete_Forall (Pc Pn : hypothesis → Prop) eos cands
    complete not_complete complete' not_complete' :
  remove_complete eos cands complete not_complete
    = (complete', not_complete') →
  Forall (fun c => (list.last (hyp c) = Some eos → Pc c) ∧
                   (list.last (hyp c) ≠ Some eos → Pn c)) cands →
  Forall Pc complete → Forall Pn not_complete →
  Forall Pc complete' ∧ Forall Pn not_complete'.
Proof.
  revert complete not_complete.
  induction cands as [|c cands IH]; intros complete not_complete E Hc Hcomp
    Hnot; simpl in E.
  - by injection E as <- <-.
  - apply list.Forall_cons in Hc as [[Hyes Hno] Hc].
    destruct (decide (list.last (hyp c) = Some eos)) as [He|He].
    + eapply IH; [exact E | done | | done].
      apply Forall_app. split; [done|]. repeat constructor. auto.
    + eapply IH; [exact E | done | done |].
      apply Forall_app. split; [done|]. repeat constructor. auto.
Qed.

Lemma search_symbols (self : AttentionSeq2seq) dir enc beam_width n m
    complete beam σ complete' beam' σ' :
  search self dir enc beam_width n complete beam σ
    = Ok ((complete', beam'), σ') →
  Forall (open_hyp (sos_0 self) (eos_0 self) m) beam →
  Forall (done_hyp (sos_0 self) (eos_0 self) m) complete →
  Forall (open_hyp (sos_0 self) (eos_0 self) (m + n)) beam' ∧
  Forall (done_hyp (sos_0 self) (eos_0 self) (m + n)) complete'.
Proof.
  revert m complete beam σ.
  induction n as [|n IH]; intros m complete beam σ E Hbeam Hcomp.
  - apply ret_st_Ok in E as [[= -> ->] _]. by rewrite Nat.add_0_r.
  - simpl in E. apply bind_st_Ok in E as (css & σ1 & Ecss & E).
    assert (Hnew : Forall
              (fun c => (list.last (hyp c) = Some (eos_0 self) →
                           done_hyp (sos_0 self) (eos_0 self) (S m) c) ∧
                        (list.last (hyp c) ≠ Some (eos_0 self) →
                           open_hyp (sos_0 self) (eos_0 self) (S m) c))
              (slice_to beam_width (sorted_by_score (concat css)))).
    { apply Forall_slice_to. unfold sorted_by_score.
      rewrite sorted_desc_Permutation. apply Forall_concat.
      eapply forM_st_Forall; [|exact Ecss].
      intros h σ0 cs σ0' Hh Ecs%expand_child_of.
      eapply Forall_impl; [|exact Ecs]. simpl. intros c Hc.
      eapply child_open_or_done; [|exact Hc].
      rewrite list.Forall_forall in Hbeam. by apply Hbeam. }
    destruct (remove_complete _ _ complete []) as [comp1 ncomp1] eqn:Erc.
    destruct (remove_complete_Forall _ _ _ _ _ _ _ _ Erc Hnew)
      as [Hcomp1 Hncomp1]; [|constructor|].
    { eapply list.Forall_impl; [exact Hcomp|].
      intros h. apply done_hyp_mono. lia. }
    destruct (beam_width <=? Z.of_nat (length comp1))%Z.
    + apply ret_st_Ok in E as [[= -> ->] _]. split.
      * eapply list.Forall_impl; [exact Hbeam|].
        intros h. apply open_hyp_mono. lia.
      * apply Forall_slice_to. eapply list.Forall_impl; [exact Hcomp1|].
        intros h. apply done_hyp_mono. lia.
    + rewrite <-Nat.add_succ_comm.
      eapply IH; [exact E | by apply Forall_slice_to | done].
Qed.

Lemma open_hyp_ends_once sos eos n h :
  open_hyp sos eos n h → ends_once eos n (drop 1 (hyp h)).
Proof.
  intros (t & -> & Hlen & Hno). simpl. rewrite drop_0. split; [done|].
  intros i Hi. destruct Hno. by eapply list_elem_of_lookup_2.
Qed.

Lemma done_hyp_ends_once sos eos n h :
  done_hyp sos eos n h → ends_once eos n (drop 1 (hyp h)).
Proof.
  intros (t & -> & Hlen & Hno). simpl. rewrite drop_0. split.
  - rewrite length_app. simpl. lia.
  - intros i Hi. rewrite length_app. simpl.
    destruct (decide (i < length t)) as [Hlt|Hge].
    + rewrite lookup_app_l in Hi by done. destruct Hno.
      by eapply list_elem_of_lookup_2.
    + apply lookup_lt_Some in Hi. rewrite length_app in Hi. simpl in Hi.
      lia.
Qed.

Lemma search_utt_ends_once (self : AttentionSeq2seq) dir beam_width
    max_decode_len length_penalty enc σ ys aws σ' :
  search_utt self dir beam_width max_decode_len length_penalty enc σ
    = Ok ((ys, aws), σ') →
  ends_once (eos_0 self) (Z.to_nat max_decode_len) ys.
Proof.
  unfold search_utt. intros E.
  destruct (_init_dec_state dir enc) as [st out].
  apply bind_st_Ok in E as (l0 & σ0 & _ & E).
  apply bind_st_Ok in E as ([complete beam] & σ1 & Es & E).
  apply bind_st_Ok in E as (top & ? & [Etop%getitem_Ok ->]%lift_Ok & E).
  apply ret_st_Ok in E as [[= -> _] _].
  assert (Hhead : head (final_ranking length_penalty complete beam)
                  = Some top).
  { by destruct (final_ranking length_penalty complete beam). }
  destruct (search_symbols _ _ _ _ _ 0 _ _ _ _ _ _ Es) as [Hbeam Hcomp].
  { repeat constructor. exists []. split; [done|]. split; [simpl; lia|].
    by intros ?%elem_of_nil. }
  { constructor. }
  destruct (final_ranking_head _ _ _ _ Hhead) as [(h & Hin & -> & _) _].
  rewrite list.Forall_forall in Hbeam, Hcomp. simpl in *.
  destruct complete as [|c complete]; simpl in Hin.
  - eapply open_hyp_ends_once. by apply Hbeam.
  - eapply done_hyp_ends_once. by apply Hcomp.
Qed.

(** A beam search that returns gives one sequence per utterance, of at
    most [max_decode_len] symbols; the END symbol occurs in a sequence at
    most once, as its last symbol. *)
Theorem beam_search_end_once (self : AttentionSeq2seq) enc_out
    beam_width max_decode_len length_penalty coverage_penalty dir σ
    best_hyps aw σ' :
  _decode_infer_beam self enc_out beam_width max_decode_len length_penalty
                     coverage_penalty dir σ = Ok ((best_hyps, aw), σ') →
  length best_hyps = length enc_out ∧
  Forall (fun ys => length ys ≤ Z.to_nat max_decode_len ∧
                    ∀ i, ys !! i = Some (eos_0 self) → S i = length ys)
         best_hyps.
Proof.
  unfold _decode_infer_beam. intros E.
  destruct (negb _); [by apply lift_Ok in E as [? _]|].
  apply bind_st_Ok in E as (res & σ1 & Eres & E).
  apply bind_st_Ok in E as (aw' & ? & [Eaw ->]%lift_Ok & E).
  destruct dir; [|by apply lift_Ok in E as [? _]].
  apply ret_st_Ok in E as [[= -> _] _]. split.
  - rewrite length_map. by eapply forM_st_length.
  - apply Forall_fmap.
    eapply (forM_st_Forall
              (fun r => ends_once (eos_0 self) (Z.to_nat max_decode_len)
                                  r.1)); [|exact Eres].
    intros enc σa [ys aws] σb _ Eutt. simpl.
    by eapply search_utt_ends_once.
Qed.

Lemma forM_st_no_steps (self : AttentionSeq2seq) dir beam_width
    max_decode_len length_penalty enc_out σ :
  (max_decode_len ≤ 0)%Z →
  ∃ σ', forM_st (search_utt self dir beam_width max_decode_len
                            length_penalty) enc_out σ
        = Ok ((fun enc => ([], [zero_aw enc])) <$> enc_out, σ').
Proof.
  intros Hlen. revert σ.
  induction enc_out as [|enc enc_out IH]; intros σ; simpl.
  - by exists σ.
  - destruct (search_utt_no_steps self dir beam_width max_decode_len
                length_penalty enc σ Hlen) as [σ1 E1].
    destruct (IH σ1) as [σ2 E2]. exists σ2.
    unfold mbind, M_bind. rewrite E1, E2. done.
Qed.

(** The beam search of a batch accepts no [max_decode_len <= 0] either:
    the search of every utterance returns the empty sequence, but then
    there is no attention weight to stack, and when stacking none raises
    (as [torch.stack] does) the call raises that exception for every
    batch that is not empty. *)
Theorem beam_search_no_steps_raises (self : AttentionSeq2seq) enc_out
    beam_width max_decode_len length_penalty coverage_penalty σ e :
  (max_decode_len ≤ 0)%Z → enc_out ≠ [] → stack_np [] = Raise e →
  _decode_infer_beam self enc_out beam_width max_decode_len length_penalty
                     coverage_penalty fwd σ = Raise e.
Proof.
  intros Hlen Hne Hstack. unfold _decode_infer_beam. simpl.
  destruct (forM_st_no_steps self fwd beam_width max_decode_len
              length_penalty enc_out σ Hlen) as [σ' E].
  unfold mbind at 1, M_bind at 1. rewrite E.
  destruct enc_out as [|enc enc_out]; [done|]. simpl.
  unfold mbind at 1, M_bind at 1. simpl. by rewrite Hstack.
Qed.
End search_symbols.

(** ** The configuration is not checked *)
Section configuration.
Context `{Layers}.

Lemma bind_lift_Ok {A B} (a : A) (f : A → M B) σ :
  (lift (Ok a) ≫= f) σ = f a σ.
Proof. done. Qed.

Lemma bind_lift_Raise {A B} (e : error) (f : A → M B) σ :
  (lift (Raise e) ≫= f) σ = Raise e.
Proof. done. Qed.

Lemma bind_st_eq {A B} (m : M A) (f : A → M B) σ a σ1 :
  m σ = Ok (a, σ1) → (m ≫= f) σ = f a σ1.
Proof. intros E. unfold mbind, M_bind. by rewrite E. Qed.

Lemma bind_st_Raise {A B} (m : M A) (f : A → M B) σ e :
  m σ = Raise e → (m ≫= f) σ = Raise e.
Proof. intros E. unfold mbind, M_bind. by rewrite E. Qed.

Lemma call_returns (f : state_t → out_t * state_t * returned state_t) l σ :
  ∃ r σ', call f l σ = Ok (r, σ').
Proof.
  unfold call, mbind, M_bind, read.
  destruct (f (cell σ l)) as [[o a] [|v]]; simpl; eauto.
Qed.

(** Without a candidate to make ([beam_width < 1]), the expansion of a
    hypothesis returns no candidate, unless [topk] raises. *)
Lemma expand_no_width (self : AttentionSeq2seq) dir enc beam_width h σ y aw :
  (beam_width < 1)%Z →
  last_item (hyp h) = Ok y → last_item (aw_steps h) = Ok aw →
  (∃ σ', expand self dir enc beam_width h σ = Ok ([], σ')) ∨
  (∃ e logits, expand self dir enc beam_width h σ = Raise e ∧
               log_softmax_topk logits beam_width = Raise e).
Proof.
  intros Hw Hy Haw. unfold expand.
  replace (Z.to_nat beam_width) with 0 by lia.
  destruct (decoding_order self); rewrite ?Hy, ?Haw, ?bind_lift_Ok.
  - destruct (attend dir enc (dec_out h) aw) as [ctx aw_step].
    destruct (log_softmax_topk (generate dir (dec_out h) ctx) beam_width)
      as [topk|e] eqn:Ek.
    + left. rewrite bind_lift_Ok. simpl. eauto.
    + right. rewrite bind_lift_Raise. eauto.
  - destruct (attend dir enc (dec_out h) aw) as [ctx aw_step].
    destruct (call_returns (decoder dir (embed y) ctx) (dec_state h) σ)
      as ([out d] & σa & Ea).
    rewrite (bind_st_eq _ _ _ _ _ Ea).
    destruct (log_softmax_topk (generate dir out ctx) beam_width)
      as [topk|e] eqn:Ek.
    + left. rewrite bind_lift_Ok. simpl. eauto.
    + right. rewrite bind_lift_Raise. eauto.
  - destruct (call_returns (decoder_first dir (embed y)) (dec_state h) σ)
      as ([_out d1] & σa & Ea).
    rewrite (bind_st_eq _ _ _ _ _ Ea), ?bind_lift_Ok.
    destruct (attend dir enc _out aw) as [ctx aw_step].
    destruct (call_returns (decoder_second dir ctx) d1 σa)
      as ([out d2] & σb & Eb).
    rewrite (bind_st_eq _ _ _ _ _ Eb).
    destruct (log_softmax_topk (generate dir out ctx) beam_width)
      as [topk|e] eqn:Ek.
    + left. rewrite bind_lift_Ok. simpl. eauto.
    + right. rewrite bind_lift_Raise. eauto.
Qed.

Lemma search_utt_no_width (self : AttentionSeq2seq) dir beam_width
    max_decode_len length_penalty enc σ :
  (beam_width < 1)%Z →
  (∃ σ', search_utt self dir beam_width max_decode_len length_penalty enc σ
         = Ok (([], [zero_aw enc]), σ')) ∨
  (∃ e logits,
     search_utt self dir beam_width max_decode_len length_penalty enc σ
     = Raise e ∧
     log_softmax_topk logits beam_width = Raise e).
Proof.
  intros Hw.
  destruct (Z.to_nat max_decode_len) as [|n] eqn:En.
  { left. apply search_utt_no_steps. lia. }
  unfold search_utt. destruct (_init_dec_state dir enc) as [st out].
  rewrite En.
  rewrite (bind_st_eq (new st) _ σ _ _ eq_refl). cbv zeta.
  match goal with
  | |- context [search self dir enc beam_width (S n) [] [?h0]] =>
      set (h := h0)
  end.
  set (σ1 := {| next := S (next σ); cell := <[next σ:=st]> (cell σ) |}).
  destruct (expand_no_width self dir enc beam_width h σ1 (sos_0 self)
              (zero_aw enc) Hw eq_refl eq_refl)
    as [[σ2 E]|(e & logits & E & Hl)].
  - left.
    assert (Ef : forM_st (expand self dir enc beam_width) [h] σ1
                 = Ok ([[]], σ2)).
    { simpl. by rewrite (bind_st_eq _ _ _ _ _ E). }
    assert (Es : search self dir enc beam_width (S n) [] [h] σ1
                 = Ok (([], [h]), σ2)).
    { cbn [search]. rewrite (bind_st_eq _ _ _ _ _ Ef). simpl.
      rewrite slice_to_nil. simpl.
      replace (beam_width <=? Z.of_nat 0)%Z with true
        by (symmetry; apply Z.leb_le; lia).
      by rewrite slice_to_nil. }
    rewrite (bind_st_eq _ _ _ _ _ Es).
    unfold final_ranking, renormalize. simpl.
    destruct (Qltb 0 length_penalty); simpl; eauto.
  - right. exists e, logits. split; [|done].
    assert (Ef : forM_st (expand self dir enc beam_width) [h] σ1 = Raise e).
    { simpl. by apply bind_st_Raise. }
    apply bind_st_Raise. cbn [search]. by apply bind_st_Raise.
Qed.

(** The loop over the batch, for a configuration without a step or
    without a candidate. *)
Lemma forM_st_no_width (self : AttentionSeq2seq) dir beam_width
    max_decode_len length_penalty enc_out σ :
  (beam_width < 1)%Z →
  (∃ σ', forM_st (search_utt self dir beam_width max_decode_len
                             length_penalty) enc_out σ
         = Ok ((fun enc => ([], [zero_aw enc])) <$> enc_out, σ')) ∨
  (∃ e logits,
     forM_st (search_utt self dir beam_width max_decode_len
                         length_penalty) enc_out σ = Raise e ∧
     log_softmax_topk logits beam_width = Raise e).
Proof.
  intros Hw. revert σ.
  induction enc_out as [|enc enc_out IH]; intros σ; simpl.
  - left. by exists σ.
  - destruct (search_utt_no_width self dir beam_width max_decode_len
                length_penalty enc σ Hw) as [[σ1 E1]|(e & logits & E1 & Hl)].
    + rewrite (bind_st_eq _ _ _ _ _ E1).
      destruct (IH σ1) as [[σ2 E2]|(e & logits & E2 & Hl)].
      * left. exists σ2. by rewrite (bind_st_eq _ _ _ _ _ E2).
      * right. exists e, logits. split; [|done]. by apply bind_st_Raise.
    + right. exists e, logits. split; [|done]. by apply bind_st_Raise.
Qed.

(** After searches that made no step, the attention weights to stack are
    none. *)
Lemma decode_infer_beam_stack (self : AttentionSeq2seq) enc_out beam_width
    max_decode_len length_penalty coverage_penalty dir σ σ' e :
  (dir = bwd → Qltb 0 (bwd_weight_0 self) = true) →
  enc_out ≠ [] → stack_np [] = Raise e →
  forM_st (search_utt self dir beam_width max_decode_len length_penalty)
          enc_out σ
    = Ok ((fun enc => ([], [zero_aw enc])) <$> enc_out, σ') →
  _decode_infer_beam self enc_out beam_width max_decode_len length_penalty
                     coverage_penalty dir σ = Raise e.
Proof.
  intros Hdir Hne Hstack E. unfold _decode_infer_beam. cbv zeta.
  assert (Ha : match dir with
               | bwd => Qltb 0 (bwd_weight_0 self)
               | fwd => true
               end = true) by (destruct dir; [done | by apply Hdir]).
  rewrite Ha. cbn [negb].
  rewrite (bind_st_eq _ _ _ _ _ E).
  destruct enc_out as [|enc enc_out]; [done|]. simpl.
  rewrite Hstack. done.
Qed.

(** The direction [decode] selects passes the assertion of the beam
    search. *)
Lemma decode_dir_asserted (self : AttentionSeq2seq) :
  Qle_bool (bwd_weight_0 self) (fwd_weight_0 self) = false →
  Qltb 0 (bwd_weight_0 self) = true.
Proof.
  unfold fwd_weight_0, bwd_weight_0, Qltb. intros E.
  destruct (Qle_bool (backward_loss_weight self) 0) eqn:E0; [|done].
  apply Qle_bool_iff in E0.
  assert (Hle : (backward_loss_weight self <= 1 - backward_loss_weight self)%Q)
    by lra.
  apply Qle_bool_iff in Hle. congruence.
Qed.

Lemma decode_no_result (self : AttentionSeq2seq) xs x_lens beam_width
    max_decode_len length_penalty coverage_penalty σ e :
  (_encode xs x_lens).1 ≠ [] → stack_np [] = Raise e →
  ((max_decode_len ≤ 0)%Z → beam_width ≠ 1%Z →
     decode self xs x_lens beam_width max_decode_len length_penalty
            coverage_penalty σ = Raise e) ∧
  ((beam_width < 1)%Z →
     ∃ e', decode self xs x_lens beam_width max_decode_len length_penalty
                  coverage_penalty σ = Raise e' ∧
           (e' = e ∨
            ∃ logits, log_softmax_topk logits beam_width = Raise e')).
Proof.
  intros Hne Hstack. unfold decode.
  destruct (_encode xs x_lens) as [enc_out perm_idx]. simpl in Hne.
  set (dir := if Qle_bool (bwd_weight_0 self) (fwd_weight_0 self)
              then fwd else bwd).
  assert (Hdir : dir = bwd → Qltb 0 (bwd_weight_0 self) = true).
  { unfold dir.
    destruct (Qle_bool (bwd_weight_0 self) (fwd_weight_0 self)) eqn:E;
      [done|]. intros _. by apply decode_dir_asserted. }
  split.
  - intros Hlen Hw. rewrite decide_False by done.
    destruct (forM_st_no_steps self dir beam_width max_decode_len
                length_penalty enc_out σ Hlen) as [σ' E].
    apply bind_st_Raise. by eapply decode_infer_beam_stack.
  - intros Hw. rewrite decide_False by lia.
    destruct (forM_st_no_width self dir beam_width max_decode_len
                length_penalty enc_out σ Hw)
      as [[σ' E]|(e' & logits & E & Hl)].
    + exists e. split; [|by left].
      apply bind_st_Raise. by eapply decode_infer_beam_stack.
    + exists e'. split; [|right; eauto].
      apply bind_st_Raise. unfold _decode_infer_beam. cbv zeta.
      assert (Ha : match dir with
                   | bwd => Qltb 0 (bwd_weight_0 self)
                   | fwd => true
                   end = true) by (destruct dir; [done | by apply Hdir]).
      rewrite Ha. cbn [negb]. by apply bind_st_Raise.
Qed.
End configuration.

(** The greedy path without a pass: nothing was appended for
    [torch.cat]. *)
Lemma greedy_no_steps `{BatchLayers} (self : AttentionSeq2seq)
    (enc_out : benc_t) max_decode_len :
  (max_decode_len ≤ 0)%Z →
  _decode_infer_greedy' self enc_out max_decode_len
    (if Qle_bool (bwd_weight_0 self) (fwd_weight_0 self) then fwd else bwd)
  = Raise RuntimeError.
Proof.
  intros Hlen. unfold _decode_infer_greedy'. cbv zeta.
  set (dir := if Qle_bool (bwd_weight_0 self) (fwd_weight_0 self)
              then fwd else bwd).
  assert (Ha : match dir with
               | bwd => Qltb 0 (bwd_weight_0 self)
               | fwd => true
               end = true).
  { unfold dir.
    destruct (Qle_bool (bwd_weight_0 self) (fwd_weight_0 self)) eqn:E;
      [done|]. by apply decode_dir_asserted. }
  rewrite Ha. cbn [negb].
  pose proof (greedy_init_acc self dir enc_out) as (E0 & _ & _).
  destruct (greedy_init self dir enc_out) as [s acc0]. simpl in E0.
  replace (Z.to_nat max_decode_len) with 0 by lia. simpl. by rewrite E0.
Qed.

(** C5 (amended).  Neither decoder checks its configuration before
    decoding, and neither fails fast.  In the CTC beam decoder, for an
    utterance in range (with a class, and no more frames than the matrix
    has): whatever the blank index is, in range or not, a beam width of at
    least one makes the decoder return a label sequence; with a beam width
    of zero and a frame or more, all time steps are run, the beam ends
    empty, and the exception is the IndexError of the last lookup
    [beam[0][0]].  In the attention decoder, [decode] on a batch that is
    not empty, where stacking no attention weight raises (as [torch.stack]
    does on an empty list): with [max_decode_len <= 0] and a beam width
    other than one, the search of every utterance of the batch is run and
    returns, with the empty sequence and the initial attention weight
    only, and [decode] raises afterwards, the exception of the stacking;
    with [beam_width < 1], [decode] raises that exception or the exception
    of a [topk] call of the search.  The greedy path, which [decode] takes
    for the beam width one, raises for [max_decode_len <= 0] when the
    tensors of its passes are concatenated and there is none. *)
Theorem decoders_do_not_check_configuration `{LogScore R} `{Layers}
    `{BatchLayers}
    blank (log_probs : ndarray3 R) (B T C b : nat) x_lens beam_width time
    (self : AttentionSeq2seq) xs xs_lens max_decode_len length_penalty
    coverage_penalty σ e :
  shape log_probs = (B, T, C) → b < B → x_lens !! b = Some time →
  Z.to_nat time ≤ T → 1 ≤ C →
  (_encode xs xs_lens).1 ≠ [] → stack_np [] = Raise e →
  ((1 ≤ beam_width)%Z →
     ∃ p, decode_utt blank log_probs x_lens beam_width b = Ok p) ∧
  (beam_width = 0%Z → (1 ≤ time)%Z →
     final_beam blank log_probs b beam_width time = Ok [] ∧
     decode_utt blank log_probs x_lens beam_width b = Raise IndexError) ∧
  ((max_decode_len ≤ 0)%Z → beam_width ≠ 1%Z →
     (∀ dir σ0, ∃ σ',
        forM_st (search_utt self dir beam_width max_decode_len
                            length_penalty) (_encode xs xs_lens).1 σ0
        = Ok ((fun enc => ([], [zero_aw enc])) <$> (_encode xs xs_lens).1,
              σ')) ∧
     decode self xs xs_lens beam_width max_decode_len length_penalty
            coverage_penalty σ = Raise e) ∧
  ((beam_width < 1)%Z →
     ∃ e', decode self xs xs_lens beam_width max_decode_len length_penalty
                  coverage_penalty σ = Raise e' ∧
           (e' = e ∨
            ∃ logits, log_softmax_topk logits beam_width = Raise e')) ∧
  ((max_decode_len ≤ 0)%Z →
     ∀ enc_out : benc_t,
       _decode_infer_greedy' self enc_out max_decode_len
         (if Qle_bool (bwd_weight_0 self) (fwd_weight_0 self)
          then fwd else bwd)
       = Raise RuntimeError).
Proof.
  intros Hs Hb Hx Ht HC Hne Hstack.
  destruct (ctc_no_check blank log_probs B T C b x_lens beam_width time)
    as [Hctc1 Hctc2]; try done.
  destruct (decode_no_result self xs xs_lens beam_width max_decode_len
              length_penalty coverage_penalty σ e Hne Hstack)
    as [Hlen Hwidth].
  split; [done|]. split; [done|]. split; [|split; [done|]].
  - intros Hl Hw. split; [|by apply Hlen].
    intros dir σ0. by apply forM_st_no_steps.
  - intros Hl enc_out. by apply greedy_no_steps.
Qed.

(** C5, as stated, fails.  The CTC decoder raises no exception and
    returns a label sequence with the blank index [7], out of the range of
    the three classes, with the blank index [-1], and with the beam width
    [-1].  The attention decoder with [max_decode_len = 0] raises, but
    not before the decoding work: the loop over the batch has run the
    search of the utterance, which returned, before the exception. *)
Lemma configuration_not_checked_counterexample :
  BeamSearchDecoder_call (BeamSearchDecoder_init 7 None) frames_wide [3%Z] 2
                         0%N 0%N = Ok [[1; 2]] ∧
  BeamSearchDecoder_call (BeamSearchDecoder_init (-1) None) frames_wide
                         [3%Z] 2 0%N 0%N = Ok [[1; 2]] ∧
  BeamSearchDecoder_call (BeamSearchDecoder_init 0 None) frames_wide
                         [3%Z] (-1) 0%N 0%N = Ok [[1; 2]] ∧
  value (forM_st (search_utt (H := scripted)
                    (scripted_model attend_generate_update 0) fwd 2 0 0)
                 [script] heap0) = Ok [([], [0])] ∧
  value (decode (H := scripted) (scripted_model attend_generate_update 0)
                [script] [3%Z] 2 0 0 0 heap0) = Raise RuntimeError.
Proof. repeat split; vm_compute; reflexivity. Qed.

Lemma decoders_do_not_check_configuration_witness :
  (∃ p, decode_utt 7 frames_wide [3%Z] 2 0 = Ok p) ∧
  (∃ σ', forM_st (search_utt (H := scripted)
                    (scripted_model attend_generate_update 0) fwd 2 0 0)
                 [script] heap0 = Ok ([([], [0])], σ')) ∧
  decode (H := scripted) (scripted_model attend_generate_update 0)
         [script] [3%Z] 2 0 0 0 heap0 = Raise RuntimeError.
Proof.
  destruct (decoders_do_not_check_configuration (R := N) (H0 := scripted)
              (H1 := scripted_batch) 7 frames_wide 1 3 3 0 [3%Z] 2 3
              (scripted_model attend_generate_update 0) [script] [3%Z]
              0 0 0 heap0 RuntimeError)
    as (Hctc & _ & Hatt & _);
    [reflexivity | lia | reflexivity | simpl; lia | lia | discriminate
    | reflexivity |].
  destruct Hatt as [Hsearch Hdecode]; [lia | lia |].
  split; [apply Hctc; lia|]. split; [apply (Hsearch fwd heap0) | exact Hdecode].
Defined.

Lemma beam_search_no_steps_raises_witness :
  (0 ≤ 0)%Z ∧ [script] ≠ [] ∧
  stack_np (Layers := scripted) [] = Raise RuntimeError ∧
  _decode_infer_beam (H := scripted)
    (scripted_model attend_generate_update 0) [script] 2 0 0 0 fwd heap0
    = Raise RuntimeError.
Proof.
  assert (Hlen : (0 ≤ 0)%Z) by lia.
  assert (Hne : [script] ≠ []) by discriminate.
  assert (Hstack : stack_np (Layers := scripted) [] = Raise RuntimeError)
    by reflexivity.
  exact (conj Hlen (conj Hne (conj Hstack
           (beam_search_no_steps_raises (H := scripted)
              (scripted_model attend_generate_update 0) [script] 2 0 0 0
              heap0 RuntimeError Hlen Hne Hstack)))).
Defined.

Lemma beam_search_end_once_witness :
  ∃ aw σ',
    _decode_infer_beam (H := scripted)
      (scripted_model attend_generate_update 0) [script; script_late]
      2 5 0 0 fwd heap0
      = Ok (([[2]; [1; 2]], aw), σ') ∧
    length [[2]; [1; 2]] = length [script; script_late] ∧
    Forall (fun ys => length ys ≤ Z.to_nat 5 ∧
                      ∀ i, ys !! i = Some 2 → S i = length ys)
           [[2]; [1; 2]].
Proof.
  destruct (_decode_infer_beam (H := scripted)
              (scripted_model attend_generate_update 0) [script; script_late]
              2 5 0 0 fwd heap0) as [[[best_hyps aw] σ']|e] eqn:E.
  - assert (E' := E). vm_compute in E'. injection E' as <- _ _.
    exists aw, σ'. split; [reflexivity|].
    exact (beam_search_end_once _ _ _ _ _ _ _ _ _ _ _ E).
  - vm_compute in E. discriminate E.
Defined.

Lemma decode_ctc_beam_labels_witness :
  (2 ≠ 1)%Z ∧
  decode_ctc (R := N) frames_wide [3%Z] 2 0 = Ok ([[0; 1]%Z], tt) ∧
  ∃ enc_out x_lens',
    ((0 = 0)%Z ∧ _encode_main frames_wide [3%Z] = (enc_out, x_lens', tt)
     ∨ (0 = 1)%Z ∧ _encode_sub frames_wide [3%Z] = (enc_out, x_lens', tt)) ∧
    Forall (Forall (fun y =>
              (0 ≤ y < Z.of_nat
                 (shape (log_softmax (fc_ctc 0 enc_out))).2 - 1)%Z))
           [[0; 1]%Z].
Proof.
  assert (Hw : (2 ≠ 1)%Z) by discriminate.
  assert (E : decode_ctc (R := N) frames_wide [3%Z] 2 0
              = Ok ([[0; 1]%Z], tt)) by (vm_compute; reflexivity).
  exact (conj Hw (conj E (decode_ctc_beam_labels _ _ _ _ _ _ Hw E))).
Defined.

(* ===================================================================== *)
(** * The constructor and the training step *)
(* ===================================================================== *)

Lemma outcome_bind_Return {A B} (m : outcome A) (f : A → outcome B) b :
  (m ≫= f) = Return b → ∃ a, m = Return a ∧ f a = Return b.
Proof. destruct m as [a|x]; [eauto | discriminate]. Qed.

Lemma Qltb_true_lt (a b : Q) : Qltb a b = true ↔ (a < b)%Q.
Proof.
  unfold Qltb. rewrite negb_true_iff. split.
  - intros E. apply Qnot_le_lt. intros Hle%Qle_bool_iff. congruence.
  - intros Hlt. destruct (Qle_bool b a) eqn:E; [|done].
    apply Qle_bool_iff in E. by apply Qlt_not_le in Hlt.
Qed.

Lemma load_Return encoder_type c :
  load encoder_type = Return c →
  c = (if decide (encoder_type = "cnn"%string)
       then CNNEncoder else RNNEncoder).
Proof.
  unfold load. simpl. repeat case_decide; subst; try done; congruence.
Qed.

(** What the settings of an accepted model are. *)
Lemma settings_Return (a : Args.t) (self : Model.t) :
  settings a = Return self →
  Model.sos_0 self = Args.num_classes a ∧
  Model.eos_0 self = Args.num_classes a ∧
  Model.num_classes self = (Args.num_classes a + 1)%Z ∧
  Model.bwd_weight_0 self = Args.backward_loss_weight a ∧
  Model.fwd_weight_0 self = (1 - Args.backward_loss_weight a)%Q ∧
  (0 <= Args.backward_loss_weight a <= 1)%Q ∧
  Model.directions self =
    (if Qltb 0 (Model.fwd_weight_0 self) then [fwd] else [])
    ++ (if Qltb 0 (Model.bwd_weight_0 self) then [bwd] else []) ∧
  Model.ss_prob self = Args.scheduled_sampling_prob a ∧
  Model._ss_prob self = Args.scheduled_sampling_prob a ∧
  Model.ss_max_step self = Args.scheduled_sampling_max_step a ∧
  Model._step self = 0%Z ∧
  (PrimFloat.ltb PrimFloat.zero (Model.ss_prob self) = true →
   PrimFloat.eqb (Model.ss_max_step self) PrimFloat.zero = false) ∧
  Args.encoder_type a ∈ ["lstm"; "gru"; "rnn"; "cnn"]%string ∧
  Model.encoder self =
    (if decide (Args.encoder_type a = "cnn"%string)
     then CNNEncoder else RNNEncoder).
Proof.
  unfold settings.
  destruct (Qle_bool 0 (Args.backward_loss_weight a)) eqn:Hw0; [|done].
  destruct (Qle_bool (Args.backward_loss_weight a) 1) eqn:Hw1; [|done].
  simpl. destruct (bool_decide _); [|done]. simpl.
  destruct (if decide (Args.encoder_type a ≠ Args.decoder_type a)
            then _ else _) as [init_fwd init_bwd].
  destruct (PrimFloat.ltb PrimFloat.zero (Args.scheduled_sampling_prob a)
            && PrimFloat.eqb (Args.scheduled_sampling_max_step a)
                             PrimFloat.zero) eqn:Hss;
    [done|].
  intros E. apply outcome_bind_Return in E as ([enc init_0] & Eenc & E).
  injection E as <-. simpl.
  apply Qle_bool_iff in Hw0, Hw1.
  assert (Hin : Args.encoder_type a ∈ ["lstm"; "gru"; "rnn"; "cnn"]%string
                ∧ enc = (if decide (Args.encoder_type a = "cnn"%string)
                         then CNNEncoder else RNNEncoder)).
  { destruct (bool_decide_reflect
                (Args.encoder_type a ∈ ["lstm"; "gru"; "rnn"]%string))
      as [Hrnn|Hrnn].
    - apply outcome_bind_Return in Eenc as (c & Ec%load_Return & [= <- _]).
      split; [|done]. revert Hrnn. rewrite !elem_of_cons. tauto.
    - destruct (decide (Args.encoder_type a = "cnn"%string)) as [Hcnn|];
        [|done].
      destruct (negb _); [done|]. simpl in Eenc. injection Eenc as <- _.
      rewrite Hcnn. split; [|done]. rewrite !elem_of_cons. tauto. }
  destruct Hin as [Hin ->].
  repeat (split; [done|]). split; [|done].
  intros Hp. by rewrite Hp in Hss.
Qed.

Section training_facts.
Context `{Network}.

(** A model the constructor returns has START and END at the index
    [num_classes] of its arguments and one class more than that; its two
    direction weights lie in [0, 1] and add up to one; the direction
    [decode] selects is among the directions the layers were built for,
    and when it is the backward one the backward weight is positive (the
    assertion of the decoders holds); the encoder class is the one
    [ENCODERS] gives for the encoder type, which is one of its keys. *)
Theorem constructor_settings (a : Args.t) (self : Model.t) layers :
  AttentionSeq2seq_init a = Return (self, layers) →
  Model.sos_0 self = Args.num_classes a ∧
  Model.eos_0 self = Model.sos_0 self ∧
  Model.num_classes self = (Args.num_classes a + 1)%Z ∧
  (0 <= Model.bwd_weight_0 self <= 1)%Q ∧
  (0 <= Model.fwd_weight_0 self <= 1)%Q ∧
  (Model.fwd_weight_0 self + Model.bwd_weight_0 self == 1)%Q ∧
  decode_dir self ∈ Model.directions self ∧
  (decode_dir self = bwd → (0 < Model.bwd_weight_0 self)%Q) ∧
  dict_get ENCODERS (Args.encoder_type a) = Some (Model.encoder self).
Proof.
  unfold AttentionSeq2seq_init. intros E.
  apply outcome_bind_Return in E as (self' & Eself & E).
  apply outcome_bind_Return in E as (layers' & _ & [= <- _]).
  apply settings_Return in Eself
    as (Hsos & Heos & Hnum & Hbwd & Hfwd & [Hw0 Hw1] & Hdirs & _ & _ & _ & _
        & _ & Henc & Hcls).
  rewrite Hsos, Heos, Hnum, Hcls. clear Hcls.
  unfold decode_dir. rewrite Hdirs, Hfwd, Hbwd.
  set (w := Args.backward_loss_weight a) in *.
  split; [done|]. split; [done|]. split; [done|].
  split; [done|]. split; [split; lra|]. split; [lra|].
  assert (Hcases : Qle_bool w (1 - w) = true ∧ Qltb 0 (1 - w) = true
                   ∨ Qle_bool w (1 - w) = false ∧ Qltb 0 w = true).
  { destruct (Qle_bool w (1 - w)) eqn:E.
    - left. split; [done|]. apply Qle_bool_iff in E.
      apply Qltb_true_lt. lra.
    - right. split; [done|]. apply Qltb_true_lt.
      destruct (Qlt_le_dec 0 w) as [?|Hle]; [done|].
      assert (Hle' : (w <= 1 - w)%Q) by lra.
      apply Qle_bool_iff in Hle'. congruence. }
  split; [|split].
  - destruct Hcases as [[-> ->] | [-> ->]]; [by left|].
    destruct (Qltb 0 (1 - w)); [right; by left | by left].
  - destruct Hcases as [[-> _] | [_ Hlt]]; [done|].
    intros _. by apply Qltb_true_lt.
  - unfold ENCODERS. simpl.
    repeat apply elem_of_cons in Henc as [->|Henc]; try done.
    by apply elem_of_nil in Henc.
Qed.


Lemma _forward_returns (self : Model.t) layers batch :
  network_returns → Qeq_bool (Model.coverage_weight self) 0 = true →
  ∃ r, _forward self layers batch = Return r.
Proof.
  intros (Henc & Hlab & Hxe & Hctc) Hcov. unfold _forward, compute_xe_loss.
  destruct (Henc self layers batch) as [enc ->]. simpl.
  rewrite Hcov. simpl.
  destruct (Qltb 0 (Model.fwd_weight_0 self)).
  - destruct (Hlab self fwd enc batch) as [labels ->]. simpl.
    destruct (Hxe self fwd layers enc labels) as [[loss l1] ->]. simpl.
    destruct (Qltb 0 (Model.bwd_weight_0 self)).
    + destruct (Hlab self bwd enc batch) as [labels' ->]. simpl.
      destruct (Hxe self bwd l1 enc labels') as [[loss' l2] ->]. simpl.
      destruct (Qltb 0 (Model.ctc_loss_weight self)); simpl; [|eauto].
      match goal with |- context [ctc_loss self ?l enc batch] =>
        destruct (Hctc self l enc batch) as [loss'' ->] end. simpl. eauto.
    + simpl. destruct (Qltb 0 (Model.ctc_loss_weight self)); simpl; [|eauto].
      match goal with |- context [ctc_loss self ?l enc batch] =>
        destruct (Hctc self l enc batch) as [loss'' ->] end. simpl. eauto.
  - simpl. destruct (Qltb 0 (Model.bwd_weight_0 self)).
    + destruct (Hlab self bwd enc batch) as [labels' ->]. simpl.
      destruct (Hxe self bwd layers enc labels') as [[loss' l2] ->]. simpl.
      destruct (Qltb 0 (Model.ctc_loss_weight self)); simpl; [|eauto].
      match goal with |- context [ctc_loss self ?l enc batch] =>
        destruct (Hctc self l enc batch) as [loss'' ->] end. simpl. eauto.
    + simpl. destruct (Qltb 0 (Model.ctc_loss_weight self)); simpl; [|eauto].
      match goal with |- context [ctc_loss self ?l enc batch] =>
        destruct (Hctc self l enc batch) as [loss'' ->] end. simpl. eauto.
Qed.

(** With a coverage weight the loss of a direction is never returned. *)
Lemma _forward_raises (self : Model.t) layers batch :
  Qeq_bool (Model.coverage_weight self) 0 = false →
  Qltb 0 (Model.fwd_weight_0 self) = true
  ∨ Qltb 0 (Model.bwd_weight_0 self) = true →
  ∃ x, _forward self layers batch = Throw x.
Proof.
  intros Hcov Hdir. unfold _forward, compute_xe_loss.
  destruct (encode_batch self layers batch) as [enc|x]; simpl; [|eauto].
  rewrite Hcov. simpl.
  destruct (Qltb 0 (Model.fwd_weight_0 self)).
  - destruct (prepare_labels self fwd enc batch) as [labels|x]; simpl;
      [|eauto].
    destruct (xe_loss self fwd layers enc labels) as [[loss l1]|x]; simpl;
      eauto.
  - destruct Hdir as [?| ->]; [done|]. simpl.
    destruct (prepare_labels self bwd enc batch) as [labels|x]; simpl;
      [|eauto].
    destruct (xe_loss self bwd layers enc labels) as [[loss l1]|x]; simpl;
      eauto.
Qed.

(** The constructor accepts every [coverage_weight], but for a model
    built with one that is not zero every call of [forward], in training
    and in evaluation, raises an exception and returns no loss: the model
    computes the loss of a direction at least, and the coverage term of
    that loss is not implemented. *)
Theorem coverage_weight_forward_raises (a : Args.t) (self : Model.t)
    layers0 layers batch is_eval :
  AttentionSeq2seq_init a = Return (self, layers0) →
  ¬ (Args.coverage_weight a == 0)%Q →
  ∃ x, forward self layers batch is_eval = Throw x.
Proof.
  unfold AttentionSeq2seq_init. intros E Hcov.
  apply outcome_bind_Return in E as (self' & Eself & E).
  apply outcome_bind_Return in E as (layers' & _ & [= <- _]).
  assert (Hcw : Model.coverage_weight self' = Args.coverage_weight a).
  { unfold settings in Eself.
    destruct (negb _); [done|]. destruct (negb _); [done|].
    destruct (if decide (Args.encoder_type a ≠ Args.decoder_type a)
              then _ else _) as [init_fwd init_bwd].
    destruct (_ && _); [done|].
    apply outcome_bind_Return in Eself as ([enc init_0] & _ & [= <-]).
    done. }
  apply settings_Return in Eself
    as (_ & _ & _ & Hbwd & Hfwd & [Hw0 Hw1] & _).
  assert (Hcov' : Qeq_bool (Model.coverage_weight self') 0 = false).
  { rewrite Hcw. destruct (Qeq_bool _ 0) eqn:E; [|done].
    by apply Qeq_bool_iff in E. }
  assert (Hdir : Qltb 0 (Model.fwd_weight_0 self') = true
                 ∨ Qltb 0 (Model.bwd_weight_0 self') = true).
  { rewrite Hfwd, Hbwd.
    destruct (Qlt_le_dec 0 (Args.backward_loss_weight a)) as [Hlt|Hle].
    - right. by apply Qltb_true_lt.
    - left. apply Qltb_true_lt. lra. }
  unfold forward. destruct is_eval.
  - match goal with |- context [_forward self' ?l batch] =>
      destruct (_forward_raises self' l batch Hcov' Hdir) as [x ->] end.
    simpl. eauto.
  - match goal with |- context [_forward self' ?l batch] =>
      destruct (_forward_raises self' l batch Hcov' Hdir) as [x ->] end.
    simpl. eauto.
Qed.

(** One training step on a model whose scheduled sampling can divide. *)
Lemma forward_train (self : Model.t) layers batch :
  (PrimFloat.ltb PrimFloat.zero (Model.ss_prob self) = true →
   PrimFloat.eqb (Model.ss_max_step self) PrimFloat.zero = false) →
  network_returns → Qeq_bool (Model.coverage_weight self) 0 = true →
  ∃ loss self' layers',
    forward self layers batch false = Return (loss, self', layers') ∧
    Model.coverage_weight self' = Model.coverage_weight self ∧
    Model.ss_prob self' = Model.ss_prob self ∧
    Model.ss_max_step self' = Model.ss_max_step self ∧
    Model._step self' = (Model._step self + 1)%Z ∧
    Model._ss_prob self' =
      if PrimFloat.ltb PrimFloat.zero (Model.ss_prob self)
      then py_min (Model.ss_prob self)
                  (PrimFloat.mul
                     (PrimFloat.div (Model.ss_prob self)
                                    (Model.ss_max_step self))
                     (float_of_int (Model._step self + 1)))
      else Model._ss_prob self.
Proof.
  intros Hwf Hnet Hcov. unfold forward.
  match goal with |- context [_forward self ?l batch] =>
    destruct (_forward_returns self l batch Hnet Hcov)
      as [[loss layers'] ->] end.
  simpl. destruct (PrimFloat.ltb PrimFloat.zero (Model.ss_prob self)) eqn:Hp.
  - rewrite (Hwf eq_refl). simpl. by eexists _, _, _.
  - simpl. by eexists _, _, _.
Qed.

Lemma train_steps (self : Model.t) layers batches :
  (PrimFloat.ltb PrimFloat.zero (Model.ss_prob self) = true →
   PrimFloat.eqb (Model.ss_max_step self) PrimFloat.zero = false) →
  network_returns → Qeq_bool (Model.coverage_weight self) 0 = true →
  ∃ self' layers',
    train self layers batches = Return (self', layers') ∧
    Model.ss_prob self' = Model.ss_prob self ∧
    Model.ss_max_step self' = Model.ss_max_step self ∧
    Model._step self' = (Model._step self + Z.of_nat (length batches))%Z ∧
    Model._ss_prob self' =
      if PrimFloat.ltb PrimFloat.zero (Model.ss_prob self)
         && negb (length batches =? 0)
      then py_min (Model.ss_prob self)
                  (PrimFloat.mul
                     (PrimFloat.div (Model.ss_prob self)
                                    (Model.ss_max_step self))
                     (float_of_int (Model._step self')))
      else Model._ss_prob self.
Proof.
  intros Hwf Hnet. revert self layers Hwf.
  induction batches as [|batch batches IH]; intros self layers Hwf Hcov.
  - exists self, layers. simpl. rewrite andb_false_r, Z.add_0_r. done.
  - destruct (forward_train self layers batch Hwf Hnet Hcov)
      as (loss & self1 & layers1 & E1 & Hc1 & Hp1 & Hm1 & Hs1 & Hss1).
    destruct (IH self1 layers1) as (self' & layers' & E & Hp & Hm & Hs & Hss).
    { by rewrite Hp1, Hm1. }
    { by rewrite Hc1. }
    exists self', layers'. cbn [train]. rewrite E1. simpl.
    split; [exact E|]. rewrite Hp, Hm, Hs, Hp1, Hm1, Hs1.
    split; [done|]. split; [done|]. split; [cbn [length]; lia|].
    rewrite Hss, Hp1, Hm1, Hs, Hs1, Hss1. cbn [length].
    destruct (PrimFloat.ltb PrimFloat.zero (Model.ss_prob self)); simpl;
      [|done].
    destruct batches; simpl; [|done].
    by rewrite Z.add_0_r.
Qed.

(** On a model the constructor returned, without a coverage weight and
    with tensor code that raises nothing, training steps never fail in
    the update of scheduled sampling: the constructor has refused a
    positive probability together with
    [scheduled_sampling_max_step == 0], so the division raises no
    ZeroDivisionError.  After [k] steps (fewer than [2 ** 53]) the step
    counter is [k].  For the arguments [p > 0] and [m] of the constructor
    and [k >= 1], the sampling probability is [min(p, p / m * k)] as the
    float operations compute it, which is [p] itself or a float below
    [p], never one above (rounding can keep it below [p] also from
    [k = m] on); otherwise it is still [p]. *)
Theorem scheduled_sampling_ramp (a : Args.t) self0 layers0 batches :
  AttentionSeq2seq_init a = Return (self0, layers0) →
  (Args.coverage_weight a == 0)%Q →
  network_returns →
  (Z.of_nat (length batches) < 2 ^ 53)%Z →
  ∃ self layers,
    train self0 layers0 batches = Return (self, layers) ∧
    Model._step self = Z.of_nat (length batches) ∧
    let p := Args.scheduled_sampling_prob a in
    let m := Args.scheduled_sampling_max_step a in
    let k := float_of_int (Z.of_nat (length batches)) in
    (PrimFloat.ltb PrimFloat.zero p = true → batches ≠ [] →
       PrimFloat.eqb m PrimFloat.zero = false ∧
       Model._ss_prob self
         = py_min p (PrimFloat.mul (PrimFloat.div p m) k) ∧
       (Model._ss_prob self = p ∨
        PrimFloat.ltb (Model._ss_prob self) p = true)) ∧
    (PrimFloat.ltb PrimFloat.zero p = false ∨ batches = [] →
       Model._ss_prob self = p).
Proof.
  unfold AttentionSeq2seq_init. intros E Hcov Hnet _.
  apply outcome_bind_Return in E as (self' & Eself & E).
  apply outcome_bind_Return in E as (layers' & _ & [= <- <-]).
  assert (Hcw : Model.coverage_weight self' = Args.coverage_weight a).
  { unfold settings in Eself.
    destruct (negb _); [done|]. destruct (negb _); [done|].
    destruct (if decide (Args.encoder_type a ≠ Args.decoder_type a)
              then _ else _) as [init_fwd init_bwd].
    destruct (_ && _); [done|].
    apply outcome_bind_Return in Eself as ([enc init_0] & _ & [= <-]).
    done. }
  apply settings_Return in Eself
    as (_ & _ & _ & _ & _ & _ & _ & Hp & Hp0 & Hm & Hstep & Hwf & _).
  destruct (train_steps self' layers' batches Hwf Hnet)
    as (self & layers & Etrain & Hp' & Hm' & Hs' & Hss).
  { rewrite Hcw. by apply Qeq_bool_iff. }
  exists self, layers. split; [done|].
  rewrite Hstep, Z.add_0_l in Hs'. split; [done|].
  rewrite Hs', Hp, Hm, Hp0 in Hss. rewrite Hp, Hm in Hwf. cbv zeta.
  split.
  - intros Hpos Hne. rewrite Hss, Hpos.
    destruct batches as [|batch batches]; [done|]. simpl negb. cbn [andb].
    split; [by apply Hwf|]. split; [done|].
    unfold py_min.
    destruct (PrimFloat.ltb (PrimFloat.mul _ _)
                            (Args.scheduled_sampling_prob a)) eqn:Hlt;
      [by right | by left].
  - intros [Hnp | ->]; rewrite Hss.
    + by rewrite Hnp.
    + by rewrite andb_false_r.
Qed.
End training_facts.

Lemma constructor_settings_witness :
  ∃ self,
    AttentionSeq2seq_init (H := counting_network) args_lstm
      = Return (self, O) ∧
    Model.sos_0 self = Args.num_classes args_lstm ∧
    Model.eos_0 self = Model.sos_0 self ∧
    Model.num_classes self = (Args.num_classes args_lstm + 1)%Z ∧
    (0 <= Model.bwd_weight_0 self <= 1)%Q ∧
    (0 <= Model.fwd_weight_0 self <= 1)%Q ∧
    (Model.fwd_weight_0 self + Model.bwd_weight_0 self == 1)%Q ∧
    decode_dir self ∈ Model.directions self ∧
    (decode_dir self = bwd → (0 < Model.bwd_weight_0 self)%Q) ∧
    dict_get ENCODERS (Args.encoder_type args_lstm)
      = Some (Model.encoder self).
Proof.
  destruct (AttentionSeq2seq_init (H := counting_network) args_lstm)
    as [[self layers]|x] eqn:E.
  - assert (E' := E). vm_compute in E'. injection E' as _ <-.
    exists self. split; [reflexivity|].
    exact (constructor_settings (H := counting_network) _ _ _ E).
  - vm_compute in E. discriminate E.
Defined.


Lemma coverage_weight_forward_raises_witness :
  ∃ self,
    AttentionSeq2seq_init (H := counting_network) args_coverage
      = Return (self, O) ∧
    ¬ (Args.coverage_weight args_coverage == 0)%Q ∧
    ∃ x, forward (H := counting_network) self O tt false = Throw x.
Proof.
  assert (Hcov : ¬ (Args.coverage_weight args_coverage == 0)%Q)
    by discriminate.
  destruct (AttentionSeq2seq_init (H := counting_network) args_coverage)
    as [[self layers]|x] eqn:E.
  - assert (E' := E). vm_compute in E'. injection E' as _ <-.
    exists self. split; [reflexivity|]. split; [exact Hcov|].
    exact (coverage_weight_forward_raises (H := counting_network) _ _ _
             O tt false E Hcov).
  - vm_compute in E. discriminate E.
Defined.

Lemma scheduled_sampling_ramp_witness :
  ∃ self0,
    AttentionSeq2seq_init (H := counting_network) args_lstm
      = Return (self0, O) ∧
    (Args.coverage_weight args_lstm == 0)%Q ∧
    network_returns (H := counting_network) ∧
    (Z.of_nat (length [tt; tt; tt]) < 2 ^ 53)%Z ∧
    ∃ self layers,
      train (H := counting_network) self0 O [tt; tt; tt]
        = Return (self, layers) ∧
      Model._step self = 3%Z ∧
      Model._ss_prob self
        = PrimFloat.div (float_of_int 3) (float_of_int 8) ∧
      PrimFloat.ltb (Model._ss_prob self)
                    (Args.scheduled_sampling_prob args_lstm) = true.
Proof.
  assert (Hcov : (Args.coverage_weight args_lstm == 0)%Q) by reflexivity.
  assert (Hnet : network_returns (H := counting_network))
    by (repeat split; intros; eexists; reflexivity).
  assert (Hk : (Z.of_nat (length [tt; tt; tt]) < 2 ^ 53)%Z) by (simpl; lia).
  destruct (AttentionSeq2seq_init (H := counting_network) args_lstm)
    as [[self0 layers0]|x] eqn:E.
  - assert (E' := E). vm_compute in E'. injection E' as _ <-.
    exists self0. split; [reflexivity|]. split; [exact Hcov|].
    split; [exact Hnet|]. split; [exact Hk|].
    destruct (scheduled_sampling_ramp (H := counting_network) _ _ _
                [tt; tt; tt] E Hcov Hnet Hk)
      as (self & layers & Etrain & Hstep & Hpos & _).
    exists self, layers. split; [exact Etrain|]. split; [exact Hstep|].
    destruct Hpos as (_ & Hss & _); [by vm_compute | done |].
    rewrite Hss. split; by vm_compute.
  - vm_compute in E. discriminate E.
Defined.

(** The ramp need not reach [p]: with [p = 0.05] and [m = 19], after 19
    training steps the sampling probability is [0.05 / 19 * 19] as the
    floats compute it, the float just below [p]. *)
Example scheduled_sampling_stays_below :
  ∃ self0 self layers,
    AttentionSeq2seq_init (H := counting_network) args_slow_ramp
      = Return (self0, O) ∧
    train (H := counting_network) self0 O (replicate 19 tt)
      = Return (self, layers) ∧
    Model._step self = 19%Z ∧
    Model._ss_prob self
      = PrimFloat.next_down (Args.scheduled_sampling_prob args_slow_ramp) ∧
    PrimFloat.ltb (Model._ss_prob self)
                  (Args.scheduled_sampling_prob args_slow_ramp) = true.
Proof.
  eexists _, _, _. split; [vm_compute; reflexivity|].
  split; [vm_compute; reflexivity|]. by vm_compute.
Qed.

(* ===================================================================== *)
(** * The hypothesis strings of the metrics *)
(* ===================================================================== *)

Lemma str_split_nonempty (sep : ascii) (s : str) : str_split sep s ≠ [].
Proof.
  destruct s as [|c s]; simpl; [done|].
  destruct (decide (c = sep)); [done|]. by destruct (str_split sep s).
Qed.

Lemma str_split_no_sep (sep : ascii) (s : str) :
  sep ∉ s → str_split sep s = [s].
Proof.
  induction s as [|c s IH]; simpl; [done|].
  rewrite not_elem_of_cons. intros [Hne Hs].
  rewrite decide_False by done. by rewrite IH.
Qed.

Lemma str_split_first (sep : ascii) (a b : str) :
  sep ∉ a → str_split sep (a ++ sep :: b) = a :: str_split sep b.
Proof.
  induction a as [|c a IH]; simpl.
  - intros _. by rewrite decide_True.
  - rewrite not_elem_of_cons. intros [Hne Ha].
    rewrite decide_False by done. by rewrite IH.
Qed.

(** A piece holds no separator, and characters of the string only. *)
Lemma str_split_pieces (sep : ascii) (s : str) (w : str) :
  w ∈ str_split sep s → (sep ∉ w) ∧ w ⊆ s.
Proof.
  revert w. induction s as [|c s IH]; simpl; intros w.
  - intros ->%list_elem_of_singleton. split; [by intros ?%elem_of_nil|done].
  - destruct (decide (c = sep)) as [->|Hne].
    + intros [->|Hw]%elem_of_cons.
      * split; [by intros ?%elem_of_nil | by intros ? ?%elem_of_nil].
      * destruct (IH w Hw) as [? Hsub]. split; [done|].
        intros x Hx. right. by apply Hsub.
    + pose proof (str_split_nonempty sep s) as Hs.
      destruct (str_split sep s) as [|piece pieces]; [done|].
      intros [->|Hw]%elem_of_cons.
      * destruct (IH piece) as [Hp Hsub]; [by left|]. split.
        -- rewrite not_elem_of_cons. split; [congruence | done].
        -- intros x [->|Hx]%elem_of_cons; [by left|]. right. by apply Hsub.
      * destruct (IH w) as [? Hsub]; [by right|]. split; [done|].
        intros x Hx. right. by apply Hsub.
Qed.

Lemma elem_of_remove_chars (cs : list ascii) (s : str) (c : ascii) :
  c ∈ remove_chars cs s ↔ (c ∉ cs) ∧ c ∈ s.
Proof. unfold remove_chars. by rewrite list_elem_of_filter. Qed.

(** wer.py cuts the hypothesis of an attention model at its first END
    ([>]): the words that are scored are those of the text before it.
    There is at least one word, the empty word when nothing is left; no
    word holds a space ([_]), an apostrophe or [>]. *)
Theorem wer_hyp_cut_at_first_end (a b : str) :
  chr_end ∉ a →
  wer_hyp_words true (a ++ chr_end :: b) = wer_hyp_words true a ∧
  wer_hyp_words true a ≠ [] ∧
  ∀ w, w ∈ wer_hyp_words true a →
       (chr_space ∉ w) ∧ (chr_apostrophe ∉ w) ∧ (chr_end ∉ w).
Proof.
  intros Ha. unfold wer_hyp_words.
  rewrite (str_split_first chr_end a b), (str_split_no_sep chr_end a)
    by done.
  split; [done|]. split; [apply str_split_nonempty|].
  intros w [Hsep Hsub]%str_split_pieces. split; [done|].
  split; intros Hin%Hsub%elem_of_remove_chars; destruct Hin as [Hno _];
    apply Hno; rewrite !elem_of_cons; tauto.
Qed.

Lemma before_last_None (sep : ascii) (line : str) :
  sep ∉ line → before_last sep line = None.
Proof.
  induction line as [|c line IH]; simpl; [done|].
  rewrite not_elem_of_cons. intros [Hne Hl].
  rewrite IH by done. by rewrite decide_False.
Qed.

Lemma before_last_app (sep : ascii) (a b : str) :
  sep ∉ b → before_last sep (a ++ sep :: b) = Some a.
Proof.
  intros Hb. induction a as [|c a IH]; simpl.
  - rewrite before_last_None by done. by rewrite decide_True.
  - by rewrite IH.
Qed.

(** character.py cuts the hypothesis at its LAST END ([>]), not at the
    first one: on a hypothesis of one line, the text [a] before the last
    END is scored, without its noise marks and END symbols and with runs
    of spaces reduced to one, so that what a sequence holds between its
    first and its last END ([b] below) counts as recognised text. *)
Theorem char_hyp_cut_at_last_end (a c : str) :
  newline ∉ a → newline ∉ c → chr_end ∉ c →
  char_hyp_text (a ++ chr_end :: c)
    = squeeze chr_space (remove_chars [chr_noise; chr_end] a) ∧
  ∀ a' b, a = a' ++ chr_end :: b →
    char_hyp_text (a' ++ chr_end :: b ++ chr_end :: c)
    = squeeze chr_space (remove_chars [chr_noise; chr_end] a'
                        ++ remove_chars [chr_noise; chr_end] b).
Proof.
  intros Ha Hc Hgt.
  assert (E : char_hyp_text (a ++ chr_end :: c)
              = squeeze chr_space (remove_chars [chr_noise; chr_end] a)).
  { unfold char_hyp_text, sub_group1.
    rewrite str_split_no_sep.
    - simpl. by rewrite before_last_app.
    - rewrite elem_of_app, elem_of_cons. intros [?|[?|?]]; done. }
  split; [done|]. intros a' b ->.
  rewrite <-app_assoc in E. simpl in E. rewrite E.
  unfold remove_chars. rewrite list.filter_app, filter_cons_False; [done|].
  intros Hno. apply Hno. rewrite !elem_of_cons. tauto.
Qed.

Lemma wer_hyp_cut_at_first_end_witness :
  (chr_end ∉ text_ab_c) ∧
  wer_hyp_words true (text_ab_c ++ chr_end :: text_d_e)
    = wer_hyp_words true text_ab_c ∧
  wer_hyp_words true text_ab_c
    = [list_ascii_of_string "ab"; list_ascii_of_string "c"] ∧
  wer_hyp_words true text_ab_c ≠ [] ∧
  ∀ w, w ∈ wer_hyp_words true text_ab_c →
       (chr_space ∉ w) ∧ (chr_apostrophe ∉ w) ∧ (chr_end ∉ w).
Proof.
  assert (Ha : chr_end ∉ text_ab_c).
  { unfold text_ab_c. simpl. rewrite !not_elem_of_cons.
    repeat split; try discriminate. apply not_elem_of_nil. }
  destruct (wer_hyp_cut_at_first_end text_ab_c text_d_e Ha)
    as (E & Hne & Hw).
  exact (conj Ha (conj E (conj eq_refl (conj Hne Hw)))).
Defined.

Lemma char_hyp_cut_at_last_end_witness :
  (newline ∉ text_ab ++ chr_end :: text_cd) ∧ (newline ∉ text_ef) ∧
  (chr_end ∉ text_ef) ∧
  char_hyp_text (text_ab ++ chr_end :: text_cd ++ chr_end :: text_ef)
    = list_ascii_of_string "a_bcd" ∧
  char_hyp_text ((text_ab ++ chr_end :: text_cd) ++ chr_end :: text_ef)
    = squeeze chr_space
        (remove_chars [chr_noise; chr_end]
           (text_ab ++ chr_end :: text_cd)).
Proof.
  assert (Ha : newline ∉ text_ab ++ chr_end :: text_cd).
  { unfold text_ab, text_cd. simpl. rewrite !not_elem_of_cons.
    repeat split; try discriminate. apply not_elem_of_nil. }
  assert (Hc : newline ∉ text_ef).
  { unfold text_ef. simpl. rewrite !not_elem_of_cons.
    repeat split; try discriminate. apply not_elem_of_nil. }
  assert (Hgt : chr_end ∉ text_ef).
  { unfold text_ef. simpl. rewrite !not_elem_of_cons.
    repeat split; try discriminate. apply not_elem_of_nil. }
  exact (conj Ha (conj Hc (conj Hgt (conj eq_refl
           (proj1 (char_hyp_cut_at_last_end
                     (text_ab ++ chr_end :: text_cd) text_ef
                     Ha Hc Hgt)))))).
Defined.

(* ===================================================================== *)
(** * The CTC decoder and the paths of the frames *)
(* ===================================================================== *)

(** ** Sums *)

Lemma sum_N_app {A} (f : A → N) (l1 l2 : list A) :
  sum_N f (l1 ++ l2) = (sum_N f l1 + sum_N f l2)%N.
Proof. induction l1 as [|x l1 IH]; simpl; [done|]. rewrite IH. lia. Qed.

Lemma sum_N_ext {A} (f g : A → N) (l : list A) :
  (∀ x, x ∈ l → f x = g x) → sum_N f l = sum_N g l.
Proof.
  induction l as [|x l IH]; simpl; intros Hfg; [done|].
  rewrite Hfg by (by left). rewrite IH; [done|].
  intros y ?. apply Hfg. by right.
Qed.

Lemma sum_N_le {A} (f g : A → N) (l : list A) :
  (∀ x, x ∈ l → (f x ≤ g x)%N) → (sum_N f l ≤ sum_N g l)%N.
Proof.
  induction l as [|x l IH]; simpl; intros Hfg; [done|].
  assert (f x ≤ g x)%N by (apply Hfg; by left).
  assert (sum_N f l ≤ sum_N g l)%N by (apply IH; intros y ?; apply Hfg; by right).
  lia.
Qed.

Lemma sum_N_zero {A} (l : list A) : sum_N (fun _ => 0%N) l = 0%N.
Proof. induction l as [|x l IH]; simpl; [done|]. by rewrite IH. Qed.

Lemma sum_N_plus {A} (f g : A → N) (l : list A) :
  sum_N (fun x => (f x + g x)%N) l = (sum_N f l + sum_N g l)%N.
Proof. induction l as [|x l IH]; simpl; [done|]. rewrite IH. lia. Qed.

Lemma sum_N_mul_r {A} (f : A → N) (c : N) (l : list A) :
  sum_N (fun x => (f x * c)%N) l = (sum_N f l * c)%N.
Proof. induction l as [|x l IH]; simpl; [done|]. rewrite IH. lia. Qed.

Lemma sum_N_fmap {A B} (h : A → B) (f : B → N) (l : list A) :
  sum_N f (h <$> l) = sum_N (fun x => f (h x)) l.
Proof.
  induction l as [|x l IH]; [done|].
  rewrite fmap_cons. unfold sum_N in *. cbn [foldr]. by rewrite IH.
Qed.

Lemma sum_N_bind {A B} (h : A → list B) (f : B → N) (l : list A) :
  sum_N f (l ≫= h) = sum_N (fun x => sum_N f (h x)) l.
Proof.
  induction l as [|x l IH]; [done|].
  rewrite bind_cons, sum_N_app, IH. done.
Qed.

Lemma sum_N_comm {A B} (f : A → B → N) (l1 : list A) (l2 : list B) :
  sum_N (fun x => sum_N (f x) l2) l1
  = sum_N (fun y => sum_N (fun x => f x y) l1) l2.
Proof.
  induction l1 as [|x l1 IH]; simpl.
  - by rewrite sum_N_zero.
  - by rewrite IH, sum_N_plus.
Qed.

(** A sum over one element picked by its value. *)
Lemma sum_N_ge_elem {A} (f : A → N) (l : list A) (x : A) :
  x ∈ l → (f x ≤ sum_N f l)%N.
Proof.
  induction l as [|y l IH]; [by intros ?%elem_of_nil|].
  intros [->|Hin]%elem_of_cons; simpl; [lia|].
  specialize (IH Hin). lia.
Qed.

(** ** Paths *)

Lemma paths_length (C t : nat) (path : list nat) :
  path ∈ paths C t → length path = t.
Proof.
  revert path. induction t as [|t IH]; simpl; intros path.
  - by intros ->%list_elem_of_singleton.
  - intros (path' & Hp & Hin)%list_elem_of_bind.
    apply list_elem_of_fmap in Hp as (c & -> & _).
    rewrite length_app, (IH path') by done. simpl. lia.
Qed.

Lemma path_weight_snoc log_probs b t0 path c :
  path_weight log_probs b t0 (path ++ [c])
  = (path_weight log_probs b t0 path
     * item log_probs b (t0 + length path) c)%N.
Proof.
  revert t0. induction path as [|c' path IH]; intros t0; simpl.
  - rewrite Nat.add_0_r. lia.
  - rewrite IH. replace (S t0 + length path) with (t0 + S (length path)) by lia.
    lia.
Qed.

Lemma ctc_state_snoc blank path c :
  ctc_state blank (path ++ [c]) = ctc_step blank (ctc_state blank path) c.
Proof. unfold ctc_state. by rewrite foldl_app. Qed.

Lemma state_mass_S blank log_probs b t s :
  state_mass blank log_probs b (S t) s
  = sum_N (fun path =>
      sum_N (fun c =>
               if decide (ctc_step blank (ctc_state blank path) c = s)
               then (path_weight log_probs b 0 path
                     * item log_probs b t c)%N
               else 0%N)
            (seq 0 (shape log_probs).2))
      (paths (shape log_probs).2 t).
Proof.
  unfold state_mass. simpl. rewrite sum_N_bind.
  apply sum_N_ext. intros path Hp%paths_length.
  rewrite sum_N_fmap. apply sum_N_ext. intros c _.
  by rewrite ctc_state_snoc, path_weight_snoc, Hp.
Qed.

(** ** The dictionary of the candidates, state by state *)

Lemma propose_state_get blank c (w : N) (nb : list (@entry N))
    (e : @entry N) s :
  state_get (propose blank c w nb e) s
  = (state_get nb s + proposed blank c w e s)%N.
Proof.
  destruct e as [p [p_b p_nb]]. destruct s as [k bl].
  assert (Hne : p ≠ p ++ [c]).
  { intros E%(f_equal length). rewrite length_app in E. simpl in E. lia. }
  unfold state_get, proposed, ctc_step. cbn [fst snd].
  rewrite propose_get. cbv zeta. simpl.
  destruct bl; repeat (case_decide || case_bool_decide); simplify_eq/=;
    try lia; try congruence.
Qed.

Lemma foldl_propose_state_get blank c (w : N) (nb beam : list (@entry N))
    s :
  state_get (foldl (propose blank c w) nb beam) s
  = (state_get nb s + sum_N (fun e => proposed blank c w e s) beam)%N.
Proof.
  revert nb. induction beam as [|e beam IH]; intros nb;
    cbn [foldl sum_N foldr].
  - lia.
  - rewrite IH, propose_state_get. unfold sum_N. lia.
Qed.

Lemma candidates_state_get blank (log_probs : ndarray3 N) b t
    (beam nb : list (@entry N)) s :
  candidates blank log_probs b t beam = Ok nb →
  state_get nb s
  = sum_N (fun c => sum_N (fun e => proposed blank c (item log_probs b t c)
                                             e s) beam)
          (seq 0 (shape log_probs).2).
Proof.
  unfold candidates.
  assert (Hgen : ∀ l nb0,
    foldlM (fun next_beam c =>
              p_t ← getitem3 log_probs b t c;
              Ok (foldl (propose blank c p_t) next_beam beam)) l nb0
      = Ok nb →
    state_get nb s
    = (state_get nb0 s
       + sum_N (fun c => sum_N (fun e => proposed blank c
                                           (item log_probs b t c) e s)
                               beam) l)%N).
  { induction l as [|c l IH]; intros nb0 E; cbn [foldlM sum_N foldr] in *.
    - injection E as <-. lia.
    - apply bind_Ok in E as (nb1 & E1 & E).
      apply bind_Ok in E1 as (p_t & Ep & [= <-]).
      rewrite (IH _ E), foldl_propose_state_get.
      unfold getitem3 in Ep. destruct (shape log_probs) as [[B T] C].
      destruct (_ && _); [|done]. injection Ep as <-. unfold sum_N. lia. }
  intros E. rewrite (Hgen _ _ E). unfold state_get. simpl.
  by destruct s as [k [|]].
Qed.

(** An entry of a dictionary without repeated keys is what the dictionary
    holds for its key. *)
Lemma state_get_entry (beam : list (@entry N)) (e : @entry N) :
  nb_wf beam → e ∈ beam →
  e.2.1 = state_get beam (e.1, true) ∧ e.2.2 = state_get beam (e.1, false).
Proof.
  destruct e as [p [p_b p_nb]]. intros Hwf Hin.
  unfold state_get, nb_get. simpl.
  by rewrite (nb_wf_find _ _ _ Hwf Hin).
Qed.

Lemma state_get_absent (beam : list (@entry N)) s :
  s.1 ∉ beam.*1 → state_get beam s = 0%N.
Proof.
  intros Hno%nb_find_None. unfold state_get, nb_get. rewrite Hno.
  by destruct s as [k [|]].
Qed.

(** The states of the entries of a dictionary without repeated keys are
    distinct: a state is counted once at most. *)
Lemma sum_N_states (beam : list (@entry N)) (s : prefix * bool) (x : N) :
  nb_wf beam →
  sum_N (fun e : @entry N =>
           (if decide (s = (e.1, true)) then x else 0)
           + (if decide (s = (e.1, false)) then x else 0))%N beam
  = if decide (s.1 ∈ beam.*1) then x else 0%N.
Proof.
  unfold nb_wf. destruct s as [k bl].
  induction beam as [|[p v] beam IH]; cbn [sum_N foldr fmap list_fmap fst snd].
  - intros _. rewrite decide_False; [done | apply not_elem_of_nil].
  - intros [Hp Hnd]%list.NoDup_cons. specialize (IH Hnd).
    unfold sum_N in IH. rewrite IH. clear IH.
    destruct (decide (k = p)) as [->|Hkp].
    + rewrite (decide_True (P := p ∈ p :: _)) by (by left).
      rewrite (decide_False (P := p ∈ _)) by done.
      destruct bl; repeat case_decide; simplify_eq; lia.
    + destruct (decide (k ∈ beam.*1)) as [Hin|Hin].
      * rewrite (decide_True (P := k ∈ p :: _)) by (by right).
        repeat case_decide; simplify_eq; lia.
      * rewrite (decide_False (P := k ∈ p :: _))
          by (by intros [?|?]%elem_of_cons).
        repeat case_decide; simplify_eq; lia.
Qed.

Section step.
Context (blank : Z) (log_probs : ndarray3 N) (b t : nat).
Implicit Types (beam nb : list (@entry N)) (s : prefix * bool).

Lemma path_weight_le_state_mass path :
  path ∈ paths (shape log_probs).2 t →
  (path_weight log_probs b 0 path
   ≤ state_mass blank log_probs b t (ctc_state blank path))%N.
Proof.
  intros Hin. unfold state_mass.
  etrans; [|apply (sum_N_ge_elem _ _ path Hin)]. simpl.
  by rewrite decide_True.
Qed.

(** The weights of the states of the entries, regrouped by path. *)
Lemma sum_N_entries_paths beam (g : prefix * bool → N) :
  nb_wf beam →
  sum_N (fun e : @entry N =>
           g (e.1, true) * state_mass blank log_probs b t (e.1, true)
           + g (e.1, false) * state_mass blank log_probs b t (e.1, false))%N
        beam
  = sum_N (fun path =>
             if decide ((ctc_state blank path).1 ∈ beam.*1)
             then (g (ctc_state blank path)
                   * path_weight log_probs b 0 path)%N
             else 0%N)
          (paths (shape log_probs).2 t).
Proof.
  intros Hwf.
  transitivity
    (sum_N (fun e : @entry N =>
       sum_N (fun path =>
                let x := (g (ctc_state blank path)
                          * path_weight log_probs b 0 path)%N in
                (if decide (ctc_state blank path = (e.1, true))
                 then x else 0)
                + (if decide (ctc_state blank path = (e.1, false))
                   then x else 0))%N
             (paths (shape log_probs).2 t)) beam).
  - apply sum_N_ext. intros e _. cbv zeta. rewrite sum_N_plus.
    unfold state_mass. rewrite !(N.mul_comm (g _)), <-!sum_N_mul_r.
    f_equal; apply sum_N_ext; intros path _; case_decide as E;
      try rewrite E; lia.
  - rewrite sum_N_comm. apply sum_N_ext. intros path _.
    by rewrite sum_N_states.
Qed.

Lemma proposed_entries c (w : N) beam s :
  nb_wf beam →
  sum_N (fun e => proposed blank c w e s) beam
  = sum_N (fun e : @entry N =>
             (if decide (ctc_step blank (e.1, true) c = s) then w else 0)
             * state_get beam (e.1, true)
             + (if decide (ctc_step blank (e.1, false) c = s) then w else 0)
               * state_get beam (e.1, false))%N beam.
Proof.
  intros Hwf. apply sum_N_ext. intros e He.
  destruct (state_get_entry beam e Hwf He) as [<- <-].
  unfold proposed. repeat case_decide; lia.
Qed.

Lemma proposed_bound c (w : N) beam s :
  nb_wf beam →
  (∀ s', (state_get beam s' ≤ state_mass blank log_probs b t s')%N) →
  (sum_N (fun e => proposed blank c w e s) beam
   ≤ sum_N (fun path =>
              if decide (ctc_step blank (ctc_state blank path) c = s)
              then (path_weight log_probs b 0 path * w)%N else 0%N)
           (paths (shape log_probs).2 t))%N.
Proof.
  intros Hwf Hle. rewrite proposed_entries by done.
  etrans.
  { apply sum_N_le. intros e _.
    apply N.add_le_mono; apply N.mul_le_mono_l, Hle. }
  rewrite (sum_N_entries_paths beam
             (fun s' => if decide (ctc_step blank s' c = s) then w else 0%N))
    by done.
  apply sum_N_le. intros path _. repeat case_decide; lia.
Qed.

Lemma proposed_exact c (w : N) beam s :
  nb_wf beam →
  (∀ s', state_get beam s' = state_mass blank log_probs b t s') →
  sum_N (fun e => proposed blank c w e s) beam
  = sum_N (fun path =>
             if decide (ctc_step blank (ctc_state blank path) c = s)
             then (path_weight log_probs b 0 path * w)%N else 0%N)
          (paths (shape log_probs).2 t).
Proof.
  intros Hwf Heq. rewrite proposed_entries by done.
  transitivity
    (sum_N (fun e : @entry N =>
       (if decide (ctc_step blank (e.1, true) c = s) then w else 0)
       * state_mass blank log_probs b t (e.1, true)
       + (if decide (ctc_step blank (e.1, false) c = s) then w else 0)
         * state_mass blank log_probs b t (e.1, false))%N beam).
  { apply sum_N_ext. intros e _. by rewrite !Heq. }
  rewrite (sum_N_entries_paths beam
             (fun s' => if decide (ctc_step blank s' c = s) then w else 0%N))
    by done.
  apply sum_N_ext. intros path Hin.
  destruct (decide ((ctc_state blank path).1 ∈ beam.*1)) as [?|Hno].
  - repeat case_decide; lia.
  - pose proof (path_weight_le_state_mass path Hin) as Hw.
    rewrite <-Heq, (state_get_absent _ _ Hno) in Hw.
    assert (path_weight log_probs b 0 path = 0%N) as -> by lia.
    repeat case_decide; lia.
Qed.

Lemma candidates_bound beam nb :
  nb_wf beam →
  (∀ s, (state_get beam s ≤ state_mass blank log_probs b t s)%N) →
  candidates blank log_probs b t beam = Ok nb →
  ∀ s, (state_get nb s ≤ state_mass blank log_probs b (S t) s)%N.
Proof.
  intros Hwf Hle E s.
  rewrite (candidates_state_get _ _ _ _ _ _ s E), state_mass_S.
  rewrite (sum_N_comm _ (paths (shape log_probs).2 t)).
  apply sum_N_le. intros c _. by apply proposed_bound.
Qed.

Lemma candidates_exact beam nb :
  nb_wf beam →
  (∀ s, state_get beam s = state_mass blank log_probs b t s) →
  candidates blank log_probs b t beam = Ok nb →
  ∀ s, state_get nb s = state_mass blank log_probs b (S t) s.
Proof.
  intros Hwf Heq E s.
  rewrite (candidates_state_get _ _ _ _ _ _ s E), state_mass_S.
  rewrite (sum_N_comm _ (paths (shape log_probs).2 t)).
  apply sum_N_ext. intros c _. by apply proposed_exact.
Qed.
End step.

(** ** The trim *)

Lemma nb_wf_trim (w : Z) (nb : list (@entry N)) :
  nb_wf nb → nb_wf (slice_to w (sorted_beam nb)).
Proof.
  unfold nb_wf. intros Hnd.
  assert (Hs : NoDup (sorted_beam nb).*1).
  { unfold sorted_beam. by rewrite sorted_desc_Permutation. }
  unfold slice_to. destruct (0 <=? w)%Z; rewrite fmap_take;
    eapply sublist_NoDup; try exact Hs; apply sublist_take.
Qed.

Lemma state_get_sub (nb nb' : list (@entry N)) s :
  nb_wf nb → nb_wf nb' → nb' ⊆ nb →
  (state_get nb' s ≤ state_get nb s)%N ∧
  (s.1 ∈ nb'.*1 → state_get nb' s = state_get nb s).
Proof.
  intros Hwf Hwf' Hsub.
  destruct (decide (s.1 ∈ nb'.*1)) as [Hin|Hno].
  - apply list_elem_of_fmap in Hin as ([k v] & Hk & Hin). simpl in Hk.
    assert (E : state_get nb' s = state_get nb s).
    { unfold state_get, nb_get.
      rewrite Hk, (nb_wf_find _ _ _ Hwf' Hin),
        (nb_wf_find _ _ _ Hwf (Hsub _ Hin)). done. }
    split; [lia | done].
  - rewrite (state_get_absent _ _ Hno). split; [lia | done].
Qed.

(** ** Paths and label sequences *)

Lemma merge_repeats_cons (a a' : nat) (l : list nat) :
  merge_repeats (a :: a' :: l)
  = if decide (a = a') then merge_repeats (a' :: l)
    else a :: merge_repeats (a' :: l).
Proof. done. Qed.

Lemma merge_repeats_snoc (l : list nat) (c : nat) :
  merge_repeats (l ++ [c])
  = if decide (list.last l = Some c) then merge_repeats l
    else merge_repeats l ++ [c].
Proof.
  induction l as [|a l IH]; [done|].
  destruct l as [|a' l].
  - simpl. destruct (decide (a = c)) as [->|Hne].
    + by rewrite decide_True.
    + rewrite decide_False; [done | congruence].
  - change ((a :: a' :: l) ++ [c]) with (a :: a' :: (l ++ [c])).
    change (list.last (a :: a' :: l)) with (list.last (a' :: l)).
    rewrite !merge_repeats_cons.
    change (a' :: (l ++ [c])) with ((a' :: l) ++ [c]). rewrite IH.
    destruct (decide (a = a'));
      destruct (decide (list.last (a' :: l) = Some c)); done.
Qed.

Lemma ctc_state_spec (blank : Z) (path : list nat) :
  (ctc_state blank path).1 = ctc_collapse blank path ∧
  if (ctc_state blank path).2
  then ∀ c, list.last path = Some c → Z.of_nat c = blank
  else ∃ c, list.last path = Some c ∧ Z.of_nat c ≠ blank ∧
            prefix_end (ctc_state blank path).1 = Some c.
Proof.
  induction path as [|c path IH] using rev_ind; [done|].
  rewrite ctc_state_snoc. destruct (ctc_state blank path) as [p bl].
  simpl in IH. destruct IH as [-> IH].
  unfold ctc_collapse. rewrite merge_repeats_snoc, last_snoc.
  unfold ctc_step. cbn [fst snd].
  destruct (decide (Z.of_nat c = blank)) as [Hb|Hb]; cbn [fst snd].
  - split; [|by intros ? [= <-]].
    destruct (decide (list.last path = Some c)); [done|].
    rewrite list.filter_app, filter_cons_False, filter_nil, app_nil_r by tauto.
    done.
  - destruct bl; cbn [negb andb].
    + rewrite andb_false_r. cbn [fst snd].
      rewrite decide_False by (intros Hl; by apply IH in Hl).
      rewrite list.filter_app, filter_cons_True, filter_nil by done.
      split; [done|]. exists c. unfold prefix_end. by rewrite last_snoc.
    + destruct IH as (c' & Hl & Hc' & Hend). rewrite andb_true_r.
      fold (ctc_collapse blank path) in *.
      case_bool_decide as Hpe; cbn [fst snd].
      * assert (c' = c) as -> by congruence.
        rewrite decide_True by done. split; [done|]. by exists c.
      * rewrite decide_False by congruence.
        rewrite list.filter_app, filter_cons_True, filter_nil by done.
        split; [done|]. exists c. unfold prefix_end. by rewrite last_snoc.
Qed.

Lemma collapse_mass_states blank log_probs b t p :
  collapse_mass blank log_probs b t p
  = (state_mass blank log_probs b t (p, true)
     + state_mass blank log_probs b t (p, false))%N.
Proof.
  unfold collapse_mass, state_mass. rewrite <-sum_N_plus.
  apply sum_N_ext. intros path _.
  destruct (ctc_state_spec blank path) as [<- _].
  destruct (ctc_state blank path) as [q [|]]; simpl;
    repeat case_decide; simplify_eq; lia.
Qed.

(** ** Whole runs *)

Lemma state_get_sorted (nb : list (@entry N)) s :
  nb_wf nb → state_get (sorted_beam nb) s = state_get nb s.
Proof.
  intros Hwf.
  assert (Hwf' : nb_wf (sorted_beam nb)).
  { unfold nb_wf, sorted_beam. by rewrite sorted_desc_Permutation. }
  assert (H1 : sorted_beam nb ⊆ nb).
  { intros e. unfold sorted_beam. by rewrite sorted_desc_Permutation. }
  assert (H2 : nb ⊆ sorted_beam nb).
  { intros e. unfold sorted_beam. by rewrite sorted_desc_Permutation. }
  destruct (state_get_sub nb (sorted_beam nb) s Hwf Hwf' H1) as [? _].
  destruct (state_get_sub (sorted_beam nb) nb s Hwf' Hwf H2) as [? _].
  lia.
Qed.

Lemma init_beam_exact blank log_probs b s :
  state_get init_beam s = state_mass blank log_probs b 0 s.
Proof.
  unfold state_mass, state_get, nb_get. simpl.
  destruct s as [[|c p] [|]]; simpl; repeat case_decide; simplify_eq; done.
Qed.

Lemma init_beam_wf : nb_wf (init_beam (R := N)).
Proof. unfold nb_wf. simpl. apply NoDup_singleton. Qed.

Lemma final_beam_bound blank log_probs b beam_width time beam :
  final_beam blank log_probs b beam_width time = Ok beam →
  nb_wf beam ∧
  ∀ s, (state_get beam s
        ≤ state_mass blank log_probs b (Z.to_nat time) s)%N.
Proof.
  intros E. unfold final_beam in E.
  rewrite <-(length_seq (Z.to_nat time) 0).
  eapply (foldlM_invariant_idx
            (fun n beam => nb_wf beam ∧
               ∀ s, (state_get beam s
                     ≤ state_mass blank log_probs b n s)%N));
    [| |exact E].
  - intros i beam0 t beam1 [-> _]%lookup_seq [Hwf Hle] E1. simpl in *.
    apply bind_Ok in E1 as (nb & Enb & [= <-]).
    pose proof (candidates_wf _ _ _ _ _ _ Enb) as Hnb.
    split; [by apply nb_wf_trim|]. intros s.
    etrans; [|by apply (candidates_bound blank log_probs b i beam0 nb)].
    apply state_get_sub; [done | by apply nb_wf_trim|].
    intros e He%slice_to_subseteq. unfold sorted_beam in He.
    by rewrite sorted_desc_Permutation in He.
  - split; [apply init_beam_wf|]. intros s.
    by rewrite (init_beam_exact blank log_probs b).
Qed.

Lemma run_exact blank log_probs b beam_width time n beam :
  never_trimmed blank log_probs b beam_width time →
  n ≤ Z.to_nat time →
  foldlM (time_step blank log_probs b beam_width) (seq 0 n) init_beam
    = Ok beam →
  nb_wf beam ∧ ∀ s, state_get beam s = state_mass blank log_probs b n s.
Proof.
  intros Hall. revert beam. induction n as [|n IH]; intros beam Hn E.
  - injection E as <-. split; [apply init_beam_wf|].
    intros s. apply init_beam_exact.
  - rewrite seq_S, foldlM_app in E. simpl in E.
    apply bind_Ok in E as (prev & Eprev & E).
    apply bind_Ok in E as (beam' & E & [= <-]).
    destruct (IH prev) as [Hwf Heq]; [lia | done|].
    apply bind_Ok in E as (nb & Enb & [= <-]).
    pose proof (candidates_wf _ _ _ _ _ _ Enb) as Hnb.
    split; [by apply nb_wf_trim|]. intros s.
    rewrite slice_to_all.
    + rewrite state_get_sorted by done.
      by apply (candidates_exact blank log_probs b n prev nb).
    + unfold sorted_beam. rewrite sorted_desc_Permutation.
      apply (Hall n prev nb); [lia | done | done].
Qed.

(** With scores read as weights: whatever the beam width, the combined
    weight of an entry of the final beam is at most the weight of its
    label sequence, the sum of the weights of all the paths (one class
    per frame) that collapse to it. *)
Theorem ctc_score_bounded_by_paths blank (log_probs : ndarray3 N) b
    beam_width time beam (e : @entry N) :
  final_beam blank log_probs b beam_width time = Ok beam → e ∈ beam →
  (key e ≤ collapse_mass blank log_probs b (Z.to_nat time) e.1)%N.
Proof.
  intros E He. destruct (final_beam_bound _ _ _ _ _ _ E) as [Hwf Hle].
  destruct (state_get_entry beam e Hwf He) as [E1 E2].
  rewrite collapse_mass_states. unfold key. simpl. rewrite E1, E2.
  apply N.add_le_mono; apply Hle.
Qed.

(** With scores read as weights and a beam that is never trimmed (wide
    enough for the candidates of every step), the decoder computes the
    weights of the label sequences exactly and returns a most probable
    one: the returned score is the sum of the weights of the paths that
    collapse to the returned sequence, and no label sequence has a
    larger one. *)
Theorem ctc_untrimmed_returns_most_probable blank (log_probs : ndarray3 N)
    x_lens beam_width b time p :
  x_lens !! b = Some time →
  never_trimmed blank log_probs b beam_width time →
  decode_utt blank log_probs x_lens beam_width b = Ok p →
  top_score blank log_probs x_lens beam_width b
    = Ok (collapse_mass blank log_probs b (Z.to_nat time) p) ∧
  ∀ q, (collapse_mass blank log_probs b (Z.to_nat time) q
        ≤ collapse_mass blank log_probs b (Z.to_nat time) p)%N.
Proof.
  intros Hx Hall E. unfold decode_utt in E.
  apply bind_Ok in E as (time' & Et & E).
  assert (time' = time) as ->.
  { apply getitem_Ok in Et. congruence. }
  apply bind_Ok in E as (beam & Ebeam & E).
  apply bind_Ok in E as (top & Etop & [= <-]).
  assert (Escore : top_score blank log_probs x_lens beam_width b
                   = Ok (key top)).
  { unfold top_score. rewrite Et. cbn [mbind result_bind].
    rewrite Ebeam. cbn [mbind result_bind].
    destruct beam as [|top' beam']; [done|]. by injection Etop as ->. }
  rewrite Escore. clear Escore.
  apply getitem_Ok in Etop.
  assert (Hin : top ∈ beam) by (by eapply list_elem_of_lookup_2).
  destruct (run_exact blank log_probs b beam_width time
              (Z.to_nat time) beam Hall) as [Hwf Heq]; [lia | done|].
  assert (Hkey : ∀ e : @entry N, e ∈ beam →
            key e = collapse_mass blank log_probs b (Z.to_nat time) e.1).
  { intros e He. destruct (state_get_entry beam e Hwf He) as [E1 E2].
    rewrite collapse_mass_states, <-!Heq, <-E1, <-E2. done. }
  split; [by rewrite Hkey|]. intros q.
  destruct (decide (q ∈ beam.*1)) as [Hq|Hq].
  - apply list_elem_of_fmap in Hq as (e & -> & He).
    rewrite <-!Hkey by done.
    assert (Hmax : fle (key e) (key top)).
    { unfold final_beam in Ebeam.
      destruct (Z.to_nat time) as [|n] eqn:En.
      - injection Ebeam as <-.
        apply list_elem_of_singleton in He, Hin. subst. apply fle_refl.
      - rewrite seq_S, foldlM_app in Ebeam. simpl in Ebeam.
        apply bind_Ok in Ebeam as (prev & Eprev & Ebeam).
        apply bind_Ok in Ebeam as (beam' & Ebeam & [= <-]).
        apply bind_Ok in Ebeam as (nb & Enb & [= <-]).
        assert (Hsl : slice_to beam_width (sorted_beam nb) = sorted_beam nb).
        { apply slice_to_all. unfold sorted_beam.
          rewrite sorted_desc_Permutation.
          apply (Hall n prev nb); [lia | done | done]. }
        rewrite Hsl in Etop, He.
        destruct (sorted_beam_head nb top) as [_ Hmax].
        { by destruct (sorted_beam nb). }
        apply Hmax. unfold sorted_beam in He.
        by rewrite sorted_desc_Permutation in He. }
    unfold fle in Hmax. simpl in Hmax. by apply N.ltb_ge in Hmax.
  - rewrite (collapse_mass_states _ _ _ _ q), <-!Heq.
    rewrite !state_get_absent by done. lia.
Qed.

Lemma ctc_score_bounded_by_paths_witness :
  final_beam 0 frames_wide 0 2 3 = Ok beam_wide_2 ∧
  entry_1 ∈ beam_wide_2 ∧
  collapse_mass 0 frames_wide 0 (Z.to_nat 3) [1] = 228%N ∧
  (key entry_1 ≤ collapse_mass 0 frames_wide 0 (Z.to_nat 3) entry_1.1)%N.
Proof.
  assert (E : final_beam 0 frames_wide 0 2 3 = Ok beam_wide_2)
    by (vm_compute; reflexivity).
  assert (He : entry_1 ∈ beam_wide_2) by (right; left).
  split; [exact E|]. split; [exact He|].
  split; [vm_compute; reflexivity|].
  exact (ctc_score_bounded_by_paths 0 frames_wide 0 2 3 _ _ E He).
Defined.

Lemma ctc_untrimmed_returns_most_probable_witness :
  [3%Z] !! 0 = Some 3%Z ∧
  never_trimmed 0 frames_wide 0 30 3 ∧
  decode_utt 0 frames_wide [3%Z] 30 0 = Ok labels_12 ∧
  top_score 0 frames_wide [3%Z] 30 0
    = Ok (collapse_mass 0 frames_wide 0 (Z.to_nat 3) labels_12) ∧
  ∀ q, (collapse_mass 0 frames_wide 0 (Z.to_nat 3) q
        ≤ collapse_mass 0 frames_wide 0 (Z.to_nat 3) labels_12)%N.
Proof.
  assert (Hx : [3%Z] !! 0 = Some 3%Z) by reflexivity.
  assert (Hall : never_trimmed 0 frames_wide 0 30 3).
  { intros t beam nb Ht Ebeam Enb.
    destruct t as [|[|[|t]]]; [| | |simpl in Ht; lia];
      vm_compute in Ebeam; injection Ebeam as <-;
      vm_compute in Enb; injection Enb as <-; vm_compute; discriminate. }
  assert (E : decode_utt 0 frames_wide [3%Z] 30 0 = Ok labels_12)
    by (vm_compute; reflexivity).
  exact (conj Hx (conj Hall (conj E
           (ctc_untrimmed_returns_most_probable 0 frames_wide [3%Z] 30 0 3
              labels_12 Hx Hall E)))).
Defined.
